(** * stimulus-autocomplete: the widget controller and its request cache

    A shallow embedding of [src/autocomplete.js] (the controller that fetches
    on every query) and of the controller with [AutocompleteCache] (the
    second source file, which adds the prefix-reusing cache), followed by the
    properties proved about them.

    JavaScript strings are sequences of UTF-16 code units; DOM elements are
    records carrying an object identity; the results container is the ordered
    list of its child elements. *)

From Stdlib Require Import List Bool Arith NArith ZArith Lia.
From Stdlib Require Import Strings.Ascii Strings.String.
From Stdlib Require Import Numbers.DecimalString Numbers.DecimalNat.
Import ListNotations.

(* ================================================================= *)
(** ** JavaScript strings *)

(** A string value: its UTF-16 code units. *)
Definition jsstring := list N.

(** Code units of an ASCII literal. *)
Definition str (s : string) : jsstring :=
  map N_of_ascii (list_ascii_of_string s).

(** [a === b] on strings. *)
Fixpoint jseq (a b : jsstring) : bool :=
  match a, b with
  | [], [] => true
  | c :: a', d :: b' => N.eqb c d && jseq a' b'
  | _, _ => false
  end.

(** [s.startsWith(k)] *)
Fixpoint startsWith (s k : jsstring) : bool :=
  match k, s with
  | [], _ => true
  | c :: k', d :: s' => N.eqb c d && startsWith s' k'
  | _ :: _, [] => false
  end.

(** [s.indexOf(pat)], scanning from position [i]; [-1] when absent. *)
Fixpoint indexOf_from (s pat : jsstring) (i : Z) : Z :=
  if startsWith s pat then i
  else match s with
       | [] => (-1)%Z
       | _ :: s' => indexOf_from s' pat (i + 1)
       end.

Definition indexOf (s pat : jsstring) : Z := indexOf_from s pat 0.

(** Index normalisation of [slice]: negative indices count from the end,
    everything is clamped to [0 .. len]. *)
Definition clamp_index (len i : Z) : Z :=
  if (i <? 0)%Z then Z.max (len + i) 0 else Z.min i len.

(** [s.slice(a, b)] *)
Definition slice (s : jsstring) (a b : Z) : jsstring :=
  let len := Z.of_nat (List.length s) in
  let from := clamp_index len a in
  let to := clamp_index len b in
  firstn (Z.to_nat (to - from)) (skipn (Z.to_nat from) s).

(** [s.slice(a)] *)
Definition slice_from (s : jsstring) (a : Z) : jsstring :=
  slice s a (Z.of_nat (List.length s)).

(** [l.includes(x)] on an array of strings. *)
Definition includes (l : list jsstring) (x : jsstring) : bool :=
  existsb (jseq x) l.

(** [String.prototype.toLowerCase] is the host's Unicode case conversion.
    The controller only calls it; the development is parametric in it. *)
Class CaseMapping := { toLowerCase : jsstring -> jsstring }.

(** The rows of the Unicode lower-case mapping for Basic Latin and Latin-1,
    and the one unconditional special-casing entry, U+0130 (capital I with
    dot above), whose lower case is the two units U+0069 U+0307.  Units
    outside these rows are left as they are: the mapping is the host's on
    strings of Basic Latin, Latin-1 and U+0130, which is where the closed
    examples use it; the theorems hold for every case mapping. *)
Definition lower_unit (c : N) : list N :=
  if (65 <=? c)%N && (c <=? 90)%N then [(c + 32)%N]
  else if (192 <=? c)%N && (c <=? 222)%N && negb (c =? 215)%N then [(c + 32)%N]
  else if (c =? 304)%N then [105%N; 775%N]
  else [c].

Definition latin_toLowerCase (s : jsstring) : jsstring :=
  flat_map lower_unit s.

#[export] Instance latin_case : CaseMapping :=
  {| toLowerCase := latin_toLowerCase |}.

(* ================================================================= *)
(** ** The response payload *)

(** The JSON object the endpoint answers with. *)
Record payload := {
  items : list jsstring;
  exact_items : list jsstring;
  field : jsstring;
  raw_term : jsstring;
  term : jsstring;
  partial : bool
}.

(** [getUniqueItemList(json_response)]: exact matches, then the items that
    are not exact matches. *)
Definition getUniqueItemList (json_response : payload) : list jsstring :=
  let exact := exact_items json_response in
  let partial_items :=
    filter (fun item => negb (includes exact item)) (items json_response) in
  exact ++ partial_items.

(* ================================================================= *)
(** ** Values and truthiness *)

(** The values a condition can test, over a type [O] of objects.  Arrays,
    functions and plain objects are all objects. *)
Inductive jsvalue (O : Type) : Type :=
| VUndefined
| VNull
| VBoolean (b : bool)
| VString (s : jsstring)
| VObject (o : O).

Arguments VUndefined {O}.
Arguments VNull {O}.
Arguments VBoolean {O} b.
Arguments VString {O} s.
Arguments VObject {O} o.

(** [ToBoolean]: what [if (v)], [!!v] and [v || w] test. *)
Definition ToBoolean {O} (v : jsvalue O) : bool :=
  match v with
  | VUndefined | VNull => false
  | VBoolean b => b
  | VString s => match s with [] => false | _ :: _ => true end
  | VObject _ => true
  end.

(* ================================================================= *)
(** ** The DOM of the results container *)

(** The controller only ever puts [<li>] elements directly under the
    results container, and its selectors are matched against these: the
    container is modelled by the list of its children. *)

(** The child nodes the controller puts into an option. *)
Inductive node :=
| TextNode (data : jsstring)
| EmNode (data : jsstring).   (* <em> holding one text node *)

(** An element.  [nid] is its object identity: two references denote the
    same element exactly when their [nid] agree. *)
Record element := {
  nid : nat;
  tagName : jsstring;
  role : option jsstring;
  ariaDisabled : option jsstring;     (* aria-disabled attribute *)
  ariaSelected : option jsstring;     (* aria-selected attribute *)
  elem_id : option jsstring;          (* id attribute *)
  classList : list jsstring;
  autocompleteValue : option jsstring; (* dataset.autocompleteValue *)
  childNodes : list node
}.

Definition with_ariaSelected (v : option jsstring) (e : element) : element :=
  {| nid := nid e; tagName := tagName e; role := role e;
     ariaDisabled := ariaDisabled e; ariaSelected := v; elem_id := elem_id e;
     classList := classList e; autocompleteValue := autocompleteValue e;
     childNodes := childNodes e |}.

Definition with_classList (c : list jsstring) (e : element) : element :=
  {| nid := nid e; tagName := tagName e; role := role e;
     ariaDisabled := ariaDisabled e; ariaSelected := ariaSelected e;
     elem_id := elem_id e; classList := c;
     autocompleteValue := autocompleteValue e; childNodes := childNodes e |}.

Definition with_elem_id (i : jsstring) (e : element) : element :=
  {| nid := nid e; tagName := tagName e; role := role e;
     ariaDisabled := ariaDisabled e; ariaSelected := ariaSelected e;
     elem_id := Some i; classList := classList e;
     autocompleteValue := autocompleteValue e; childNodes := childNodes e |}.

Definition with_childNodes (c : list node) (e : element) : element :=
  {| nid := nid e; tagName := tagName e; role := role e;
     ariaDisabled := ariaDisabled e; ariaSelected := ariaSelected e;
     elem_id := elem_id e; classList := classList e;
     autocompleteValue := autocompleteValue e; childNodes := c |}.

Definition attr_is (a : option jsstring) (v : jsstring) : bool :=
  match a with Some x => jseq x v | None => false end.

Definition has_attr (a : option jsstring) : bool :=
  match a with Some _ => true | None => false end.

(** [classList.contains(c)] *)
Definition contains (l : list jsstring) (c : jsstring) : bool :=
  existsb (jseq c) l.

(** [classList.add(...cs)]: tokens already present are not added again. *)
Definition classList_add (l cs : list jsstring) : list jsstring :=
  fold_left (fun acc c => if contains acc c then acc else acc ++ [c]) cs l.

(** [classList.remove(...cs)] *)
Definition classList_remove (l cs : list jsstring) : list jsstring :=
  filter (fun c => negb (contains cs c)) l.

(** [optionSelector]: [[role='option']:not([aria-disabled])] *)
Definition optionSelector (e : element) : bool :=
  attr_is (role e) (str "option") && negb (has_attr (ariaDisabled e)).

(** [activeSelector]: [[aria-selected='true']] *)
Definition activeSelector (e : element) : bool :=
  attr_is (ariaSelected e) (str "true").

Definition is_li (e : element) : bool := jseq (tagName e) (str "li").

(** [li.sorry-message] *)
Definition sorrySelector (e : element) : bool :=
  is_li e && contains (classList e) (str "sorry-message").

(** [li.disabled.sorry-message] *)
Definition disabledSorrySelector (e : element) : bool :=
  is_li e && contains (classList e) (str "disabled")
  && contains (classList e) (str "sorry-message").

(** Apply [f] to the element whose identity is [n]. *)
Definition update_node (n : nat) (f : element -> element)
    (l : list element) : list element :=
  map (fun e => if Nat.eqb (nid e) n then f e else e) l.

Definition lookup_node (n : nat) (l : list element) : option element :=
  find (fun e => Nat.eqb (nid e) n) l.

(** [parent.removeChild(li)] *)
Definition removeChild (n : nat) (l : list element) : list element :=
  filter (fun e => negb (Nat.eqb (nid e) n)) l.

(** [parent.insertBefore(li, ref.nextSibling)]: right after [ref]; at the
    end when [ref] has no next sibling. *)
Fixpoint insert_after (ref : nat) (li : element) (l : list element)
    : list element :=
  match l with
  | [] => [li]
  | e :: l' =>
      if Nat.eqb (nid e) ref then e :: li :: l'
      else e :: insert_after ref li l'
  end.

(** [arr[i]] for an integer [i]: [undefined] outside the array. *)
Definition item_at {A} (l : list A) (i : Z) : option A :=
  if (i <? 0)%Z then None else nth_error l (Z.to_nat i).

(** [arr.indexOf(x)] on an array of elements, by identity. *)
Fixpoint position_from (l : list element) (n : nat) (i : Z) : Z :=
  match l with
  | [] => (-1)%Z
  | e :: l' => if Nat.eqb (nid e) n then i else position_from l' n (i + 1)
  end.

Definition elements_indexOf (l : list element) (x : option element) : Z :=
  match x with
  | Some e => position_from l (nid e) 0
  | None => (-1)%Z
  end.

(* ================================================================= *)
(** ** The controller *)

(** The two source files: [src/autocomplete.js], and the file that adds
    [AutocompleteCache].  They differ in how the placeholder is handled and
    in how results are fetched. *)
Inductive revision := Plain | Caching.

(** Values and classes configured on the controller's element, and the
    layout's row height. *)
Record config := {
  hasUrlValue : bool;
  selectedClasses : option (list jsstring);
  offsetHeight : N
}.

(** [selectedClassesOrDefault] *)
Definition selectedClassesOrDefault (cfg : config) : list jsstring :=
  match selectedClasses cfg with
  | Some l => l
  | None => [str "active"]
  end.

(** Custom events dispatched on the controller's element. *)
Inductive event :=
| loadstart | load | error | loadend
| toggle_open | toggle_close.

Record widget := {
  children : list element;          (* resultsTarget's children, in order *)
  hidden : bool;                    (* resultsTarget.hidden *)
  results_id : option jsstring;     (* resultsTarget.id *)
  style_height : option N;          (* resultsTarget.style.height, in px *)
  item_count : nat;
  uniqOptionId : nat;               (* Autocomplete.uniqOptionId *)
  activedescendant : option jsstring; (* input's aria-activedescendant *)
  expanded : option bool;           (* element's aria-expanded *)
  dispatched : list event;          (* events dispatched so far, oldest first *)
  next_node : nat                   (* identity of the next created element *)
}.

Definition with_children (c : list element) (w : widget) : widget :=
  {| children := c; hidden := hidden w; results_id := results_id w;
     style_height := style_height w; item_count := item_count w;
     uniqOptionId := uniqOptionId w; activedescendant := activedescendant w;
     expanded := expanded w; dispatched := dispatched w;
     next_node := next_node w |}.

Definition with_style_height (h : option N) (w : widget) : widget :=
  {| children := children w; hidden := hidden w; results_id := results_id w;
     style_height := h; item_count := item_count w;
     uniqOptionId := uniqOptionId w; activedescendant := activedescendant w;
     expanded := expanded w; dispatched := dispatched w;
     next_node := next_node w |}.

Definition with_activedescendant (a : option jsstring) (w : widget) : widget :=
  {| children := children w; hidden := hidden w; results_id := results_id w;
     style_height := style_height w; item_count := item_count w;
     uniqOptionId := uniqOptionId w; activedescendant := a;
     expanded := expanded w; dispatched := dispatched w;
     next_node := next_node w |}.

Definition dispatchEvent (ev : event) (w : widget) : widget :=
  {| children := children w; hidden := hidden w; results_id := results_id w;
     style_height := style_height w; item_count := item_count w;
     uniqOptionId := uniqOptionId w; activedescendant := activedescendant w;
     expanded := expanded w; dispatched := dispatched w ++ [ev];
     next_node := next_node w |}.

(** [get options()] *)
Definition options (w : widget) : list element :=
  filter optionSelector (children w).

(** [get selectedOption()] *)
Definition selectedOption (w : widget) : option element :=
  find activeSelector (children w).

(** [get resultsShown()] *)
Definition resultsShown (w : widget) : bool := negb (hidden w).

(** [sibling(next)] *)
Definition sibling (next : bool) (w : widget) : option element :=
  let options := options w in
  let selected := selectedOption w in
  let index := elements_indexOf options selected in
  let sibling :=
    if next then item_at options (index + 1) else item_at options (index - 1) in
  let def :=
    if next then item_at options 0
    else item_at options (Z.of_nat (List.length options) - 1) in
  match sibling with
  | Some e => Some e
  | None => def
  end.

(** [select(target)], [target] being an element of the container. *)
Definition select (cfg : config) (target : nat) (w : widget) : widget :=
  let w1 :=
    match selectedOption w with
    | Some previouslySelected =>
        with_children
          (update_node (nid previouslySelected)
             (fun e =>
                with_classList
                  (classList_remove (classList e) (selectedClassesOrDefault cfg))
                  (with_ariaSelected None e))
             (children w)) w
    | None => w
    end in
  match lookup_node target (children w1) with
  | Some t =>
      if (0 <? item_count w1) && negb (contains (classList t) (str "disabled"))
      then
        with_activedescendant
          (Some (match elem_id t with Some i => i | None => [] end))
          (with_children
             (update_node target
                (fun e =>
                   with_classList
                     (classList_add (classList e) (selectedClassesOrDefault cfg))
                     (with_ariaSelected (Some (str "true")) e))
                (children w1)) w1)
      else w1
  | None => w1
  end.

(** [onArrowDownKeydown] and [onArrowUpKeydown] *)
Definition onArrowDownKeydown (cfg : config) (w : widget) : widget :=
  match sibling true w with
  | Some item => select cfg (nid item) w
  | None => w
  end.

Definition onArrowUpKeydown (cfg : config) (w : widget) : widget :=
  match sibling false w with
  | Some item => select cfg (nid item) w
  | None => w
  end.

(** [open()] and [close()] *)
Definition open (w : widget) : widget :=
  if resultsShown w then w
  else
    dispatchEvent toggle_open
      {| children := children w; hidden := false; results_id := results_id w;
         style_height := style_height w; item_count := item_count w;
         uniqOptionId := uniqOptionId w;
         activedescendant := activedescendant w;
         expanded := Some true; dispatched := dispatched w;
         next_node := next_node w |}.

Definition close (w : widget) : widget :=
  if negb (resultsShown w) then w
  else
    dispatchEvent toggle_close
      {| children := children w; hidden := true; results_id := results_id w;
         style_height := style_height w; item_count := item_count w;
         uniqOptionId := uniqOptionId w;
         activedescendant := None;
         expanded := Some false; dispatched := dispatched w;
         next_node := next_node w |}.

(** [hideAndRemoveOptions()]: both files empty the container. *)
Definition hideAndRemoveOptions (w : widget) : widget :=
  with_children [] (close w).

(** [onEscapeKeydown] *)
Definition onEscapeKeydown (w : widget) : widget :=
  if negb (resultsShown w) then w else hideAndRemoveOptions w.

(** Decimal digits of a counter value. *)
Definition decimal (n : nat) : jsstring :=
  str (NilEmpty.string_of_uint (Nat.to_uint n)).

(** [identifyOptions()] *)
Fixpoint identify (prefix : jsstring) (l : list element) (n : nat)
    : list element * nat :=
  match l with
  | [] => ([], n)
  | e :: l' =>
      if optionSelector e && negb (has_attr (elem_id e)) then
        let (r, n') := identify prefix l' (S n) in
        (with_elem_id (prefix ++ str "-option-" ++ decimal n) e :: r, n')
      else
        let (r, n') := identify prefix l' n in (e :: r, n')
  end.

Definition identifyOptions (w : widget) : widget :=
  let prefix :=
    match results_id w with
    | Some (c :: i) => c :: i
    | _ => str "stimulus-autocomplete"
    end in
  let (c, n) := identify prefix (children w) (uniqOptionId w) in
  {| children := c; hidden := hidden w; results_id := results_id w;
     style_height := style_height w; item_count := item_count w;
     uniqOptionId := n; activedescendant := activedescendant w;
     expanded := expanded w; dispatched := dispatched w;
     next_node := next_node w |}.

(** [setHeight()] *)
Definition setHeight (cfg : config) (w : widget) : widget :=
  match find is_li (children w) with
  | Some li =>
      let li_height := offsetHeight cfg in
      if item_count w <=? 5 then with_style_height None w
      else with_style_height (Some (li_height * 5)%N) w
  | None => w
  end.

(* ----------------------------------------------------------------- *)
(** *** Rendering *)

(** The three child nodes built for an item in which the query occurs:
    the text before the match, the highlighted match, the text after it.
    [None] when [pos] is negative. *)
Definition highlighted `{CaseMapping} (lower_query query item : jsstring)
    : option (list node) :=
  let pos := indexOf (toLowerCase item) lower_query in
  if (pos >=? 0)%Z then
    let qlen := Z.of_nat (List.length query) in
    let prefix := slice item 0 pos in
    let match_ := slice item pos (pos + qlen) in
    let suffix := slice_from item (pos + qlen) in
    Some [TextNode prefix; EmNode match_; TextNode suffix]
  else None.

(** The variables of the loop of [updateResults]. *)
Record render_state := {
  r_children : list element;
  last_li : option nat;
  r_item_count : nat;
  shown_items : list jsstring;
  r_next_node : nat
}.

(** [existing_lis.find(li => li.dataset.autocompleteValue === item)] *)
Definition find_existing (existing_lis : list element) (item : jsstring)
    : option element :=
  find (fun li => attr_is (autocompleteValue li) item) existing_lis.

(** The [<li>] created for an item. *)
Definition new_option (n : nat) (item : jsstring) (content : list node)
    : element :=
  {| nid := n; tagName := str "li"; role := Some (str "option");
     ariaDisabled := None; ariaSelected := None; elem_id := None;
     classList := [str "list-group-item"];
     autocompleteValue := Some item; childNodes := content |}.

(** One iteration of the loop over [items]. *)
Definition render_item `{CaseMapping} (existing_lis : list element)
    (lower_query query : jsstring) (rs : render_state) (item : jsstring)
    : render_state :=
  match highlighted lower_query query item with
  | Some content =>
      match find_existing existing_lis item with
      | Some existing_li =>
          {| r_children :=
               update_node (nid existing_li) (with_childNodes content)
                 (r_children rs);
             last_li := Some (nid existing_li);
             r_item_count := r_item_count rs + 1;
             shown_items := shown_items rs ++ [item];
             r_next_node := r_next_node rs |}
      | None =>
          let li := new_option (r_next_node rs) item content in
          {| r_children :=
               match last_li rs with
               | Some l => insert_after l li (r_children rs)
               | None => li :: r_children rs
               end;
             last_li := Some (nid li);
             r_item_count := r_item_count rs + 1;
             shown_items := shown_items rs ++ [item];
             r_next_node := S (r_next_node rs) |}
      end
  | None => rs
  end.

(** The loop that removes the options no longer needed. *)
Definition remove_stale (shown : list jsstring) (existing_lis : list element)
    (c : list element) : list element :=
  fold_left
    (fun c li =>
       match autocompleteValue li with
       | Some v => if includes shown v then c else removeChild (nid li) c
       | None => removeChild (nid li) c
       end)
    existing_lis c.

(** The selector [hideSorryMessage] queries: [li.disabled.sorry-message] in
    [src/autocomplete.js], [li.sorry-message] in the caching file. *)
Definition placeholderSelector (rev : revision) : element -> bool :=
  match rev with
  | Plain => disabledSorrySelector
  | Caching => sorrySelector
  end.

(** [hideSorryMessage()]: the first element matching the selector is
    removed. *)
Definition hideSorryMessage (rev : revision) (w : widget) : widget :=
  match find (placeholderSelector rev) (children w) with
  | Some li => with_children (removeChild (nid li) (children w)) w
  | None => w
  end.

(** The text of the placeholder. *)
Definition sorry_text (query : jsstring) : jsstring :=
  str "No results found for " ++ [34%N] ++ query ++ [34%N].

(** The [<li>] of the placeholder; [li.ariaDisabled = true] is reflected in
    the [aria-disabled] attribute. *)
Definition sorry_li (n : nat) (query : jsstring) : element :=
  {| nid := n; tagName := str "li"; role := None;
     ariaDisabled := Some (str "true"); ariaSelected := None; elem_id := None;
     classList := [str "list-group-item"; str "disabled"; str "sorry-message"];
     autocompleteValue := None;
     childNodes := [TextNode (sorry_text query)] |}.

(** [showSorryMessage(query)]: only the caching file hides a placeholder
    already shown before appending the new one. *)
Definition showSorryMessage (rev : revision) (cfg : config)
    (query : jsstring) (w : widget) : widget :=
  let w :=
    match rev with
    | Plain => w
    | Caching => hideSorryMessage rev w
    end in
  let li := sorry_li (next_node w) query in
  setHeight cfg
    {| children := children w ++ [li]; hidden := hidden w;
       results_id := results_id w; style_height := style_height w;
       item_count := item_count w; uniqOptionId := uniqOptionId w;
       activedescendant := activedescendant w; expanded := expanded w;
       dispatched := dispatched w; next_node := S (next_node w) |}.

(** [updateResults(items, query)] *)
Definition updateResults `{CaseMapping} (rev : revision) (cfg : config)
    (items : list jsstring) (query : jsstring) (w : widget) : widget :=
  let existing_lis := options w in
  let lower_query := toLowerCase query in
  let rs :=
    fold_left (render_item existing_lis lower_query query) items
      {| r_children := children w; last_li := None; r_item_count := 0;
         shown_items := []; r_next_node := next_node w |} in
  let w :=
    {| children := remove_stale (shown_items rs) existing_lis (r_children rs);
       hidden := hidden w; results_id := results_id w;
       style_height := style_height w; item_count := r_item_count rs;
       uniqOptionId := uniqOptionId w;
       activedescendant := activedescendant w; expanded := expanded w;
       dispatched := dispatched w; next_node := r_next_node rs |} in
  if item_count w =? 0 then showSorryMessage rev cfg query w
  else hideSorryMessage rev w.

(** [replaceResults(json_response, query)].  The condition is
    [!!this.options], the truthiness of the array the getter returns. *)
Definition replaceResults `{CaseMapping} (rev : revision) (cfg : config)
    (json_response : payload) (query : jsstring) (w : widget) : widget :=
  let all_items := getUniqueItemList json_response in
  let w := updateResults rev cfg all_items query w in
  let w := identifyOptions w in
  if ToBoolean (VObject (options w)) then setHeight cfg (open w)
  else close w.

(* ================================================================= *)
(** ** [AutocompleteCache] *)

(** A URL: everything but the query string, and the query parameters. *)
Record jsurl := {
  base : jsstring;
  searchParams : list (jsstring * jsstring)
}.

(** The conversion of a string to a USVString, which [URLSearchParams]
    applies to its arguments: a surrogate code unit that is not part of a
    pair becomes U+FFFD. *)
Definition is_high_surrogate (c : N) : bool :=
  (55296 <=? c)%N && (c <=? 56319)%N.

Definition is_low_surrogate (c : N) : bool :=
  (56320 <=? c)%N && (c <=? 57343)%N.

Fixpoint to_usv (s : jsstring) : jsstring :=
  match s with
  | [] => []
  | c :: s' =>
      if is_high_surrogate c then
        match s' with
        | d :: s'' =>
            if is_low_surrogate d then c :: d :: to_usv s''
            else 65533%N :: to_usv s'
        | [] => [65533%N]
        end
      else if is_low_surrogate c then 65533%N :: to_usv s'
      else c :: to_usv s'
  end.

(** The list operation of [searchParams.set]: the first pair named [name]
    takes the value and the other pairs of that name go; without one, the
    pair is appended. *)
Fixpoint set_pair (name value : jsstring) (l : list (jsstring * jsstring))
    : list (jsstring * jsstring) :=
  match l with
  | [] => [(name, value)]
  | (k, v) :: l' =>
      if jseq k name
      then (k, value) :: filter (fun kv => negb (jseq (fst kv) name)) l'
      else (k, v) :: set_pair name value l'
  end.

(** [searchParams.set(name, value)]: both arguments are taken as
    USVStrings. *)
Definition params_set (name value : jsstring) (l : list (jsstring * jsstring))
    : list (jsstring * jsstring) :=
  set_pair (to_usv name) (to_usv value) l.

(** The objects a property read on the cache object can yield. *)
Inductive cache_object :=
| OPayload (p : payload)
| OArray (l : list jsstring)
| OBuiltin (name : jsstring).     (* a property of Object.prototype *)

Definition cache_value := jsvalue cache_object.

(** The object [this.cache], created as [{}]: its own properties in
    insertion order, and its prototype when an assignment to [__proto__]
    has replaced [Object.prototype] by a payload. *)
Record cache_map := {
  own : list (jsstring * payload);
  proto : option payload
}.

Definition empty_cache : cache_map := {| own := []; proto := None |}.

Definition object_prototype_names : list jsstring :=
  map str
    [ "constructor"; "__defineGetter__"; "__defineSetter__"; "hasOwnProperty";
      "__lookupGetter__"; "__lookupSetter__"; "isPrototypeOf";
      "propertyIsEnumerable"; "toString"; "valueOf"; "__proto__";
      "toLocaleString" ]%string.

(** A property read that reaches [Object.prototype]. *)
Definition object_prototype_get (k : jsstring) : cache_value :=
  if contains object_prototype_names k then VObject (OBuiltin k)
  else VUndefined.

Definition payload_get (p : payload) (k : jsstring) : option cache_value :=
  if jseq k (str "items") then Some (VObject (OArray (items p)))
  else if jseq k (str "exact_items") then Some (VObject (OArray (exact_items p)))
  else if jseq k (str "field") then Some (VString (field p))
  else if jseq k (str "raw_term") then Some (VString (raw_term p))
  else if jseq k (str "term") then Some (VString (term p))
  else if jseq k (str "partial") then Some (VBoolean (partial p))
  else None.

Fixpoint own_get (l : list (jsstring * payload)) (k : jsstring)
    : option payload :=
  match l with
  | [] => None
  | (k', p) :: l' => if jseq k' k then Some p else own_get l' k
  end.

(** [this.cache[k]] *)
Definition cache_get (c : cache_map) (k : jsstring) : cache_value :=
  match own_get (own c) k with
  | Some p => VObject (OPayload p)
  | None =>
      match proto c with
      | Some p =>
          if jseq k (str "__proto__") then VObject (OPayload p)
          else match payload_get p k with
               | Some v => v
               | None => object_prototype_get k
               end
      | None => object_prototype_get k
      end
  end.

Fixpoint own_set (l : list (jsstring * payload)) (k : jsstring) (p : payload)
    : list (jsstring * payload) :=
  match l with
  | [] => [(k, p)]
  | (k', p') :: l' =>
      if jseq k' k then (k', p) :: l' else (k', p') :: own_set l' k p
  end.

(** [this.cache[k] = data]: an own property, except under [__proto__],
    which is the setter of the prototype. *)
Definition cache_set (c : cache_map) (k : jsstring) (data : payload)
    : cache_map :=
  if jseq k (str "__proto__") then {| own := own c; proto := Some data |}
  else {| own := own_set (own c) k data; proto := proto c |}.

(** The number a property name denotes when it is an array index: decimal
    digits without a leading zero, below 2^32 - 1. *)
Fixpoint digits_value (s : jsstring) (acc : N) : option N :=
  match s with
  | [] => Some acc
  | c :: s' =>
      if (48 <=? c)%N && (c <=? 57)%N
      then digits_value s' (acc * 10 + (c - 48))%N
      else None
  end.

Definition array_index (k : jsstring) : option N :=
  match k with
  | [] => None
  | [48%N] => Some 0%N
  | 48%N :: _ => None
  | _ =>
      match digits_value k 0 with
      | Some n => if (n <? 4294967295)%N then Some n else None
      | None => None
      end
  end.

Fixpoint insert_index (n : N) (k : jsstring) (l : list (N * jsstring))
    : list (N * jsstring) :=
  match l with
  | [] => [(n, k)]
  | (m, k') :: l' =>
      if (n <=? m)%N then (n, k) :: l else (m, k') :: insert_index n k l'
  end.

(** [Object.keys(obj)]: the array-index names in ascending order, then the
    other names in insertion order. *)
Definition Object_keys (c : cache_map) : list jsstring :=
  let names := map fst (own c) in
  let indices :=
    fold_right
      (fun k acc =>
         match array_index k with
         | Some n => insert_index n k acc
         | None => acc
         end) [] names in
  map snd indices
  ++ filter
       (fun k => match array_index k with Some _ => false | None => true end)
       names.

Record AutocompleteCache := {
  url : jsurl;
  queryParam : jsstring;
  cache : cache_map;
  abortController : option nat;   (* identity of the controller held *)
  next_controller : nat           (* identity of the next one created *)
}.

(** The loop of [findInCache] over the keys. *)
Fixpoint scan_keys (c : cache_map) (query : jsstring) (keys : list jsstring)
    : cache_value :=
  match keys with
  | [] => VNull
  | k :: keys' =>
      match own_get (own c) k with
      | Some p =>
          if negb (partial p) && startsWith query k
          then VObject (OPayload p)
          else scan_keys c query keys'
      | None => scan_keys c query keys'
      end
  end.

(** [findInCache(query)] *)
Definition findInCache `{CaseMapping} (c : cache_map) (query : jsstring)
    : cache_value :=
  let query := toLowerCase query in
  if ToBoolean (cache_get c query) then cache_get c query
  else scan_keys c query (Object_keys c).

(** [addToCache(query, data)] *)
Definition addToCache `{CaseMapping} (c : cache_map) (query : jsstring)
    (data : payload) : cache_map :=
  cache_set c (toLowerCase query) data.

(** What [fetch(query)] hands back: a promise already resolved with a
    cached value, or the promise of a request it has just issued (after
    aborting the controller it held). *)
Inductive fetched :=
| Resolved (v : cache_value)
| Requested (aborted : option nat) (signal : nat) (target : jsurl).

(** [buildURL(query)] *)
Definition buildURL (ac : AutocompleteCache) (query : jsstring) : jsurl :=
  {| base := base (url ac);
     searchParams := params_set (queryParam ac) query (searchParams (url ac)) |}.

(** [performFetch(query)], up to the call of the platform's [fetch]. *)
Definition performFetch (ac : AutocompleteCache) (query : jsstring)
    : AutocompleteCache * fetched :=
  let signal := next_controller ac in
  let u := buildURL ac query in
  ({| url := u; queryParam := queryParam ac; cache := cache ac;
      abortController := Some signal;
      next_controller := S signal |},
   Requested (abortController ac) signal u).

(** The last callback of [performFetch]: the parsed body is stored. *)
Definition performFetch_then `{CaseMapping} (ac : AutocompleteCache)
    (query : jsstring) (data : payload) : AutocompleteCache :=
  {| url := url ac; queryParam := queryParam ac;
     cache := addToCache (cache ac) query data;
     abortController := None;
     next_controller := next_controller ac |}.

(** [fetch(query)] *)
Definition fetch `{CaseMapping} (ac : AutocompleteCache) (query : jsstring)
    : AutocompleteCache * fetched :=
  let cached := findInCache (cache ac) query in
  if ToBoolean cached then (ac, Resolved cached)
  else performFetch ac query.

(* ================================================================= *)
(** ** Fetch cycles on the event loop *)

(** What a rejected promise carries. *)
Inductive js_error :=
| HttpError (status : N)   (* the Error thrown for a response that is not ok *)
| AbortError               (* the request was aborted *)
| NetworkError             (* the platform's fetch rejected *)
| BodyError                (* response.json() rejected *)
| TypeError.               (* a property read on undefined *)

(** Where a call of [fetchResults] is suspended: on the promise of the
    platform's [fetch], or on the promise of [response.json()]. *)
Inductive phase := AwaitFetch | AwaitJson.

(** A suspended call of [fetchResults]: its query, the controller whose
    signal its request carries, and the promise it waits on. *)
Record task := {
  t_query : jsstring;
  t_signal : nat;
  t_phase : phase
}.

(** What the event loop delivers to the controller. *)
Inductive io :=
| Query (q : jsstring)            (* the input handler calls fetchResults(q) *)
| Response (signal : nat) (status : N)  (* the response's headers arrived *)
| Failure (signal : nat)          (* the request failed in transport *)
| Body (signal : nat) (json : option payload).
                                  (* the body was read and parsed, or failed *)

(** [response.ok] *)
Definition response_ok (status : N) : bool :=
  (200 <=? status)%N && (status <=? 299)%N.

Definition awaits (signal : nat) (ph : phase) (t : task) : bool :=
  Nat.eqb (t_signal t) signal
  && match t_phase t, ph with
     | AwaitFetch, AwaitFetch | AwaitJson, AwaitJson => true
     | _, _ => false
     end.

Definition carries (signal : option nat) (t : task) : bool :=
  match signal with
  | Some s => Nat.eqb (t_signal t) s
  | None => false
  end.

(** The suspended calls but the one whose request carries [signal]. *)
Definition without (signal : nat) (l : list task) : list task :=
  filter (fun t => negb (Nat.eqb (t_signal t) signal)) l.

(** The call whose request carries [signal] now waits on the body. *)
Definition await_json (signal : nat) (t : task) : task :=
  if Nat.eqb (t_signal t) signal
  then {| t_query := t_query t; t_signal := t_signal t; t_phase := AwaitJson |}
  else t.

(** The [catch] block of [fetchResults]. *)
Definition catch_block (w : widget) : widget :=
  dispatchEvent loadend (dispatchEvent error w).

(** The end of the [try] block of [fetchResults], once the response is
    there. *)
Definition try_tail `{CaseMapping} (rev : revision) (cfg : config)
    (json_response : payload) (query : jsstring) (w : widget) : widget :=
  dispatchEvent loadend
    (dispatchEvent load (replaceResults rev cfg json_response query w)).

(** The controller of [src/autocomplete.js]. *)
Module Fetching.

Record runtime := {
  this : widget;
  abortController : option nat;      (* this.abortController *)
  suspended : list task;             (* calls waiting on their request *)
  next_controller : nat;
  settled : list (jsstring * option js_error)
    (* the promises of fetchResults settled so far, oldest first: the
       query, and the error when rejected *)
}.

(** A suspended call resumes in the [catch] block and rethrows. *)
Definition reject (err : js_error) (t : task) (rt : runtime) : runtime :=
  {| this := catch_block (this rt);
     abortController := abortController rt;
     suspended := suspended rt;
     next_controller := next_controller rt;
     settled := settled rt ++ [(t_query t, Some err)] |}.

(** The call is over: it leaves the suspended ones. *)
Definition drop (t : task) (rt : runtime) : runtime :=
  {| this := this rt; abortController := abortController rt;
     suspended := without (t_signal t) (suspended rt);
     next_controller := next_controller rt; settled := settled rt |}.

(** [fetchResults(query)] up to its first suspension: [loadstart], then
    [doFetch] aborts the controller held, creates one and issues the
    request.  The call whose request was aborted then resumes in its
    [catch] block. *)
Definition fetchResults (cfg : config) (query : jsstring) (rt : runtime)
    : runtime :=
  if negb (hasUrlValue cfg) then
    {| this := this rt; abortController := abortController rt;
       suspended := suspended rt; next_controller := next_controller rt;
       settled := settled rt ++ [(query, None)] |}
  else
    let signal := next_controller rt in
    let aborted := filter (carries (abortController rt)) (suspended rt) in
    let kept :=
      filter (fun t => negb (carries (abortController rt) t)) (suspended rt) in
    fold_left (fun rt t => reject AbortError t rt) aborted
      {| this := dispatchEvent loadstart (this rt);
         abortController := Some signal;
         suspended :=
           kept ++ [{| t_query := query; t_signal := signal;
                       t_phase := AwaitFetch |}];
         next_controller := S signal;
         settled := settled rt |}.

(** [doFetch] after [await fetch(...)]: the controller is dropped, then
    the status is tested and the body requested. *)
Definition doFetch_resume (t : task) (status : N) (rt : runtime)
    : runtime :=
  let rt :=
    {| this := this rt; abortController := None;
       suspended := suspended rt;
       next_controller := next_controller rt; settled := settled rt |} in
  if negb (response_ok status) then
    reject (HttpError status) t (drop t rt)
  else
    {| this := this rt; abortController := abortController rt;
       suspended := map (await_json (t_signal t)) (suspended rt);
       next_controller := next_controller rt; settled := settled rt |}.

(** One turn of the event loop. *)
Definition step `{CaseMapping} (cfg : config) (e : io) (rt : runtime)
    : runtime :=
  match e with
  | Query q => fetchResults cfg q rt
  | Response signal status =>
      match find (awaits signal AwaitFetch) (suspended rt) with
      | Some t => doFetch_resume t status rt
      | None => rt
      end
  | Failure signal =>
      match find (awaits signal AwaitFetch) (suspended rt) with
      | Some t => reject NetworkError t (drop t rt)
      | None => rt
      end
  | Body signal json =>
      match find (awaits signal AwaitJson) (suspended rt) with
      | Some t =>
          match json with
          | Some json_response =>
              let rt := drop t rt in
              {| this :=
                   try_tail Plain cfg json_response (t_query t) (this rt);
                 abortController := abortController rt;
                 suspended := suspended rt;
                 next_controller := next_controller rt;
                 settled := settled rt ++ [(t_query t, None)] |}
          | None => reject BodyError t (drop t rt)
          end
      | None => rt
      end
  end.

Definition run `{CaseMapping} (cfg : config) (l : list io) (rt : runtime)
    : runtime :=
  fold_left (fun rt e => step cfg e rt) l rt.

End Fetching.

(** The controller of the file with [AutocompleteCache]. *)
Module Cached.

Record runtime := {
  this : widget;
  autocomplete_cache : AutocompleteCache;
  suspended : list task;
  settled : list (jsstring * option js_error)
}.

Definition reject (err : js_error) (t : task) (rt : runtime) : runtime :=
  {| this := catch_block (this rt);
     autocomplete_cache := autocomplete_cache rt;
     suspended := suspended rt;
     settled := settled rt ++ [(t_query t, Some err)] |}.

Definition drop (t : task) (rt : runtime) : runtime :=
  {| this := this rt; autocomplete_cache := autocomplete_cache rt;
     suspended := without (t_signal t) (suspended rt);
     settled := settled rt |}.

(** [fetchResults(query)] up to its first suspension.  A cached value
    resolves the awaited promise at once, and the call runs to its end:
    [replaceResults] on a payload, a [TypeError] in [getUniqueItemList]
    on anything else.  Otherwise the call is suspended on the request
    [performFetch] issued, and the call whose request was aborted resumes
    in its [catch] block. *)
Definition fetchResults `{CaseMapping} (cfg : config) (query : jsstring)
    (rt : runtime) : runtime :=
  if negb (hasUrlValue cfg) then
    {| this := this rt; autocomplete_cache := autocomplete_cache rt;
       suspended := suspended rt;
       settled := settled rt ++ [(query, None)] |}
  else
    let w := dispatchEvent loadstart (this rt) in
    let (ac, f) := fetch (autocomplete_cache rt) query in
    match f with
    | Resolved (VObject (OPayload json_response)) =>
        {| this := try_tail Caching cfg json_response query w;
           autocomplete_cache := ac;
           suspended := suspended rt;
           settled := settled rt ++ [(query, None)] |}
    | Resolved _ =>
        {| this := catch_block w;
           autocomplete_cache := ac;
           suspended := suspended rt;
           settled := settled rt ++ [(query, Some TypeError)] |}
    | Requested aborted signal _ =>
        fold_left (fun rt t => reject AbortError t rt)
          (filter (carries aborted) (suspended rt))
          {| this := w;
             autocomplete_cache := ac;
             suspended :=
               filter (fun t => negb (carries aborted t)) (suspended rt)
               ++ [{| t_query := query; t_signal := signal;
                      t_phase := AwaitFetch |}];
             settled := settled rt |}
    end.

(** One turn of the event loop. *)
Definition step `{CaseMapping} (cfg : config) (e : io) (rt : runtime)
    : runtime :=
  match e with
  | Query q => fetchResults cfg q rt
  | Response signal status =>
      match find (awaits signal AwaitFetch) (suspended rt) with
      | Some t =>
          if response_ok status then
            {| this := this rt; autocomplete_cache := autocomplete_cache rt;
               suspended := map (await_json signal) (suspended rt);
               settled := settled rt |}
          else reject (HttpError status) t (drop t rt)
      | None => rt
      end
  | Failure signal =>
      match find (awaits signal AwaitFetch) (suspended rt) with
      | Some t => reject NetworkError t (drop t rt)
      | None => rt
      end
  | Body signal json =>
      match find (awaits signal AwaitJson) (suspended rt) with
      | Some t =>
          match json with
          | Some data =>
              let rt := drop t rt in
              {| this := try_tail Caching cfg data (t_query t) (this rt);
                 autocomplete_cache :=
                   performFetch_then (autocomplete_cache rt) (t_query t) data;
                 suspended := suspended rt;
                 settled := settled rt ++ [(t_query t, None)] |}
          | None => reject BodyError t (drop t rt)
          end
      | None => rt
      end
  end.

Definition run `{CaseMapping} (cfg : config) (l : list io) (rt : runtime)
    : runtime :=
  fold_left (fun rt e => step cfg e rt) l rt.

End Cached.

(* ================================================================= *)
(** ** Vocabulary of the properties *)

(** [pat] occurs in [s] at offset [p], and at no smaller offset. *)
Definition first_occurrence (s pat : jsstring) (p : nat) : Prop :=
  startsWith (skipn p s) pat = true /\ (p <= List.length s)%nat /\
  forall p', (p' < p)%nat -> startsWith (skipn p' s) pat = false.

(** The pattern occurs somewhere in the string. *)
Definition occurs_in (pat s : jsstring) : Prop :=
  exists before after, s = before ++ pat ++ after.

(** [tail] is what remains of [l] once the members of [exact] are left
    out, in the order of [l]. *)
Inductive keeps_outside (exact : list jsstring)
    : list jsstring -> list jsstring -> Prop :=
| keeps_nil : keeps_outside exact [] []
| keeps_skip x l tail :
    In x exact -> keeps_outside exact l tail ->
    keeps_outside exact (x :: l) tail
| keeps_take x l tail :
    ~ In x exact -> keeps_outside exact l tail ->
    keeps_outside exact (x :: l) (x :: tail).

(** The controller before anything is rendered: an empty, hidden
    container. *)
Definition closed_empty : widget :=
  {| children := []; hidden := true; results_id := None;
     style_height := None; item_count := 0; uniqOptionId := 0;
     activedescendant := None; expanded := None; dispatched := [];
     next_node := 0 |}.

(** A controller with a URL and no selected class configured. *)
Definition default_config : config :=
  {| hasUrlValue := true; selectedClasses := None; offsetHeight := 24 |}.

(** The item [İstanbul]: U+0130, then [stanbul]. *)
Definition Istanbul : jsstring := 304%N :: str "stanbul".

(** The test of the loop of [findInCache] on the key [k]. *)
Definition reusable (c : cache_map) (query k : jsstring) : bool :=
  match own_get (own c) k with
  | Some p => negb (partial p) && startsWith query k
  | None => false
  end.

(** A cache object as [new AutocompleteCache("/search", "q")] makes it. *)
Definition fresh_cache : AutocompleteCache :=
  {| url := {| base := str "/search"; searchParams := [] |};
     queryParam := str "q"; cache := empty_cache;
     abortController := None; next_controller := 0 |}.

(** Two answers of the endpoint, both complete. *)
Definition answer_jo : payload :=
  {| items := [str "Jo"; str "Joan"; str "John"]; exact_items := [str "Jo"];
     field := str "name"; raw_term := str "jo"; term := str "jo";
     partial := false |}.

Definition answer_j : payload :=
  {| items := [str "Jim"; str "Jo"; str "Joan"; str "John"];
     exact_items := []; field := str "name"; raw_term := str "j";
     term := str "j"; partial := false |}.

(** The cache object after [fetch("jo")] and then [fetch("j")], each
    answered by the endpoint. *)
Definition cache_jo_j : AutocompleteCache :=
  let ac := fst (fetch fresh_cache (str "jo")) in
  let ac := performFetch_then ac (str "jo") answer_jo in
  let ac := fst (fetch ac (str "j")) in
  performFetch_then ac (str "j") answer_j.

(** The element carries the [aria-selected] attribute. *)
Definition marked (e : element) : bool := has_attr (ariaSelected e).

(** The same element, up to its child nodes: same identity, same tag, same
    attributes and classes. *)
Definition same_element (e e' : element) : Prop :=
  with_childNodes [] e = with_childNodes [] e'.

(** A selector that does not look at child nodes. *)
Definition attribute_test (P : element -> bool) : Prop :=
  forall e c, P (with_childNodes c e) = P e.

(** Identities in the container are distinct, and all of them have been
    handed out already. *)
Record well_formed (w : widget) : Prop := {
  ids_distinct : NoDup (map nid (children w));
  ids_allocated : Forall (fun e => nid e < next_node w) (children w)
}.

(** An option created by the loop of [updateResults] since the counter of
    identities stood at [n0], for an item among [shown]. *)
Definition fresh_option (n0 n1 : nat) (shown : list jsstring) (li : element)
    : Prop :=
  exists n v c, li = new_option n v c /\ n0 <= n < n1 /\ In v shown.

(** [l'] is [l] with child nodes replaced here and there and fresh options
    put in between. *)
Inductive grown (n0 n1 : nat) (shown : list jsstring)
    : list element -> list element -> Prop :=
| grown_nil : grown n0 n1 shown [] []
| grown_old e e' l l' :
    same_element e e' -> grown n0 n1 shown l l' ->
    grown n0 n1 shown (e :: l) (e' :: l')
| grown_new li l l' :
    fresh_option n0 n1 shown li -> grown n0 n1 shown l l' ->
    grown n0 n1 shown l (li :: l').

(** The items of a list that [updateResults] renders for a query. *)
Definition rendered_items `{CaseMapping} (query : jsstring)
    (l : list jsstring) : list jsstring :=
  filter
    (fun item =>
       match highlighted (toLowerCase query) query item with
       | Some _ => true
       | None => false
       end) l.

(** The state the loop of [updateResults] starts from. *)
Definition render_start (w : widget) : render_state :=
  {| r_children := children w; last_li := None; r_item_count := 0;
     shown_items := []; r_next_node := next_node w |}.

(** What holds of the loop's variables once the items [done] have been
    gone through. *)
Record loop_inv `{CaseMapping} (w : widget) (query : jsstring)
    (done : list jsstring) (rs : render_state) : Prop := {
  loop_grown :
    grown (next_node w) (r_next_node rs) (shown_items rs)
      (children w) (r_children rs);
  loop_next : next_node w <= r_next_node rs;
  loop_shown : shown_items rs = rendered_items query done;
  loop_count : r_item_count rs = List.length (shown_items rs);
  loop_present :
    forall v, In v (shown_items rs) ->
      exists e, In e (r_children rs) /\ optionSelector e = true
                /\ autocompleteValue e = Some v
}.

Record loop_wf (rs : render_state) : Prop := {
  loop_distinct : NoDup (map nid (r_children rs));
  loop_allocated : Forall (fun e => nid e < r_next_node rs) (r_children rs)
}.

(** The test of the removal loop: the option's value is not among the
    shown items. *)
Definition stale (shown : list jsstring) (li : element) : bool :=
  match autocompleteValue li with
  | Some v => negb (includes shown v)
  | None => true
  end.

(** The loop of [updateResults] run over all the items. *)
Definition render_loop `{CaseMapping} (l : list jsstring) (query : jsstring)
    (w : widget) : render_state :=
  fold_left (render_item (options w) (toLowerCase query) query) l
    (render_start w).

(** The container once the stale options are removed, before the
    placeholder is dealt with. *)
Definition kept_children `{CaseMapping} (l : list jsstring)
    (query : jsstring) (w : widget) : list element :=
  remove_stale (shown_items (render_loop l query w)) (options w)
    (r_children (render_loop l query w)).

(** The controller between the removal loop of [updateResults] and the
    handling of the placeholder. *)
Definition kept `{CaseMapping} (l : list jsstring) (query : jsstring)
    (w : widget) : widget :=
  {| children := kept_children l query w;
     hidden := hidden w; results_id := results_id w;
     style_height := style_height w;
     item_count := r_item_count (render_loop l query w);
     uniqOptionId := uniqOptionId w;
     activedescendant := activedescendant w; expanded := expanded w;
     dispatched := dispatched w;
     next_node := r_next_node (render_loop l query w) |}.

(** The same element, but for an [id] it may have been given. *)
Definition id_variant (e e' : element) : Prop :=
  e' = e \/ exists i, elem_id e = None /\ e' = with_elem_id i e.

(** A selector that does not look at the [id]. *)
Definition id_blind (P : element -> bool) : Prop :=
  forall e i, P (with_elem_id i e) = P e.

(** An answer of the endpoint with no item at all. *)
Definition answer_nothing : payload :=
  {| items := []; exact_items := []; field := str "name";
     raw_term := str "x"; term := str "x"; partial := false |}.

(** A selector that looks neither at the child nodes nor at the [id]. *)
Definition stable (P : element -> bool) : Prop :=
  attribute_test P /\ id_blind P.

(** An element created by a render pass: an option for an item, or the
    placeholder; the option may have been given its [id] since. *)
Definition created (e : element) : Prop :=
  exists e1, id_variant e1 e
             /\ ((exists n v c, e1 = new_option n v c)
                 \/ exists n q, e1 = sorry_li n q).

(** An element that was there before the pass: an element of [l] with the
    same identity, which every stable selector treats alike. *)
Definition survivor (l : list element) (e : element) : Prop :=
  exists e0, In e0 l /\ nid e = nid e0
             /\ forall P, stable P -> P e = P e0.

(** What [select] does to the previously selected option, and to its
    target. *)
Definition deselected (cfg : config) (e : element) : element :=
  with_classList
    (classList_remove (classList e) (selectedClassesOrDefault cfg))
    (with_ariaSelected None e).

Definition selected (cfg : config) (e : element) : element :=
  with_classList
    (classList_add (classList e) (selectedClassesOrDefault cfg))
    (with_ariaSelected (Some (str "true")) e).

(** The children once [select] has dealt with the previous selection. *)
Definition after_deselection (cfg : config) (w : widget) : list element :=
  match selectedOption w with
  | Some previouslySelected =>
      update_node (nid previouslySelected) (deselected cfg) (children w)
  | None => children w
  end.

(** The selection is in order: whatever carries [aria-selected] carries it
    with the value [true], and at most one element does. *)
Record one_selection (w : widget) : Prop := {
  selection_wf : well_formed w;
  selection_true :
    forall e, In e (children w) -> marked e = true -> activeSelector e = true;
  selection_once : List.length (filter marked (children w)) <= 1
}.

(** What happens to the results between two fetches: an arrow key, the
    escape key, a render pass. *)
Inductive action :=
| ArrowDown
| ArrowUp
| Escape
| Render (json_response : payload) (query : jsstring).

Definition perform `{CaseMapping} (rev : revision) (cfg : config)
    (a : action) (w : widget) : widget :=
  match a with
  | ArrowDown => onArrowDownKeydown cfg w
  | ArrowUp => onArrowUpKeydown cfg w
  | Escape => onEscapeKeydown w
  | Render json_response query => replaceResults rev cfg json_response query w
  end.

Definition perform_all `{CaseMapping} (rev : revision) (cfg : config)
    (l : list action) (w : widget) : widget :=
  fold_left (fun w a => perform rev cfg a w) l w.

(** The selection is in order and lies on an enabled option. *)
Record selection_enabled (w : widget) : Prop := {
  enabled_selection : one_selection w;
  enabled_option :
    forall e, In e (children w) -> marked e = true -> optionSelector e = true
}.

(** A rendered option list: the selection is in order and on an enabled
    option, [item_count] is positive when there are options, and no option
    has the class [disabled]. *)
Record rendered_list (w : widget) : Prop := {
  rendered_selection : selection_enabled w;
  rendered_count : options w <> [] -> 0 < item_count w;
  rendered_classes :
    forall e, In e (options w) ->
      contains (classList e) (str "disabled") = false
}.

(** The container shows the items of [l] that render for [query]: every
    such item has its option, every option carries such an item, and no
    placeholder is there. *)
Record shows `{CaseMapping} (rev : revision) (l : list jsstring)
    (query : jsstring) (w : widget) : Prop := {
  shows_items :
    forall v, In v (rendered_items query l) ->
      exists e, In e (options w) /\ autocompleteValue e = Some v;
  shows_options :
    forall e, In e (options w) ->
      exists v, autocompleteValue e = Some v /\ In v (rendered_items query l);
  shows_no_placeholder : filter (placeholderSelector rev) (children w) = [];
  shows_something : rendered_items query l <> []
}.

(** The controller of [src/autocomplete.js] with nothing in flight. *)
Definition fetching_idle : Fetching.runtime :=
  {| Fetching.this := closed_empty; Fetching.abortController := None;
     Fetching.suspended := []; Fetching.next_controller := 0;
     Fetching.settled := [] |}.

(** The caching controller with nothing in flight and an empty cache. *)
Definition cached_idle : Cached.runtime :=
  {| Cached.this := closed_empty; Cached.autocomplete_cache := fresh_cache;
     Cached.suspended := []; Cached.settled := [] |}.

(** Answers of the endpoint to [jo] and to [joh]; the first one is
    partial, so that longer queries are not served from it. *)
Definition partial_answer_jo : payload :=
  {| items := [str "Joan"; str "John"]; exact_items := [];
     field := str "name"; raw_term := str "jo"; term := str "jo";
     partial := true |}.

Definition answer_joh : payload :=
  {| items := [str "John"]; exact_items := [];
     field := str "name"; raw_term := str "joh"; term := str "joh";
     partial := false |}.

(* ================================================================= *)
(** ** More of the controller *)

(** [node.textContent] of a child node, and of an element. *)
Definition node_text (n : node) : jsstring :=
  match n with
  | TextNode data => data
  | EmNode data => data
  end.

Definition textContent (e : element) : jsstring :=
  flat_map node_text (childNodes e).

(** The loop of [updateResults] on a container without options: the
    children are the fresh options [news], one per shown item and in their
    order, followed by the children [old] of before. *)
Record fresh_loop `{CaseMapping} (n0 : nat) (query : jsstring)
    (old news : list element) (rs : render_state) : Prop := {
  fresh_children : r_children rs = news ++ old;
  fresh_values : map autocompleteValue news = map Some (shown_items rs);
  fresh_ids : map nid news = seq n0 (List.length (shown_items rs));
  fresh_next : r_next_node rs = n0 + List.length (shown_items rs);
  fresh_count : r_item_count rs = List.length (shown_items rs);
  fresh_last :
    last_li rs = match shown_items rs with
                 | [] => None
                 | _ :: _ => Some (n0 + List.length (shown_items rs) - 1)
                 end;
  fresh_options :
    Forall
      (fun e =>
         exists v c, e = new_option (nid e) v c
                     /\ highlighted (toLowerCase query) query v = Some c)
      news
}.

(** The [id] that [identifyOptions] builds from the counter value [k]. *)
Definition option_id (prefix : jsstring) (k : nat) : jsstring :=
  prefix ++ str "-option-" ++ decimal k.

(** The prefix [identifyOptions] uses. *)
Definition id_prefix (w : widget) : jsstring :=
  match results_id w with
  | Some (c :: i) => c :: i
  | _ => str "stimulus-autocomplete"
  end.

(** What [identifyOptions] selects: an enabled option without [id]. *)
Definition unidentified (e : element) : bool :=
  optionSelector e && negb (has_attr (elem_id e)).

(** The [id] attributes of the elements of [l'] that stand where [l] has
    an unidentified option. *)
Definition given_ids (l l' : list element) : list (option jsstring) :=
  map (fun p => elem_id (snd p))
    (filter (fun p => unidentified (fst p)) (combine l l')).

(** The call waits for the headers of its response. *)
Definition awaits_headers (t : task) : bool :=
  match t_phase t with AwaitFetch => true | AwaitJson => false end.

Definition is_event (ev ev' : event) : bool :=
  match ev, ev' with
  | loadstart, loadstart | load, load | error, error | loadend, loadend
  | toggle_open, toggle_open | toggle_close, toggle_close => true
  | _, _ => false
  end.

(** How often the event was dispatched. *)
Definition occurrences (ev : event) (l : list event) : nat :=
  List.length (filter (is_event ev) l).

(** The promise was rejected. *)
Definition rejected (s : jsstring * option js_error) : bool :=
  match snd s with Some _ => true | None => false end.

(** The suspended calls of [src/autocomplete.js] and the controller held:
    the requests have signals of their own, all of controllers created
    before, and the controller held is the one of a call exactly when the
    call waits for the headers of its response. *)
Definition requests_tracked (rt : Fetching.runtime) : Prop :=
  NoDup (map t_signal (Fetching.suspended rt))
  /\ (forall t, In t (Fetching.suspended rt) ->
        t_signal t < Fetching.next_controller rt)
  /\ (forall t, In t (Fetching.suspended rt) ->
        if awaits_headers t
        then Fetching.abortController rt = Some (t_signal t)
        else Fetching.abortController rt <> Some (t_signal t)).

(** The events dispatched so far match the calls: every [loadstart] has
    its [loadend] or its suspended call, every [loadend] follows a [load]
    or an [error], and every [error] is a rejected promise. *)
Definition events_balanced (d : list event) (calls : nat)
    (promises : list (jsstring * option js_error)) : Prop :=
  occurrences loadstart d = occurrences loadend d + calls
  /\ occurrences loadend d = occurrences load d + occurrences error d
  /\ occurrences error d = List.length (filter rejected promises).

(** In the caching file: the one request outstanding is on the controller
    the cache object holds. *)
Definition request_tracked (rt : Cached.runtime) : Prop :=
  List.length (Cached.suspended rt) <= 1
  /\ forall t, In t (Cached.suspended rt) ->
       abortController (Cached.autocomplete_cache rt) = Some (t_signal t).

(** ** The input, the keyboard and the mouse *)

(** The handlers of the file with [AutocompleteCache] that read the input
    and answer keys and the mouse. *)

(** The code units [String.prototype.trim] strips: [WhiteSpace] and
    [LineTerminator]. *)
Definition is_white_space (c : N) : bool :=
  existsb (N.eqb c)
    [9; 10; 11; 12; 13; 32; 160; 5760; 8232; 8233; 8239; 8287; 12288; 65279]%N
  || ((8192 <=? c) && (c <=? 8202))%N.

Fixpoint trimStart (s : jsstring) : jsstring :=
  match s with
  | c :: s' => if is_white_space c then trimStart s' else s
  | [] => []
  end.

Definition trimEnd (s : jsstring) : jsstring := rev (trimStart (rev s)).

Definition trim (s : jsstring) : jsstring := trimEnd (trimStart s).

(** The values of the controller the handlers read, next to those of
    [config].  [minLengthValue] is a Number: an integer, or [None] for
    [NaN]. *)
Record settings := {
  minLengthValue : option Z;
  hasSubmitOnEnterValue : bool
}.

(** The controller with its input: the runtime of before,
    [inputTarget.value], [this.mouseDown], the [mouseup] listeners
    registered on the results with [once], and the [autocomplete.change]
    events dispatched, each with [detail.textValue] and the identity of
    [detail.selected].  An [autocomplete.change] is dispatched after the
    events of the [hideAndRemoveOptions] before it. *)
Record page := {
  controller : Cached.runtime;
  input_value : jsstring;
  mouseDown : bool;
  mouseup_listeners : nat;
  changes : list (jsstring * nat)
}.

Definition results (p : page) : widget := Cached.this (controller p).

Definition with_controller (rt : Cached.runtime) (p : page) : page :=
  {| controller := rt; input_value := input_value p;
     mouseDown := mouseDown p; mouseup_listeners := mouseup_listeners p;
     changes := changes p |}.

(** A method of the controller that works on the results only. *)
Definition on_results (f : widget -> widget) (p : page) : page :=
  with_controller
    {| Cached.this := f (results p);
       Cached.autocomplete_cache := Cached.autocomplete_cache (controller p);
       Cached.suspended := Cached.suspended (controller p);
       Cached.settled := Cached.settled (controller p) |} p.

(** An attribute as the property reflecting it reads. *)
Definition reflected (a : option jsstring) : jsvalue unit :=
  match a with
  | Some s => VString s
  | None => VNull
  end.

(** [selected.dataset.autocompleteValue || selected.textContent.trim()] *)
Definition textValue (selected : element) : jsstring :=
  if ToBoolean (reflected (autocompleteValue selected))
  then match autocompleteValue selected with Some v => v | None => [] end
  else trim (textContent selected).

(** [commit(selected)]; [inputTarget.focus()] changes nothing here. *)
Definition commit (selected : element) (p : page) : page :=
  if ToBoolean (reflected (ariaDisabled selected)) then p
  else
    let p := on_results hideAndRemoveOptions p in
    {| controller := controller p;
       input_value := textValue selected;
       mouseDown := mouseDown p; mouseup_listeners := mouseup_listeners p;
       changes := changes p ++ [(textValue selected, nid selected)] |}.

(** [event.key], as far as [onKeydown] finds a handler for it. *)
Inductive key :=
| KeyEscape | KeyArrowDown | KeyArrowUp | KeyTab | KeyEnter | KeyOther.

(** [onTabKeydown] *)
Definition onTabKeydown (p : page) : page :=
  match selectedOption (results p) with
  | Some selected => commit selected p
  | None => p
  end.

(** [onEnterKeydown]; the boolean tells whether [event.preventDefault()]
    was called. *)
Definition onEnterKeydown (st : settings) (p : page) : page * bool :=
  match selectedOption (results p) with
  | Some selected =>
      if resultsShown (results p)
      then (commit selected p, negb (hasSubmitOnEnterValue st))
      else (p, false)
  | None => (p, false)
  end.

(** [onKeydown]: the handler of the key, with what it did to the event's
    default action. *)
Definition onKeydown (st : settings) (cfg : config) (k : key) (p : page)
    : page * bool :=
  match k with
  | KeyEscape =>
      (on_results onEscapeKeydown p, resultsShown (results p))
  | KeyArrowDown => (on_results (onArrowDownKeydown cfg) p, true)
  | KeyArrowUp => (on_results (onArrowUpKeydown cfg) p, true)
  | KeyTab => (onTabKeydown p, false)
  | KeyEnter => onEnterKeydown st p
  | KeyOther => (p, false)
  end.

(** [onInputBlur] *)
Definition onInputBlur (p : page) : page :=
  if mouseDown p then p else on_results close p.

(** [onResultsMouseDown], and the listener it registers. *)
Definition onResultsMouseDown (p : page) : page :=
  {| controller := controller p; input_value := input_value p;
     mouseDown := true; mouseup_listeners := S (mouseup_listeners p);
     changes := changes p |}.

Definition mouseup (p : page) : page :=
  match mouseup_listeners p with
  | 0 => p
  | S _ =>
      {| controller := controller p; input_value := input_value p;
         mouseDown := false; mouseup_listeners := 0;
         changes := changes p |}
  end.

(** [event.target.closest(optionSelector)], the target being a child of
    the results or inside one, or else ([None]) the results themselves;
    nothing around the results is an option. *)
Definition closest_option (target : option nat) (w : widget)
    : option element :=
  match target with
  | Some n =>
      match lookup_node n (children w) with
      | Some e => if optionSelector e then Some e else None
      | None => None
      end
  | None => None
  end.

(** [onResultsClick] *)
Definition onResultsClick (target : option nat) (p : page) : page :=
  match closest_option target (results p) with
  | Some selected => commit selected p
  | None => p
  end.

(** [query.length >= this.minLengthValue] *)
Definition long_enough (query : jsstring) (min : option Z) : bool :=
  match min with
  | Some m => (m <=? Z.of_nat (List.length query))%Z
  | None => false
  end.

(** [onInputChange], as it runs once the delay is over. *)
Definition onInputChange `{CaseMapping} (st : settings) (cfg : config)
    (p : page) : page :=
  let query := trim (input_value p) in
  if ToBoolean (@VString unit query) && long_enough query (minLengthValue st)
  then with_controller (Cached.fetchResults cfg query (controller p)) p
  else on_results hideAndRemoveOptions p.

(** What reaches the controller: a key, the input losing focus, the mouse
    on the results, the input's text changed to [value] and the delay
    over, or the network. *)
Inductive ui :=
| Keydown (k : key)
| Blur
| MouseDown
| MouseUp
| Click (target : option nat)
| Typed (value : jsstring)
| Network (e : io).

Definition handle `{CaseMapping} (st : settings) (cfg : config) (u : ui)
    (p : page) : page :=
  match u with
  | Keydown k => fst (onKeydown st cfg k p)
  | Blur => onInputBlur p
  | MouseDown => onResultsMouseDown p
  | MouseUp => mouseup p
  | Click target => onResultsClick target p
  | Typed value =>
      onInputChange st cfg
        {| controller := controller p; input_value := value;
           mouseDown := mouseDown p;
           mouseup_listeners := mouseup_listeners p;
           changes := changes p |}
  | Network e => with_controller (Cached.step cfg e (controller p)) p
  end.

Definition handle_all `{CaseMapping} (st : settings) (cfg : config)
    (l : list ui) (p : page) : page :=
  fold_left (fun p u => handle st cfg u p) l p.

(** The controller as [connect] leaves it, over an empty cache. *)
Definition connected : page :=
  {| controller := cached_idle; input_value := []; mouseDown := false;
     mouseup_listeners := 0; changes := [] |}.

Definition default_settings : settings :=
  {| minLengthValue := Some 0%Z; hasSubmitOnEnterValue := false |}.

Definition is_toggle (ev : event) : bool :=
  match ev with
  | toggle_open | toggle_close => true
  | _ => false
  end.

(** The [hidden] flag after the events [d], when every [toggle] among them
    reports a change of it. *)
Fixpoint visibility (h : bool) (d : list event) : option bool :=
  match d with
  | [] => Some h
  | toggle_open :: d' => if h then visibility false d' else None
  | toggle_close :: d' => if h then None else visibility true d'
  | _ :: d' => visibility h d'
  end.

(** From [w] to [w'], the [toggle] events tell what became of the list, and
    [aria-expanded] follows them. *)
Definition toggles_report (w w' : widget) : Prop :=
  exists d,
    dispatched w' = dispatched w ++ d
    /\ visibility (hidden w) d = Some (hidden w')
    /\ expanded w'
       = if existsb is_toggle d then Some (resultsShown w') else expanded w.

(** What the user does on the page without changing the input's text and
    without the network coming in. *)
Definition local (u : ui) : bool :=
  match u with
  | Typed _ | Network _ => false
  | _ => true
  end.

(** The event is none of the model's direct calls of [fetchResults]:
    queries come from [onInputChange]. *)
Definition from_the_page (u : ui) : Prop :=
  match u with
  | Network (Query _) => False
  | _ => True
  end.

(** The queries [fetchResults] was called with, as far as the runtime
    remembers them: those of the suspended calls, then those of the
    settled promises. *)
Definition queries (rt : Cached.runtime) : list jsstring :=
  map t_query (Cached.suspended rt) ++ map fst (Cached.settled rt).

(** A query as [onInputChange] lets it through: not empty, no white space
    at either end, long enough. *)
Definition acceptable (st : settings) (query : jsstring) : Prop :=
  query <> []
  /\ (forall c, hd_error query = Some c -> is_white_space c = false)
  /\ (forall c, hd_error (rev query) = Some c -> is_white_space c = false)
  /\ long_enough query (minLengthValue st) = true.

(** ** [debounce] *)












(* ================================================================= *)
(** * Properties *)

(** ** Strings *)

Lemma jseq_eq (a b : jsstring) : jseq a b = true <-> a = b.
Proof.
  revert b; induction a as [|c a IH]; intros [|d b]; simpl;
    try (split; [discriminate | congruence]); try tauto.
  rewrite andb_true_iff, N.eqb_eq, IH.
  split; [intros [-> ->]; reflexivity | intros E; inversion E; auto].
Qed.

Lemma jseq_refl (a : jsstring) : jseq a a = true.
Proof. apply jseq_eq; reflexivity. Qed.

Lemma includes_In (l : list jsstring) (x : jsstring) :
  includes l x = true <-> In x l.
Proof.
  unfold includes. rewrite existsb_exists. split.
  - intros (y & Hy & E). apply jseq_eq in E; subst; assumption.
  - intros Hx. exists x. split; [assumption | apply jseq_refl].
Qed.

Lemma contains_In (l : list jsstring) (x : jsstring) :
  contains l x = true <-> In x l.
Proof. exact (includes_In l x). Qed.

Lemma startsWith_prefix (s k : jsstring) :
  startsWith s k = true <-> exists rest, s = k ++ rest.
Proof.
  revert s; induction k as [|c k IH]; intros s; simpl.
  - split; [intros _; exists s; reflexivity | destruct s; reflexivity].
  - destruct s as [|d s]; simpl.
    + split; [discriminate | intros (rest & E); discriminate].
    + rewrite andb_true_iff, N.eqb_eq, IH. split.
      * intros [-> (rest & ->)]. exists rest; reflexivity.
      * intros (rest & E). inversion E; subst. split; eauto.
Qed.

Lemma startsWith_length (s k : jsstring) :
  startsWith s k = true -> (List.length k <= List.length s)%nat.
Proof.
  intros Hs. apply startsWith_prefix in Hs as (rest & ->).
  rewrite length_app; lia.
Qed.

Lemma indexOf_from_found (s pat : jsstring) (i : Z) :
  (indexOf_from s pat i <> -1)%Z -> (0 <= i)%Z ->
  exists p, indexOf_from s pat i = (i + Z.of_nat p)%Z /\ first_occurrence s pat p.
Proof.
  revert i; induction s as [|c s IH]; intros i Hne Hi;
    cbn [indexOf_from] in *.
  - destruct (startsWith [] pat) eqn:E; [|exfalso; apply Hne; reflexivity].
    exists 0%nat. split; [lia|]. repeat split; simpl; auto; intros; lia.
  - destruct (startsWith (c :: s) pat) eqn:E.
    + exists 0%nat. split; [lia|]. repeat split; simpl; auto; intros; lia.
    + destruct (IH (i + 1)%Z Hne ltac:(lia)) as (p & Hp & Hocc & Hle & Hmin).
      exists (S p). split; [lia|]. repeat split; simpl; auto; try lia.
      intros [|p'] Hlt; simpl; [assumption | apply Hmin; lia].
Qed.

Lemma indexOf_from_absent (s pat : jsstring) (i : Z) :
  (indexOf_from s pat i = -1)%Z -> (0 <= i)%Z ->
  forall p, startsWith (skipn p s) pat = false.
Proof.
  revert i; induction s as [|c s IH]; intros i He Hi p;
    cbn [indexOf_from] in *.
  - destruct (startsWith [] pat) eqn:E; [lia|].
    destruct p; simpl; assumption.
  - destruct (startsWith (c :: s) pat) eqn:E; [lia|].
    destruct p; simpl; [assumption | eapply IH; eauto; lia].
Qed.

Lemma indexOf_from_range (s pat : jsstring) (i : Z) :
  (0 <= i)%Z ->
  (indexOf_from s pat i = -1 \/ i <= indexOf_from s pat i)%Z.
Proof.
  revert i; induction s as [|c s IH]; intros i Hi; cbn [indexOf_from].
  - destruct (startsWith [] pat); lia.
  - destruct (startsWith (c :: s) pat); [lia|].
    destruct (IH (i + 1)%Z ltac:(lia)); lia.
Qed.

(** [indexOf] answers a position exactly when the pattern occurs, and the
    position is that of the first occurrence. *)
Lemma indexOf_spec (s pat : jsstring) :
  ((indexOf s pat >=? 0)%Z = true ->
     exists p, indexOf s pat = Z.of_nat p /\ first_occurrence s pat p)
  /\ ((indexOf s pat >=? 0)%Z = false ->
     forall p, startsWith (skipn p s) pat = false).
Proof.
  unfold indexOf. split; intros H.
  - apply Z.geb_le in H.
    destruct (indexOf_from_found s pat 0) as (p & Hp & Hocc); [lia | lia |].
    exists p; split; [lia | assumption].
  - assert (indexOf_from s pat 0 < 0)%Z as Hneg.
    { destruct (indexOf_from s pat 0 >=? 0)%Z eqn:E; [discriminate|].
      rewrite Z.geb_leb in E. apply Z.leb_gt in E. lia. }
    destruct (indexOf_from_range s pat 0) as [E|E]; [lia | | lia].
    apply (indexOf_from_absent s pat 0); [assumption | lia].
Qed.

Lemma occurs_in_skipn (pat s : jsstring) :
  occurs_in pat s <-> exists p, startsWith (skipn p s) pat = true.
Proof.
  split.
  - intros (before & after & ->). exists (List.length before).
    rewrite skipn_app, skipn_all, Nat.sub_diag. simpl.
    apply startsWith_prefix. eauto.
  - intros (p & Hp). apply startsWith_prefix in Hp as (rest & E).
    exists (firstn p s), rest. rewrite <- E. symmetry; apply firstn_skipn.
Qed.

Lemma indexOf_occurs (s pat : jsstring) :
  (indexOf s pat >=? 0)%Z = true <-> occurs_in pat s.
Proof.
  rewrite occurs_in_skipn. destruct (indexOf_spec s pat) as [Hy Hn]. split.
  - intros H. destruct (Hy H) as (p & _ & Hocc & _). eauto.
  - intros (p & Hp). destruct (indexOf s pat >=? 0)%Z eqn:E; auto.
    rewrite (Hn eq_refl p) in Hp; discriminate.
Qed.

(** [slice] between two positions inside the string. *)
Lemma slice_inside (s : jsstring) (a b : nat) :
  (a <= b)%nat -> (b <= List.length s)%nat ->
  slice s (Z.of_nat a) (Z.of_nat b) = firstn (b - a) (skipn a s).
Proof.
  intros Hab Hb. unfold slice, clamp_index.
  destruct (Z.of_nat a <? 0)%Z eqn:Ea; [apply Z.ltb_lt in Ea; lia|].
  destruct (Z.of_nat b <? 0)%Z eqn:Eb; [apply Z.ltb_lt in Eb; lia|].
  rewrite !Z.min_l by lia. rewrite <- Nat2Z.inj_sub, !Nat2Z.id by lia.
  reflexivity.
Qed.


(** [slice] between two non-negative positions, in terms of the list. *)
Lemma slice_nonneg (s : jsstring) (x y : Z) :
  (0 <= x)%Z -> (0 <= y)%Z ->
  slice s x y =
  firstn (Nat.min (Z.to_nat y) (List.length s)
          - Nat.min (Z.to_nat x) (List.length s))
    (skipn (Nat.min (Z.to_nat x) (List.length s)) s).
Proof.
  intros Hx Hy. unfold slice, clamp_index.
  destruct (x <? 0)%Z eqn:Ex; [apply Z.ltb_lt in Ex; lia|].
  destruct (y <? 0)%Z eqn:Ey; [apply Z.ltb_lt in Ey; lia|].
  f_equal; [|f_equal]; lia.
Qed.

(** The three slices taken by [updateResults] always make up the item. *)
Lemma slices_partition (s : jsstring) (x y : Z) :
  (0 <= x)%Z -> (x <= y)%Z ->
  slice s 0 x ++ slice s x y ++ slice_from s y = s.
Proof.
  intros Hx Hy. unfold slice_from.
  rewrite !slice_nonneg by lia.
  set (a := Nat.min (Z.to_nat x) (List.length s)).
  set (b := Nat.min (Z.to_nat y) (List.length s)).
  assert (a <= b)%nat by (unfold a, b; lia).
  assert (b <= List.length s)%nat by (unfold b; lia).
  replace (Nat.min (Z.to_nat 0) (List.length s)) with 0%nat by lia.
  replace (Nat.min (Z.to_nat (Z.of_nat (List.length s))) (List.length s))
    with (List.length s) by lia.
  rewrite Nat.sub_0_r. cbn [skipn].
  rewrite (firstn_all2 (skipn b s)) by (rewrite length_skipn; lia).
  rewrite <- (firstn_skipn a s) at 4.
  f_equal.
  rewrite <- (firstn_skipn (b - a) (skipn a s)) at 2.
  f_equal. rewrite skipn_skipn. f_equal. lia.
Qed.

Section Highlighting.
Context `{CaseMapping}.

(** An item is rendered exactly when the lower-cased query occurs in the
    lower-cased item. *)
Lemma highlighted_iff_occurs (query item : jsstring) :
  (exists content, highlighted (toLowerCase query) query item = Some content)
  <-> occurs_in (toLowerCase query) (toLowerCase item).
Proof.
  unfold highlighted. rewrite <- indexOf_occurs.
  destruct (indexOf (toLowerCase item) (toLowerCase query) >=? 0)%Z;
    split; eauto; try discriminate.
  intros (c & Hc); discriminate.
Qed.

(** What is rendered is the item itself, cut in three. *)
Lemma highlighted_pieces (query item : jsstring) (content : list node) :
  highlighted (toLowerCase query) query item = Some content ->
  exists before matched after,
    content = [TextNode before; EmNode matched; TextNode after]
    /\ before ++ matched ++ after = item.
Proof.
  unfold highlighted.
  destruct (indexOf (toLowerCase item) (toLowerCase query) >=? 0)%Z eqn:E;
    [|discriminate].
  intros [= <-]. do 3 eexists. split; [reflexivity|].
  apply Z.geb_le in E. apply slices_partition; lia.
Qed.

(** When lower-casing changes the length of neither string, the
    emphasised piece is [query.length] units long and starts where the
    lower-cased query first occurs in the lower-cased item. *)
Lemma highlighted_span (query item : jsstring) (content : list node) :
  List.length (toLowerCase item) = List.length item ->
  List.length (toLowerCase query) = List.length query ->
  highlighted (toLowerCase query) query item = Some content ->
  exists p,
    first_occurrence (toLowerCase item) (toLowerCase query) p
    /\ content =
       [TextNode (firstn p item);
        EmNode (firstn (List.length query) (skipn p item));
        TextNode (skipn (p + List.length query) item)]
    /\ List.length (firstn (List.length query) (skipn p item))
       = List.length query.
Proof.
  intros Hi Hq. unfold highlighted.
  destruct (indexOf (toLowerCase item) (toLowerCase query) >=? 0)%Z eqn:E;
    [|discriminate].
  destruct (proj1 (indexOf_spec _ _) E) as (p & Hp & Hocc).
  rewrite Hp. intros [= <-]. exists p. split; [assumption|].
  destruct Hocc as (Hst & Hle & _).
  apply startsWith_length in Hst. rewrite length_skipn, Hq, Hi in Hst.
  rewrite Hi in Hle.
  assert (p + List.length query <= List.length item)%nat as Hin by lia.
  split.
  - unfold slice_from.
    rewrite <- Nat2Z.inj_add.
    change 0%Z with (Z.of_nat 0).
    rewrite !slice_inside by lia.
    rewrite Nat.sub_0_r. cbn [skipn].
    replace (p + List.length query - p)%nat with (List.length query) by lia.
    rewrite (firstn_all2 (skipn (p + List.length query) item))
      by (rewrite length_skipn; lia).
    reflexivity.
  - rewrite length_firstn, length_skipn. lia.
Qed.
End Highlighting.

Lemma keeps_outside_filter (exact l : list jsstring) :
  keeps_outside exact l (filter (fun item => negb (includes exact item)) l).
Proof.
  induction l as [|x l IH]; simpl; [constructor|].
  destruct (includes exact x) eqn:E; simpl.
  - apply keeps_skip; [apply includes_In; assumption | assumption].
  - apply keeps_take; [|assumption].
    intros Hin. apply includes_In in Hin. congruence.
Qed.

(** The relation leaves no choice: it determines the tail. *)
Lemma keeps_outside_functional (exact l t1 t2 : list jsstring) :
  keeps_outside exact l t1 -> keeps_outside exact l t2 -> t1 = t2.
Proof.
  intros H1; revert t2; induction H1; intros t2 H2; inversion H2; subst;
    try contradiction; auto.
  f_equal; auto.
Qed.

Lemma keeps_outside_In (exact l tail : list jsstring) :
  keeps_outside exact l tail ->
  forall x, In x tail <-> In x l /\ ~ In x exact.
Proof.
  induction 1; intros y; simpl.
  - tauto.
  - rewrite IHkeeps_outside. split; [tauto|].
    intros [[->|Hy] Hn]; [contradiction | tauto].
  - rewrite IHkeeps_outside. split.
    + intros [->|[Hy Hn]]; tauto.
    + intros [[->|Hy] Hn]; tauto.
Qed.

(** C3. The list handed to rendering is [exact_items] followed by the
    members of [items] that are not in [exact_items], each part in its
    original order; no exact item appears again in that tail. *)
Theorem getUniqueItemList_exact_then_partial (json_response : payload) :
  exists tail,
    getUniqueItemList json_response = exact_items json_response ++ tail
    /\ keeps_outside (exact_items json_response) (items json_response) tail
    /\ forall x, In x (exact_items json_response) -> ~ In x tail.
Proof.
  eexists. split; [reflexivity|]. split; [apply keeps_outside_filter|].
  intros x Hx Ht.
  apply (keeps_outside_In _ _ _ (keeps_outside_filter _ _)) in Ht.
  tauto.
Qed.

(** ** What an operation leaves alone *)

Ltac case_matches :=
  repeat match goal with
         | |- context [match ?x with _ => _ end] => destruct x
         | |- context [if ?x then _ else _] => destruct x
         end.

Lemma setHeight_frame (cfg : config) (w : widget) :
  children (setHeight cfg w) = children w
  /\ hidden (setHeight cfg w) = hidden w
  /\ dispatched (setHeight cfg w) = dispatched w
  /\ item_count (setHeight cfg w) = item_count w
  /\ next_node (setHeight cfg w) = next_node w.
Proof. unfold setHeight. case_matches; repeat split. Qed.

Lemma hideSorryMessage_frame (rev : revision) (w : widget) :
  hidden (hideSorryMessage rev w) = hidden w
  /\ dispatched (hideSorryMessage rev w) = dispatched w
  /\ item_count (hideSorryMessage rev w) = item_count w
  /\ next_node (hideSorryMessage rev w) = next_node w.
Proof. unfold hideSorryMessage. case_matches; repeat split. Qed.

Lemma showSorryMessage_frame (rev : revision) (cfg : config)
    (query : jsstring) (w : widget) :
  hidden (showSorryMessage rev cfg query w) = hidden w
  /\ dispatched (showSorryMessage rev cfg query w) = dispatched w
  /\ item_count (showSorryMessage rev cfg query w) = item_count w.
Proof.
  unfold showSorryMessage.
  match goal with
  | |- context [setHeight cfg ?x] =>
      destruct (setHeight_frame cfg x) as (_ & -> & -> & -> & _)
  end.
  destruct rev; cbn [hidden dispatched item_count];
    try destruct (hideSorryMessage_frame Caching w) as (-> & -> & -> & _);
    repeat split.
Qed.

Lemma updateResults_frame `{CaseMapping} (rev : revision) (cfg : config)
    (l : list jsstring) (query : jsstring) (w : widget) :
  hidden (updateResults rev cfg l query w) = hidden w
  /\ dispatched (updateResults rev cfg l query w) = dispatched w.
Proof.
  unfold updateResults.
  match goal with
  | |- context [if ?c then _ else _] => destruct c
  end.
  - match goal with
    | |- context [showSorryMessage rev cfg query ?x] =>
        destruct (showSorryMessage_frame rev cfg query x) as (-> & -> & _)
    end. split; reflexivity.
  - match goal with
    | |- context [hideSorryMessage rev ?x] =>
        destruct (hideSorryMessage_frame rev x) as (-> & -> & _)
    end. split; reflexivity.
Qed.

Lemma identifyOptions_frame (w : widget) :
  hidden (identifyOptions w) = hidden w
  /\ dispatched (identifyOptions w) = dispatched w
  /\ item_count (identifyOptions w) = item_count w
  /\ next_node (identifyOptions w) = next_node w.
Proof.
  unfold identifyOptions.
  destruct (identify _ (children w) (uniqOptionId w)). repeat split.
Qed.

(** [replaceResults] runs [open] and [setHeight] on what was rendered; the
    list is shown afterwards, and only an opening can have been
    dispatched. *)
Lemma replaceResults_opened `{CaseMapping} (rev : revision) (cfg : config)
    (json_response : payload) (query : jsstring) (w : widget) :
  let rendered :=
    identifyOptions
      (updateResults rev cfg (getUniqueItemList json_response) query w) in
  replaceResults rev cfg json_response query w = setHeight cfg (open rendered)
  /\ resultsShown (replaceResults rev cfg json_response query w) = true
  /\ dispatched (replaceResults rev cfg json_response query w)
     = dispatched w ++ (if hidden w then [toggle_open] else []).
Proof.
  intros rendered.
  assert (hidden rendered = hidden w /\ dispatched rendered = dispatched w)
    as [Hh Hd].
  { unfold rendered.
    destruct (identifyOptions_frame
                (updateResults rev cfg (getUniqueItemList json_response)
                   query w)) as (-> & -> & _).
    apply updateResults_frame. }
  assert (replaceResults rev cfg json_response query w
          = setHeight cfg (open rendered)) as -> by reflexivity.
  split; [reflexivity|].
  clearbody rendered.
  destruct (setHeight_frame cfg (open rendered)) as (_ & Hh' & Hd' & _).
  unfold resultsShown. rewrite Hh', Hd'.
  unfold open, resultsShown. rewrite <- Hd, <- Hh.
  destruct (hidden rendered) eqn:E; cbn; [split; reflexivity|].
  rewrite E, app_nil_r. split; reflexivity.
Qed.

(** C10. [replaceResults] always takes the branch that opens the list:
    the tested value is an array, which is truthy even when empty.  The
    list is shown afterwards whatever was rendered, and the only event the
    call can dispatch is the [toggle] of an opening. *)
Theorem replaceResults_always_opens `{CaseMapping} (rev : revision)
    (cfg : config) (json_response : payload) (query : jsstring) (w : widget) :
  let rendered :=
    identifyOptions
      (updateResults rev cfg (getUniqueItemList json_response) query w) in
  ToBoolean (VObject (options rendered)) = true
  /\ replaceResults rev cfg json_response query w = setHeight cfg (open rendered)
  /\ resultsShown (replaceResults rev cfg json_response query w) = true
  /\ dispatched (replaceResults rev cfg json_response query w)
     = dispatched w ++ (if hidden w then [toggle_open] else []).
Proof.
  intros rendered. split.
  - (* an array is an object *)
    cbn [ToBoolean]. reflexivity.
  - destruct (replaceResults_opened rev cfg json_response query w)
      as (Hbranch & Hshown & Hevents).
    fold rendered in Hbranch. auto.
Qed.

(** C4, at the item [İstanbul] and the query [stan].  Lower-casing the
    item yields one unit more than the item has, so the position found in
    the lower-cased item is one too far in the item itself: the emphasised
    piece is [tanb], although [stan] occurs in the item at offset 1.  For
    the item [İx] and the query [x] the emphasised piece is empty. *)
Theorem highlight_shifted_after_dotted_capital_I :
  toLowerCase Istanbul = 105%N :: 775%N :: str "stanbul"
  /\ indexOf (toLowerCase Istanbul) (toLowerCase (str "stan")) = 2%Z
  /\ startsWith (skipn 1 Istanbul) (str "stan") = true
  /\ map childNodes
       (children
          (updateResults Plain default_config [Istanbul] (str "stan")
             closed_empty))
     = [[TextNode (304%N :: str "s"); EmNode (str "tanb");
         TextNode (str "ul")]]
  /\ toLowerCase (str "tanb") <> toLowerCase (str "stan")
  /\ map childNodes
       (children
          (updateResults Plain default_config [304%N :: str "x"] (str "x")
             closed_empty))
     = [[TextNode (304%N :: str "x"); EmNode []; TextNode []]].
Proof.
  repeat split; try reflexivity. vm_compute. discriminate.
Qed.

(** ** The cache *)

Lemma own_get_In (l : list (jsstring * payload)) (k : jsstring) (p : payload) :
  own_get l k = Some p -> In k (map fst l).
Proof.
  induction l as [|[k' p'] l IH]; simpl; [discriminate|].
  destruct (jseq k' k) eqn:E.
  - apply jseq_eq in E. auto.
  - auto.
Qed.



(** The loop of [findInCache] answers the payload under the first
    reusable key, and [null] when no key is reusable. *)
Lemma scan_keys_spec (c : cache_map) (query : jsstring) (keys : list jsstring) :
  (scan_keys c query keys = VNull
   /\ forall k, In k keys -> reusable c query k = false)
  \/ exists before k after p,
       keys = before ++ k :: after
       /\ (forall k', In k' before -> reusable c query k' = false)
       /\ own_get (own c) k = Some p /\ partial p = false
       /\ startsWith query k = true
       /\ scan_keys c query keys = VObject (OPayload p).
Proof.
  induction keys as [|k keys IH]; simpl.
  - left. split; [reflexivity | contradiction].
  - destruct (reusable c query k) eqn:Er.
    + right. unfold reusable in Er.
      destruct (own_get (own c) k) as [p|] eqn:Eo; [|discriminate].
      rewrite Er. apply andb_true_iff in Er as [Hp Hs].
      apply negb_true_iff in Hp.
      exists [], k, keys, p. repeat split; auto. contradiction.
    + assert (scan_keys c query (k :: keys) = scan_keys c query keys) as Hstep.
      { simpl. unfold reusable in Er.
        destruct (own_get (own c) k); [rewrite Er|]; reflexivity. }
      simpl in Hstep. rewrite Hstep.
      destruct IH as [[Hn Hall] | (before & k0 & after & p & -> & Hb & Ho & Hp & Hs & Hv)].
      * left. split; [assumption|]. intros k' [<-|Hk']; auto.
      * right. exists (k :: before), k0, after, p.
        repeat split; auto. intros k' [<-|Hk']; auto.
Qed.




(** ** Elements and lists of elements *)

Lemma same_element_refl (e : element) : same_element e e.
Proof. reflexivity. Qed.

Lemma same_element_trans (e1 e2 e3 : element) :
  same_element e1 e2 -> same_element e2 e3 -> same_element e1 e3.
Proof. unfold same_element; congruence. Qed.

Lemma same_element_content (e : element) (c : list node) :
  same_element e (with_childNodes c e).
Proof. reflexivity. Qed.

Lemma same_element_nid (e e' : element) :
  same_element e e' -> nid e = nid e'.
Proof. intros E. apply (f_equal nid) in E. exact E. Qed.

Lemma same_element_value (e e' : element) :
  same_element e e' -> autocompleteValue e = autocompleteValue e'.
Proof. intros E. apply (f_equal autocompleteValue) in E. exact E. Qed.

Lemma same_element_test (P : element -> bool) (e e' : element) :
  attribute_test P -> same_element e e' -> P e = P e'.
Proof.
  intros HP E. rewrite <- (HP e []), <- (HP e' []). unfold same_element in E.
  rewrite E. reflexivity.
Qed.

Lemma optionSelector_test : attribute_test optionSelector.
Proof. intros e c; reflexivity. Qed.

Lemma activeSelector_test : attribute_test activeSelector.
Proof. intros e c; reflexivity. Qed.

Lemma marked_test : attribute_test marked.
Proof. intros e c; reflexivity. Qed.

Lemma placeholderSelector_test (rev : revision) :
  attribute_test (placeholderSelector rev).
Proof. intros e c; destruct rev; reflexivity. Qed.

Lemma is_li_test : attribute_test is_li.
Proof. intros e c; reflexivity. Qed.

Create HintDb dom.

#[local] Hint Resolve optionSelector_test activeSelector_test marked_test
  placeholderSelector_test is_li_test : dom.

Lemma update_node_nid (n : nat) (f : element -> element) (l : list element) :
  (forall e, nid (f e) = nid e) ->
  map nid (update_node n f l) = map nid l.
Proof.
  intros Hf. unfold update_node. rewrite map_map. apply map_ext.
  intros e. destruct (Nat.eqb (nid e) n); auto.
Qed.

Lemma update_node_In (n : nat) (f : element -> element) (l : list element)
    (x : element) :
  In x (update_node n f l) ->
  exists e, In e l /\ (x = e \/ (nid e = n /\ x = f e)).
Proof.
  unfold update_node. rewrite in_map_iff. intros (e & E & He).
  exists e. split; [assumption|].
  destruct (Nat.eqb (nid e) n) eqn:En; [apply Nat.eqb_eq in En|]; auto.
Qed.

Lemma removeChild_In (n : nat) (l : list element) (x : element) :
  In x (removeChild n l) <-> In x l /\ nid x <> n.
Proof.
  unfold removeChild. rewrite filter_In, negb_true_iff, Nat.eqb_neq. tauto.
Qed.

Lemma filter_filter_comm {A} (P Q : A -> bool) (l : list A) :
  filter P (filter Q l) = filter Q (filter P l).
Proof.
  induction l as [|x l IH]; simpl; [reflexivity|].
  destruct (P x) eqn:Ep, (Q x) eqn:Eq; simpl; rewrite ?Ep, ?Eq, IH; reflexivity.
Qed.

Lemma filter_length_le {A} (P : A -> bool) (l : list A) :
  List.length (filter P l) <= List.length l.
Proof.
  induction l as [|x l IH]; simpl; [lia|]. destruct (P x); simpl; lia.
Qed.

Lemma removeChild_filter (P : element -> bool) (n : nat) (l : list element) :
  filter P (removeChild n l) = removeChild n (filter P l).
Proof. apply filter_filter_comm. Qed.

Lemma NoDup_map_filter {A B} (f : A -> B) (P : A -> bool) (l : list A) :
  NoDup (map f l) -> NoDup (map f (filter P l)).
Proof.
  induction l as [|x l IH]; simpl; intros Hn; [constructor|].
  inversion Hn as [|? ? Hx Hl]; subst.
  destruct (P x); simpl; auto. constructor; auto.
  intros Hin. apply Hx. apply in_map_iff in Hin as (y & E & Hy).
  apply filter_In in Hy as [Hy _]. apply in_map_iff. eauto.
Qed.

Lemma insert_after_In (r : nat) (li : element) (l : list element)
    (x : element) :
  In x (insert_after r li l) <-> x = li \/ In x l.
Proof.
  induction l as [|e l IH]; simpl.
  - intuition congruence.
  - destruct (Nat.eqb (nid e) r); simpl; [intuition congruence|].
    rewrite IH. intuition congruence.
Qed.

Lemma insert_after_NoDup (r : nat) (li : element) (l : list element) :
  NoDup (map nid l) -> ~ In (nid li) (map nid l) ->
  NoDup (map nid (insert_after r li l)).
Proof.
  induction l as [|e l IH]; simpl; intros Hn Hli.
  - constructor; [tauto | constructor].
  - inversion Hn as [|? ? He Hl]; subst.
    destruct (Nat.eqb (nid e) r); simpl.
    + constructor.
      * simpl. intros [E|Hin]; [apply Hli; auto | contradiction].
      * constructor; [tauto | assumption].
    + constructor.
      * rewrite in_map_iff. intros (x & E & Hx).
        apply insert_after_In in Hx as [->|Hx]; [apply Hli; auto|].
        apply He. apply in_map_iff. eauto.
      * apply IH; [assumption | tauto].
Qed.

Lemma lookup_node_In (n : nat) (l : list element) (e : element) :
  NoDup (map nid l) -> In e l -> nid e = n -> lookup_node n l = Some e.
Proof.
  unfold lookup_node. induction l as [|x l IH]; simpl; [contradiction|].
  intros Hn Hin E. inversion Hn as [|? ? Hx Hl]; subst.
  destruct Hin as [->|Hin]; [rewrite Nat.eqb_refl; reflexivity|].
  destruct (Nat.eqb (nid x) (nid e)) eqn:Ex; [|auto].
  apply Nat.eqb_eq in Ex. exfalso. apply Hx. rewrite Ex.
  apply in_map; assumption.
Qed.

(** ** Growth of the container in the loop of [updateResults] *)

Lemma fresh_option_weaken (n0 n1 n1' : nat) (shown shown' : list jsstring)
    (li : element) :
  n1 <= n1' -> incl shown shown' ->
  fresh_option n0 n1 shown li -> fresh_option n0 n1' shown' li.
Proof.
  intros Hn Hs (n & v & c & -> & Hb & Hv).
  exists n, v, c. repeat split; try lia. auto.
Qed.

Lemma fresh_option_content (n0 n1 : nat) (shown : list jsstring)
    (li : element) (c : list node) :
  fresh_option n0 n1 shown li ->
  fresh_option n0 n1 shown (with_childNodes c li).
Proof.
  intros (n & v & c0 & -> & Hb & Hv). exists n, v, c. auto.
Qed.

Lemma grown_refl (n0 n1 : nat) (shown : list jsstring) (l : list element) :
  grown n0 n1 shown l l.
Proof.
  induction l; constructor; auto using same_element_refl.
Qed.

Lemma grown_weaken (n0 n1 n1' : nat) (shown shown' : list jsstring)
    (l l' : list element) :
  n1 <= n1' -> incl shown shown' ->
  grown n0 n1 shown l l' -> grown n0 n1' shown' l l'.
Proof.
  intros Hn Hs. induction 1; constructor;
    eauto using fresh_option_weaken.
Qed.

Lemma grown_update (n0 n1 : nat) (shown : list jsstring)
    (l l' : list element) (n : nat) (c : list node) :
  grown n0 n1 shown l l' ->
  grown n0 n1 shown l (update_node n (with_childNodes c) l').
Proof.
  induction 1; simpl.
  - constructor.
  - constructor; [|assumption].
    destruct (Nat.eqb (nid e') n); [|assumption].
    eapply same_element_trans; [eassumption | apply same_element_content].
  - apply grown_new; [|assumption].
    destruct (Nat.eqb (nid li) n); [|assumption].
    apply fresh_option_content; assumption.
Qed.

Lemma grown_insert_after (n0 n1 : nat) (shown : list jsstring)
    (l l' : list element) (r : nat) (li : element) :
  fresh_option n0 n1 shown li ->
  grown n0 n1 shown l l' ->
  grown n0 n1 shown l (insert_after r li l').
Proof.
  intros Hli. induction 1; simpl.
  - apply grown_new; [assumption | constructor].
  - destruct (Nat.eqb (nid e') r).
    + apply grown_old; [assumption|]. apply grown_new; assumption.
    + apply grown_old; assumption.
  - destruct (Nat.eqb (nid li0) r).
    + apply grown_new; [assumption|]. apply grown_new; assumption.
    + apply grown_new; assumption.
Qed.

(** Every element after the growth is an old one or a fresh option. *)
Lemma grown_In_new (n0 n1 : nat) (shown : list jsstring)
    (l l' : list element) (e' : element) :
  grown n0 n1 shown l l' -> In e' l' ->
  (exists e, In e l /\ same_element e e') \/ fresh_option n0 n1 shown e'.
Proof.
  induction 1; simpl; [contradiction | |].
  - intros [<-|Hin]; [left; eauto|].
    destruct (IHgrown Hin) as [(x & Hx & E)|Hf]; [left; eauto | right; auto].
  - intros [<-|Hin]; [right; assumption | auto].
Qed.

(** No element is lost. *)
Lemma grown_In_old (n0 n1 : nat) (shown : list jsstring)
    (l l' : list element) (e : element) :
  grown n0 n1 shown l l' -> In e l ->
  exists e', In e' l' /\ same_element e e'.
Proof.
  induction 1; simpl; [contradiction | |].
  - intros [<-|Hin]; [eauto|].
    destruct (IHgrown Hin) as (x & Hx & E); eauto.
  - intros Hin. destruct (IHgrown Hin) as (x & Hx & E); eauto.
Qed.

(** A selector that looks at attributes only and rejects fresh options
    selects the same elements before and after. *)
Lemma grown_filter (P : element -> bool) (n0 n1 : nat)
    (shown : list jsstring) (l l' : list element) :
  attribute_test P -> (forall n v c, P (new_option n v c) = false) ->
  grown n0 n1 shown l l' ->
  Forall2 same_element (filter P l) (filter P l').
Proof.
  intros HP Hnew. induction 1; simpl.
  - constructor.
  - rewrite <- (same_element_test P e e' HP H).
    destruct (P e); [constructor|]; assumption.
  - destruct H as (n & v & c & -> & _). rewrite Hnew. assumption.
Qed.

(** ** The loop of [updateResults] *)

Lemma find_existing_Some (existing_lis : list element) (item : jsstring)
    (li : element) :
  find_existing existing_lis item = Some li ->
  In li existing_lis /\ autocompleteValue li = Some item.
Proof.
  unfold find_existing. intros Hf. apply find_some in Hf as [Hin Ha].
  split; [assumption|]. unfold attr_is in Ha.
  destruct (autocompleteValue li); [|discriminate].
  apply jseq_eq in Ha. congruence.
Qed.

Lemma update_node_keeps (n : nat) (f : element -> element)
    (l : list element) (e : element) :
  In e l -> In (if Nat.eqb (nid e) n then f e else e) (update_node n f l).
Proof.
  intros Hin. unfold update_node.
  apply (in_map (fun e => if Nat.eqb (nid e) n then f e else e)); assumption.
Qed.

Lemma rendered_items_snoc `{CaseMapping} (query : jsstring)
    (l : list jsstring) (item : jsstring) :
  rendered_items query (l ++ [item])
  = rendered_items query l
    ++ match highlighted (toLowerCase query) query item with
       | Some _ => [item]
       | None => []
       end.
Proof.
  unfold rendered_items. rewrite filter_app. simpl.
  destruct (highlighted (toLowerCase query) query item); reflexivity.
Qed.

Lemma options_In (w : widget) (e : element) :
  In e (options w) <-> In e (children w) /\ optionSelector e = true.
Proof. unfold options. apply filter_In. Qed.

Section Loop.
Context `{CaseMapping}.
Variables (w : widget) (query : jsstring).

Lemma loop_inv_start : loop_inv w query [] (render_start w).
Proof.
  constructor; simpl; auto using grown_refl. contradiction.
Qed.

Lemma loop_inv_step (done : list jsstring) (rs : render_state)
    (item : jsstring) :
  loop_inv w query done rs ->
  loop_inv w query (done ++ [item])
    (render_item (options w) (toLowerCase query) query rs item).
Proof.
  intros [Hg Hn Hs Hc Hp]. unfold render_item.
  pose proof (rendered_items_snoc query done item) as Hsnoc.
  destruct (highlighted (toLowerCase query) query item) as [content|].
  2:{ rewrite app_nil_r in Hsnoc. constructor; auto; congruence. }
  assert (forall v, In v (shown_items rs) -> In v (shown_items rs ++ [item]))
    as Hincl by (intros; apply in_or_app; auto).
  destruct (find_existing (options w) item) as [li|] eqn:Ef.
  - apply find_existing_Some in Ef as [Hli Hv].
    apply options_In in Hli as [Hli Hopt].
    constructor; cbn [r_children r_next_node shown_items r_item_count].
    + apply grown_update.
      apply (grown_weaken _ (r_next_node rs) _ (shown_items rs));
        [lia | exact Hincl | assumption].
    + assumption.
    + congruence.
    + rewrite length_app; simpl. lia.
    + intros v Hin. apply in_app_or in Hin as [Hin|[<-|[]]].
      * destruct (Hp v Hin) as (e & He & Ho & Hev).
        exists (if Nat.eqb (nid e) (nid li) then with_childNodes content e
                else e).
        split; [apply update_node_keeps; assumption|].
        destruct (Nat.eqb (nid e) (nid li)); auto.
      * destruct (grown_In_old _ _ _ _ _ _ Hg Hli) as (e & He & E).
        exists (if Nat.eqb (nid e) (nid li) then with_childNodes content e
                else e).
        split; [apply update_node_keeps; assumption|].
        rewrite (same_element_test _ _ _ optionSelector_test E) in Hopt.
        rewrite (same_element_value _ _ E) in Hv.
        destruct (Nat.eqb (nid e) (nid li)); auto.
  - assert (fresh_option (next_node w) (S (r_next_node rs))
              (shown_items rs ++ [item])
              (new_option (r_next_node rs) item content)) as Hfresh.
    { exists (r_next_node rs), item, content.
      repeat split; try lia. apply in_or_app; simpl; auto. }
    assert (grown (next_node w) (S (r_next_node rs))
              (shown_items rs ++ [item]) (children w) (r_children rs))
      as Hg'
      by (apply (grown_weaken _ (r_next_node rs) _ (shown_items rs));
          [lia | exact Hincl | assumption]).
    constructor; cbn [r_children r_next_node shown_items r_item_count].
    + destruct (last_li rs).
      * apply grown_insert_after; assumption.
      * apply grown_new; assumption.
    + lia.
    + congruence.
    + rewrite length_app; simpl. lia.
    + intros v Hin.
      assert (forall e, In e (r_children rs)
                        \/ e = new_option (r_next_node rs) item content ->
                In e match last_li rs with
                     | Some l =>
                         insert_after l
                           (new_option (r_next_node rs) item content)
                           (r_children rs)
                     | None =>
                         new_option (r_next_node rs) item content
                         :: r_children rs
                     end) as Hkeep.
      { intros e He. destruct (last_li rs).
        - apply insert_after_In. tauto.
        - simpl. intuition congruence. }
      apply in_app_or in Hin as [Hin|[<-|[]]].
      * destruct (Hp v Hin) as (e & He & Ho & Hev). exists e. auto.
      * exists (new_option (r_next_node rs) item content). auto.
Qed.

Lemma loop_inv_fold (l done : list jsstring) (rs : render_state) :
  loop_inv w query done rs ->
  loop_inv w query (done ++ l)
    (fold_left (render_item (options w) (toLowerCase query) query) l rs).
Proof.
  revert done rs. induction l as [|item l IH]; intros done rs Hinv; simpl.
  - rewrite app_nil_r. assumption.
  - replace (done ++ item :: l) with ((done ++ [item]) ++ l)
      by (rewrite <- app_assoc; reflexivity).
    apply IH, loop_inv_step, Hinv.
Qed.

(** The loop, run over all the items. *)
Lemma loop_inv_end (l : list jsstring) :
  loop_inv w query l
    (fold_left (render_item (options w) (toLowerCase query) query) l
       (render_start w)).
Proof. apply (loop_inv_fold l []), loop_inv_start. Qed.

Lemma loop_wf_step (rs : render_state) (item : jsstring) :
  loop_wf rs ->
  loop_wf (render_item (options w) (toLowerCase query) query rs item).
Proof.
  intros [Hd Ha]. unfold render_item.
  destruct (highlighted (toLowerCase query) query item) as [content|];
    [|constructor; assumption].
  destruct (find_existing (options w) item) as [li|].
  - constructor; cbn [r_children r_next_node].
    + rewrite update_node_nid by reflexivity. assumption.
    + rewrite Forall_forall in *. intros x Hx.
      apply update_node_In in Hx as (e & He & [->|[_ ->]]);
        [|change (nid (with_childNodes content e)) with (nid e)]; auto.
  - assert (~ In (r_next_node rs) (map nid (r_children rs))) as Hnew.
    { rewrite in_map_iff. intros (e & E & He).
      rewrite Forall_forall in Ha. apply Ha in He. lia. }
    constructor; cbn [r_children r_next_node].
    + destruct (last_li rs).
      * apply insert_after_NoDup; assumption.
      * simpl. constructor; assumption.
    + rewrite Forall_forall in *. intros x Hx.
      assert (x = new_option (r_next_node rs) item content
              \/ In x (r_children rs)) as [->|Hin].
      { destruct (last_li rs); [apply insert_after_In in Hx; tauto|].
        simpl in Hx. intuition congruence. }
      * simpl. lia.
      * apply Ha in Hin. lia.
Qed.

Lemma loop_wf_end (l : list jsstring) :
  well_formed w ->
  loop_wf
    (fold_left (render_item (options w) (toLowerCase query) query) l
       (render_start w)).
Proof.
  intros [Hd Ha].
  assert (loop_wf (render_start w)) as Hstart by (constructor; assumption).
  revert Hstart. generalize (render_start w).
  induction l as [|item l IH]; intros rs Hrs; simpl; [assumption|].
  apply IH, loop_wf_step, Hrs.
Qed.

End Loop.

(** ** The removal loop *)

Lemma filter_andb {A} (P Q : A -> bool) (l : list A) :
  filter P (filter Q l) = filter (fun x => Q x && P x) l.
Proof.
  induction l as [|x l IH]; simpl; [reflexivity|].
  destruct (Q x); simpl; [destruct (P x)|]; rewrite IH; reflexivity.
Qed.

Lemma remove_stale_filter (shown : list jsstring)
    (existing_lis l : list element) :
  remove_stale shown existing_lis l
  = filter
      (fun e =>
         negb (existsb (fun li => stale shown li && Nat.eqb (nid li) (nid e))
                 existing_lis)) l.
Proof.
  unfold remove_stale. revert l.
  induction existing_lis as [|li ex IH]; intros l; simpl.
  - induction l as [|e l IHl]; simpl; [|rewrite <- IHl]; reflexivity.
  - rewrite IH.
    assert ((match autocompleteValue li with
             | Some v => if includes shown v then l else removeChild (nid li) l
             | None => removeChild (nid li) l
             end)
            = filter (fun e => negb (stale shown li && Nat.eqb (nid li) (nid e)))
                l) as ->.
    { unfold stale, removeChild.
      destruct (autocompleteValue li) as [v|];
        [destruct (includes shown v)|]; simpl.
      - induction l as [|e l IHl]; simpl; [|rewrite <- IHl]; reflexivity.
      - apply filter_ext. intros e. rewrite Nat.eqb_sym. reflexivity.
      - apply filter_ext. intros e. rewrite Nat.eqb_sym. reflexivity. }
    rewrite filter_andb. apply filter_ext. intros e.
    rewrite negb_orb. reflexivity.
Qed.

Lemma remove_stale_In (shown : list jsstring) (existing_lis l : list element)
    (e : element) :
  In e (remove_stale shown existing_lis l)
  <-> In e l
      /\ forall li, In li existing_lis -> nid li = nid e ->
           stale shown li = false.
Proof.
  rewrite remove_stale_filter, filter_In, negb_true_iff.
  split; intros [Hin Hk]; split; auto.
  - intros li Hli E. destruct (stale shown li) eqn:Es; auto.
    rewrite <- Hk. symmetry. apply existsb_exists. exists li.
    rewrite Es, E, Nat.eqb_refl. auto.
  - destruct (existsb _ existing_lis) eqn:Ex; auto.
    apply existsb_exists in Ex as (li & Hli & Hs).
    apply andb_true_iff in Hs as [Hs E]. apply Nat.eqb_eq in E.
    rewrite (Hk li Hli E) in Hs. discriminate.
Qed.

Lemma remove_stale_all_kept (shown : list jsstring)
    (existing_lis l : list element) :
  (forall li, In li existing_lis -> stale shown li = false) ->
  remove_stale shown existing_lis l = l.
Proof.
  intros Hk. rewrite remove_stale_filter.
  assert (forall e, In e l ->
            negb (existsb
                    (fun li => stale shown li && Nat.eqb (nid li) (nid e))
                    existing_lis) = true) as Hall.
  { intros e _. apply negb_true_iff.
    destruct (existsb _ existing_lis) eqn:Ex; auto.
    apply existsb_exists in Ex as (li & Hli & Hs).
    rewrite (Hk li Hli) in Hs. discriminate. }
  clear Hk. induction l as [|e l IH]; simpl; [reflexivity|].
  rewrite (Hall e (or_introl eq_refl)). f_equal.
  apply IH. intros x Hx. apply Hall. right; assumption.
Qed.

(** Nothing stale survives among the options. *)
Lemma remove_stale_options (shown : list jsstring) (l0 l : list element)
    (n0 n1 : nat) (e : element) :
  grown n0 n1 shown l0 l ->
  In e (remove_stale shown (filter optionSelector l0) l) ->
  optionSelector e = true ->
  exists v, autocompleteValue e = Some v /\ In v shown.
Proof.
  intros Hg He Ho. apply remove_stale_In in He as [Hin Hk].
  destruct (grown_In_new _ _ _ _ _ _ Hg Hin)
    as [(e0 & He0 & E) | (n & v & c & -> & _ & Hv)].
  - assert (stale shown e0 = false) as Hs.
    { apply Hk; [|apply same_element_nid; assumption].
      apply filter_In. split; [assumption|].
      rewrite (same_element_test _ _ _ optionSelector_test E). assumption. }
    unfold stale in Hs. rewrite (same_element_value _ _ E) in Hs.
    destruct (autocompleteValue e) as [v|]; [|discriminate].
    exists v. split; [reflexivity|].
    apply includes_In. apply negb_false_iff. assumption.
  - exists v. auto.
Qed.

(** ** The placeholder *)

Lemma find_removeChild_length (P : element -> bool) (l : list element)
    (li : element) :
  find P l = Some li ->
  List.length (filter P (removeChild (nid li) l))
  < List.length (filter P l).
Proof.
  intros Hf. rewrite removeChild_filter.
  pose proof (find_some _ _ Hf) as [Hin HP].
  assert (In li (filter P l)) as Hli by (apply filter_In; auto).
  revert Hli. generalize (filter P l) as m. intros m Hli.
  unfold removeChild.
  induction m as [|x m IH]; simpl in *; [contradiction|].
  destruct Hli as [->|Hli].
  - rewrite Nat.eqb_refl. simpl.
    pose proof (filter_length_le (fun e => negb (Nat.eqb (nid e) (nid li))) m).
    lia.
  - specialize (IH Hli).
    destruct (negb (Nat.eqb (nid x) (nid li))); simpl; lia.
Qed.

Lemma find_none_filter {A} (P : A -> bool) (l : list A) :
  find P l = None <-> filter P l = [].
Proof.
  induction l as [|x l IH]; simpl; [tauto|].
  destruct (P x); [split; discriminate | assumption].
Qed.

(** [hideSorryMessage] leaves no placeholder when there was at most
    one. *)
Lemma hideSorryMessage_none (rev : revision) (w : widget) :
  List.length (filter (placeholderSelector rev) (children w)) <= 1 ->
  filter (placeholderSelector rev) (children (hideSorryMessage rev w)) = [].
Proof.
  intros Hle. unfold hideSorryMessage.
  destruct (find (placeholderSelector rev) (children w)) as [li|] eqn:Ef.
  - cbn [children with_children].
    apply find_removeChild_length in Ef.
    destruct (filter _ (removeChild (nid li) (children w)));
      [reflexivity | simpl in Ef; lia].
  - apply find_none_filter; assumption.
Qed.

Lemma hideSorryMessage_children (rev : revision) (w : widget) (e : element) :
  In e (children (hideSorryMessage rev w)) -> In e (children w).
Proof.
  unfold hideSorryMessage.
  destruct (find (placeholderSelector rev) (children w)); auto.
  cbn [children with_children]. intros He.
  apply removeChild_In in He. tauto.
Qed.

Lemma hideSorryMessage_filter_le (P : element -> bool) (rev : revision)
    (w : widget) :
  List.length (filter P (children (hideSorryMessage rev w)))
  <= List.length (filter P (children w)).
Proof.
  unfold hideSorryMessage.
  destruct (find (placeholderSelector rev) (children w)); auto.
  cbn [children with_children]. rewrite removeChild_filter.
  apply filter_length_le.
Qed.

Lemma hideSorryMessage_unchanged (rev : revision) (w : widget) :
  filter (placeholderSelector rev) (children w) = [] ->
  hideSorryMessage rev w = w.
Proof.
  intros Hn. unfold hideSorryMessage.
  apply find_none_filter in Hn. rewrite Hn. reflexivity.
Qed.

Lemma sorry_li_placeholder (rev : revision) (n : nat) (query : jsstring) :
  placeholderSelector rev (sorry_li n query) = true.
Proof. destruct rev; reflexivity. Qed.

Lemma new_option_placeholder (rev : revision) (n : nat) (v : jsstring)
    (c : list node) :
  placeholderSelector rev (new_option n v c) = false.
Proof. destruct rev; reflexivity. Qed.

(** The children [showSorryMessage] leaves: those of before, but the
    placeholder hidden in the caching file, and the new placeholder. *)
Lemma showSorryMessage_children (rev : revision) (cfg : config)
    (query : jsstring) (w : widget) :
  children (showSorryMessage rev cfg query w)
  = children (match rev with Plain => w | Caching => hideSorryMessage rev w end)
    ++ [sorry_li (next_node w) query]
  /\ next_node (showSorryMessage rev cfg query w) = S (next_node w).
Proof.
  unfold showSorryMessage.
  match goal with
  | |- context [setHeight cfg ?x] =>
      destruct (setHeight_frame cfg x) as (-> & _ & _ & _ & ->)
  end.
  destruct rev; cbn [children next_node]; [split; reflexivity|].
  destruct (hideSorryMessage_frame Caching w) as (_ & _ & _ & ->).
  split; reflexivity.
Qed.

(** ** [updateResults], in two halves *)

Section UpdateResults.
Context `{CaseMapping}.
Variables (rev : revision) (cfg : config).
Variables (l : list jsstring) (query : jsstring) (w : widget).

Lemma updateResults_kept :
  updateResults rev cfg l query w
  = if item_count (kept l query w) =? 0
    then showSorryMessage rev cfg query (kept l query w)
    else hideSorryMessage rev (kept l query w).
Proof. reflexivity. Qed.

Lemma kept_item_count :
  item_count (kept l query w) = List.length (rendered_items query l).
Proof.
  destruct (loop_inv_end w query l) as [_ _ Hs Hc _].
  cbn [kept item_count]. unfold render_loop. rewrite Hc, Hs. reflexivity.
Qed.

(** Every child is a child of before, or an option created for a rendered
    item. *)
Lemma kept_children_origin (e : element) :
  In e (children (kept l query w)) ->
  (exists e0, In e0 (children w) /\ same_element e0 e)
  \/ fresh_option (next_node w) (next_node (kept l query w))
       (rendered_items query l) e.
Proof.
  destruct (loop_inv_end w query l) as [Hg _ Hs _ _]. rewrite Hs in Hg.
  cbn [kept children next_node]. unfold kept_children. intros He.
  apply remove_stale_In in He as [He _].
  exact (grown_In_new _ _ _ _ _ _ Hg He).
Qed.

(** A selector on attributes that rejects the created options selects no
    more elements than before. *)
Lemma kept_filter_le (P : element -> bool) :
  attribute_test P -> (forall n v c, P (new_option n v c) = false) ->
  List.length (filter P (children (kept l query w)))
  <= List.length (filter P (children w)).
Proof.
  intros HP Hnew. destruct (loop_inv_end w query l) as [Hg _ _ _ _].
  apply (grown_filter P _ _ _ _ _ HP Hnew) in Hg.
  apply Forall2_length in Hg. rewrite Hg.
  cbn [kept children]. unfold kept_children.
  rewrite remove_stale_filter, filter_filter_comm.
  apply filter_length_le.
Qed.

(** The options left all carry a rendered item. *)
Lemma kept_options_shown (e : element) :
  In e (options (kept l query w)) ->
  exists v, autocompleteValue e = Some v /\ In v (rendered_items query l).
Proof.
  destruct (loop_inv_end w query l) as [Hg _ Hs _ _].
  intros He. apply options_In in He as [He Ho].
  cbn [kept children] in He. unfold kept_children in He.
  rewrite <- Hs. eapply remove_stale_options; eauto.
Qed.

Lemma kept_well_formed : well_formed w -> well_formed (kept l query w).
Proof.
  intros Hwf. destruct (loop_wf_end w query l Hwf) as [Hd Ha].
  constructor; cbn [kept children next_node]; unfold kept_children;
    rewrite remove_stale_filter.
  - apply NoDup_map_filter. exact Hd.
  - rewrite Forall_forall in *. intros e He.
    apply filter_In in He as [He _]. auto.
Qed.

(** Every rendered item has its option. *)
Lemma kept_rendered_present (v : jsstring) :
  well_formed w -> In v (rendered_items query l) ->
  exists e, In e (options (kept l query w)) /\ autocompleteValue e = Some v.
Proof.
  intros Hwf Hv.
  destruct (loop_inv_end w query l) as [Hg _ Hs _ Hp].
  destruct (loop_wf_end w query l Hwf) as [Hd _].
  fold (render_loop l query w) in *.
  rewrite <- Hs in Hv. destruct (Hp v Hv) as (e & He & Ho & Hev).
  exists e. split; [|assumption].
  apply options_In. split; [|assumption].
  cbn [kept children]. unfold kept_children.
  apply remove_stale_In. split; [assumption|].
  intros li Hli Enid. apply options_In in Hli as [Hli Hoi].
  destruct (grown_In_old _ _ _ _ _ _ Hg Hli) as (e' & He' & E).
  assert (e' = e) as ->.
  { pose proof (lookup_node_In (nid e) _ e Hd He eq_refl) as L1.
    pose proof (lookup_node_In (nid e) _ e' Hd He') as L2.
    rewrite L2 in L1; [congruence|].
    rewrite <- (same_element_nid _ _ E). assumption. }
  unfold stale. rewrite (same_element_value _ _ E), Hev.
  apply negb_false_iff, includes_In. assumption.
Qed.

End UpdateResults.

(** ** [identifyOptions] *)

Lemma identify_variants (prefix : jsstring) (l : list element) (n : nat) :
  Forall2 id_variant l (fst (identify prefix l n)).
Proof.
  revert n. induction l as [|e l IH]; intros n; simpl; [constructor|].
  destruct (optionSelector e && negb (has_attr (elem_id e))) eqn:E.
  - specialize (IH (S n)). destruct (identify prefix l (S n)); simpl in *.
    constructor; [|assumption]. right. eexists. split; [|reflexivity].
    apply andb_true_iff in E as [_ E]. destruct (elem_id e); [discriminate|].
    reflexivity.
  - specialize (IH n). destruct (identify prefix l n); simpl in *.
    constructor; [left; reflexivity | assumption].
Qed.

Lemma identifyOptions_children (w : widget) :
  Forall2 id_variant (children w) (children (identifyOptions w)).
Proof.
  unfold identifyOptions.
  match goal with
  | |- context [identify ?p ?l ?n] =>
      pose proof (identify_variants p l n) as Hv; destruct (identify p l n)
  end. exact Hv.
Qed.

Lemma id_variant_nid (e e' : element) : id_variant e e' -> nid e' = nid e.
Proof. intros [->|(i & _ & ->)]; reflexivity. Qed.

Lemma id_variant_test (P : element -> bool) (e e' : element) :
  id_blind P -> id_variant e e' -> P e' = P e.
Proof. intros HP [->|(i & _ & ->)]; [reflexivity | apply HP]. Qed.

Lemma variants_nid (l l' : list element) :
  Forall2 id_variant l l' -> map nid l' = map nid l.
Proof.
  induction 1; simpl; [reflexivity|].
  f_equal; [apply id_variant_nid|]; assumption.
Qed.

Lemma variants_filter (P : element -> bool) (l l' : list element) :
  id_blind P -> Forall2 id_variant l l' ->
  Forall2 id_variant (filter P l) (filter P l').
Proof.
  intros HP. induction 1; simpl; [constructor|].
  rewrite (id_variant_test P x y HP H).
  destruct (P x); [constructor|]; assumption.
Qed.

Lemma variants_In (l l' : list element) (e' : element) :
  Forall2 id_variant l l' -> In e' l' ->
  exists e, In e l /\ id_variant e e'.
Proof.
  induction 1; simpl; [contradiction|].
  intros [<-|Hin]; [eauto|]. destruct (IHForall2 Hin) as (e & He & Hv); eauto.
Qed.

Lemma optionSelector_blind : id_blind optionSelector.
Proof. intros e i; reflexivity. Qed.

Lemma marked_blind : id_blind marked.
Proof. intros e i; reflexivity. Qed.

Lemma activeSelector_blind : id_blind activeSelector.
Proof. intros e i; reflexivity. Qed.

Lemma placeholderSelector_blind (rev : revision) :
  id_blind (placeholderSelector rev).
Proof. intros e i; destruct rev; reflexivity. Qed.

#[local] Hint Resolve optionSelector_blind marked_blind activeSelector_blind
  placeholderSelector_blind : dom.

Lemma identifyOptions_filter_nil (P : element -> bool) (w : widget) :
  id_blind P -> filter P (children w) = [] ->
  filter P (children (identifyOptions w)) = [].
Proof.
  intros HP Hn.
  pose proof (variants_filter P _ _ HP (identifyOptions_children w)) as Hv.
  rewrite Hn in Hv. inversion Hv. reflexivity.
Qed.

(** Without an option to identify, nothing changes. *)
Lemma identify_no_option (prefix : jsstring) (l : list element) (n : nat) :
  filter optionSelector l = [] -> identify prefix l n = (l, n).
Proof.
  induction l as [|e l IH]; simpl; [reflexivity|].
  destruct (optionSelector e); [discriminate|]. simpl.
  intros Hn. rewrite (IH Hn). reflexivity.
Qed.

Lemma identifyOptions_no_option (w : widget) :
  options w = [] -> children (identifyOptions w) = children w.
Proof.
  intros Hn. unfold identifyOptions.
  rewrite (identify_no_option _ _ _ Hn). reflexivity.
Qed.

Lemma replaceResults_children `{CaseMapping} (rev : revision) (cfg : config)
    (json_response : payload) (query : jsstring) (w : widget) :
  children (replaceResults rev cfg json_response query w)
  = children
      (identifyOptions
         (updateResults rev cfg (getUniqueItemList json_response) query w))
  /\ next_node (replaceResults rev cfg json_response query w)
     = next_node
         (updateResults rev cfg (getUniqueItemList json_response) query w)
  /\ item_count (replaceResults rev cfg json_response query w)
     = item_count
         (updateResults rev cfg (getUniqueItemList json_response) query w).
Proof.
  destruct (replaceResults_opened rev cfg json_response query w)
    as (-> & _).
  match goal with
  | |- context [setHeight cfg ?x] =>
      destruct (setHeight_frame cfg x) as (-> & _ & _ & -> & ->)
  end.
  match goal with
  | |- context [identifyOptions ?x] =>
      destruct (identifyOptions_frame x) as (_ & _ & Hc & Hn);
      generalize dependent (identifyOptions x)
  end.
  intros w' Hc Hn. rewrite <- Hc, <- Hn.
  unfold open. destruct (resultsShown w'); repeat split.
Qed.

(** ** The placeholder after a render pass *)

Lemma rendered_items_nil_loop `{CaseMapping} (l : list jsstring)
    (query : jsstring) (w : widget) :
  rendered_items query l = [] -> render_loop l query w = render_start w.
Proof.
  unfold render_loop. generalize (render_start w) as rs.
  induction l as [|item l IH]; intros rs Hn; simpl; [reflexivity|].
  unfold rendered_items in Hn. simpl in Hn.
  unfold render_item at 2.
  destruct (highlighted (toLowerCase query) query item); [discriminate|].
  apply IH. exact Hn.
Qed.

Section Placeholder.
Context `{CaseMapping}.
Variables (rev : revision) (cfg : config).
Variables (l : list jsstring) (query : jsstring) (w : widget).

Lemma updateResults_nothing_rendered :
  rendered_items query l = [] ->
  options (updateResults rev cfg l query w) = []
  /\ (exists front,
        children (updateResults rev cfg l query w)
        = front ++ [sorry_li (next_node w) query]
        /\ List.length (filter (placeholderSelector rev) front)
           <= List.length (filter (placeholderSelector rev) (children w))
        /\ (rev = Caching ->
            List.length (filter (placeholderSelector rev) (children w)) <= 1 ->
            filter (placeholderSelector rev) front = [])).
Proof.
  intros Hn. rewrite updateResults_kept, kept_item_count, Hn. cbn [List.length Nat.eqb].
  assert (options (kept l query w) = []) as Hopt.
  { destruct (options (kept l query w)) as [|e o] eqn:E; [reflexivity|].
    destruct (kept_options_shown l query w e) as (v & _ & Hv);
      [rewrite E; left; reflexivity|].
    rewrite Hn in Hv. contradiction. }
  assert (next_node (kept l query w) = next_node w) as Hnext.
  { cbn [kept next_node]. rewrite rendered_items_nil_loop by assumption.
    reflexivity. }
  pose proof (kept_filter_le l query w (placeholderSelector rev)
                (placeholderSelector_test rev) (new_option_placeholder rev))
    as Hle.
  destruct (showSorryMessage_children rev cfg query (kept l query w))
    as [Hc _].
  rewrite Hc, Hnext.
  set (x := match rev with
            | Plain => kept l query w
            | Caching => hideSorryMessage rev (kept l query w)
            end).
  assert (forall e, In e (children x) -> In e (children (kept l query w)))
    as Hsub.
  { unfold x. destruct rev; auto. apply hideSorryMessage_children. }
  split.
  - unfold options. rewrite Hc, Hnext. fold x. rewrite filter_app. simpl.
    rewrite app_nil_r.
    destruct (filter optionSelector (children x)) as [|e o] eqn:E;
      [reflexivity|].
    assert (In e (options (kept l query w))) as He.
    { assert (In e (filter optionSelector (children x))) as He
        by (rewrite E; left; reflexivity).
      apply filter_In in He as [He Ho]. apply options_In. auto. }
    rewrite Hopt in He. contradiction.
  - exists (children x). split; [reflexivity|]. split.
    + unfold x. destruct rev; [assumption|].
      etransitivity; [apply hideSorryMessage_filter_le | assumption].
    + intros -> Hone. unfold x. apply hideSorryMessage_none. lia.
Qed.

Lemma updateResults_something_rendered :
  rendered_items query l <> [] ->
  List.length (filter (placeholderSelector rev) (children w)) <= 1 ->
  filter (placeholderSelector rev) (children (updateResults rev cfg l query w))
  = [].
Proof.
  intros Hn Hone. rewrite updateResults_kept, kept_item_count.
  destruct (rendered_items query l) as [|v r]; [congruence|].
  cbn [List.length Nat.eqb].
  apply hideSorryMessage_none.
  etransitivity; [|exact Hone].
  apply kept_filter_le;
    [apply placeholderSelector_test | apply new_option_placeholder].
Qed.

End Placeholder.

(** C2, as the code has it.  When no item of the merged list renders, the
    render pass leaves no option, ends the container with the disabled
    placeholder for the query -- the only placeholder when there was none
    before (in the caching file: at most one before) -- and the results
    list is shown.  When some item renders and the container held at most
    one placeholder, none is left. *)
Theorem replaceResults_placeholder `{CaseMapping} (rev : revision)
    (cfg : config) (json_response : payload) (query : jsstring) (w : widget) :
  let w' := replaceResults rev cfg json_response query w in
  let placeholder := sorry_li (next_node w) query in
  (rendered_items query (getUniqueItemList json_response) = [] ->
     resultsShown w' = true
     /\ options w' = []
     /\ (exists front, children w' = front ++ [placeholder])
     /\ ariaDisabled placeholder = Some (str "true")
     /\ childNodes placeholder = [TextNode (sorry_text query)]
     /\ (filter (placeholderSelector rev) (children w) = []
         \/ (rev = Caching
             /\ List.length (filter (placeholderSelector rev) (children w))
                <= 1) ->
         filter (placeholderSelector rev) (children w') = [placeholder]))
  /\ (rendered_items query (getUniqueItemList json_response) <> [] ->
      List.length (filter (placeholderSelector rev) (children w)) <= 1 ->
      filter (placeholderSelector rev) (children w') = []).
Proof.
  intros w' placeholder.
  destruct (replaceResults_opened rev cfg json_response query w)
    as (_ & Hshown & _).
  destruct (replaceResults_children rev cfg json_response query w)
    as (Hc & _ & _).
  set (u := updateResults rev cfg (getUniqueItemList json_response) query w)
    in *.
  fold w' in Hshown, Hc. split.
  - intros Hn.
    destruct (updateResults_nothing_rendered rev cfg _ query w Hn)
      as (Hopt & front & Hfront & Hle & Hcaching).
    fold u in Hopt, Hfront.
    assert (children w' = children u) as Hsame
      by (rewrite Hc; apply identifyOptions_no_option; assumption).
    split; [assumption|]. split.
    { unfold options. rewrite Hsame. exact Hopt. }
    split; [exists front; rewrite Hsame; exact Hfront|].
    split; [reflexivity|]. split; [reflexivity|].
    intros Hbefore. rewrite Hsame, Hfront, filter_app. simpl.
    unfold placeholder. rewrite sorry_li_placeholder.
    assert (filter (placeholderSelector rev) front = []) as ->; [|reflexivity].
    destruct Hbefore as [Hnone | [Hrev Hone]].
    + rewrite Hnone in Hle. simpl in Hle.
      destruct (filter (placeholderSelector rev) front);
        [reflexivity | simpl in Hle; lia].
    + auto.
  - intros Hn Hone. rewrite Hc.
    apply identifyOptions_filter_nil; [apply placeholderSelector_blind|].
    apply updateResults_something_rendered; assumption.
Qed.

Lemma replaceResults_placeholder_witness :
  rendered_items (str "q") (getUniqueItemList answer_jo) = []
  /\ rendered_items (str "jo") (getUniqueItemList answer_jo) <> []
  /\ resultsShown
       (replaceResults Caching default_config answer_jo (str "q")
          closed_empty) = true
  /\ filter (placeholderSelector Caching)
       (children
          (replaceResults Caching default_config answer_jo (str "jo")
             (replaceResults Caching default_config answer_jo (str "q")
                closed_empty))) = [].
Proof.
  assert (rendered_items (str "q") (getUniqueItemList answer_jo) = []) as H1
    by reflexivity.
  assert (rendered_items (str "jo") (getUniqueItemList answer_jo) <> []) as H2
    by (vm_compute; discriminate).
  split; [exact H1|]. split; [exact H2|]. split.
  - apply (proj1 (replaceResults_placeholder Caching default_config answer_jo
                    (str "q") closed_empty) H1).
  - apply (proj2 (replaceResults_placeholder Caching default_config answer_jo
                    (str "jo")
                    (replaceResults Caching default_config answer_jo (str "q")
                       closed_empty)) H2).
    vm_compute. lia.
Defined.

(** C2 as stated fails: the answer has no item, the container was hidden,
    and after the render pass it holds the placeholder and is shown. *)
Lemma empty_answer_opens_the_list :
  rendered_items (str "x") (getUniqueItemList answer_nothing) = []
  /\ resultsShown closed_empty = false
  /\ children
       (replaceResults Plain default_config answer_nothing (str "x")
          closed_empty) = [sorry_li 0 (str "x")]
  /\ resultsShown
       (replaceResults Plain default_config answer_nothing (str "x")
          closed_empty) = true
  /\ resultsShown
       (replaceResults Caching default_config answer_nothing (str "x")
          closed_empty) = true.
Proof. repeat split. Qed.

(** ** Where the children of a render pass come from *)

Lemma well_formed_ext (w w' : widget) :
  children w' = children w -> next_node w' = next_node w ->
  well_formed w -> well_formed w'.
Proof.
  intros Hc Hn [Hd Ha]. constructor; rewrite ?Hc, ?Hn; assumption.
Qed.

Lemma hideSorryMessage_well_formed (rev : revision) (w : widget) :
  well_formed w -> well_formed (hideSorryMessage rev w).
Proof.
  intros [Hd Ha]. unfold hideSorryMessage.
  destruct (find (placeholderSelector rev) (children w));
    [|constructor; assumption].
  constructor; cbn [children next_node with_children].
  - apply NoDup_map_filter. assumption.
  - rewrite Forall_forall in *. intros x Hx.
    apply removeChild_In in Hx as [Hx _]. auto.
Qed.

Lemma showSorryMessage_well_formed (rev : revision) (cfg : config)
    (query : jsstring) (w : widget) :
  well_formed w -> well_formed (showSorryMessage rev cfg query w).
Proof.
  intros Hwf.
  destruct (showSorryMessage_children rev cfg query w) as [Hc Hn].
  assert (well_formed
            match rev with Plain => w | Caching => hideSorryMessage rev w end
          /\ next_node
               match rev with Plain => w | Caching => hideSorryMessage rev w end
             = next_node w) as [[Hd Ha] Hx].
  { destruct rev; split; auto.
    - apply hideSorryMessage_well_formed; assumption.
    - apply hideSorryMessage_frame. }
  rewrite Hx in Ha.
  constructor; rewrite Hc, ?Hn.
  - rewrite map_app. simpl.
    apply NoDup_rev in Hd. rewrite <- rev_involutive.
    apply NoDup_rev. rewrite rev_app_distr. simpl. constructor; [|assumption].
    rewrite <- in_rev, in_map_iff. intros (e & E & He).
    rewrite Forall_forall in Ha. apply Ha in He. lia.
  - apply Forall_app. split.
    + eapply Forall_impl; [|exact Ha]. simpl. intros; lia.
    + constructor; [simpl; lia | constructor].
Qed.

Section RenderPass.
Context `{CaseMapping}.
Variables (rev : revision) (cfg : config).

Lemma updateResults_well_formed (l : list jsstring) (query : jsstring)
    (w : widget) :
  well_formed w -> well_formed (updateResults rev cfg l query w).
Proof.
  intros Hwf. rewrite updateResults_kept.
  pose proof (kept_well_formed l query w Hwf).
  destruct (item_count (kept l query w) =? 0).
  - apply showSorryMessage_well_formed; assumption.
  - apply hideSorryMessage_well_formed; assumption.
Qed.

Lemma updateResults_origin (l : list jsstring) (query : jsstring)
    (w : widget) (e : element) :
  In e (children (updateResults rev cfg l query w)) ->
  (exists e0, In e0 (children w) /\ same_element e0 e)
  \/ (exists n v c, e = new_option n v c)
  \/ (exists n, e = sorry_li n query).
Proof.
  rewrite updateResults_kept.
  assert (In e (children (kept l query w)) ->
          (exists e0, In e0 (children w) /\ same_element e0 e)
          \/ (exists n v c, e = new_option n v c)
          \/ (exists n, e = sorry_li n query)) as Hkept.
  { intros He.
    destruct (kept_children_origin l query w e He)
      as [Ho | (n & v & c & -> & _)]; eauto 6. }
  destruct (item_count (kept l query w) =? 0).
  - destruct (showSorryMessage_children rev cfg query (kept l query w))
      as [-> _].
    intros He. apply in_app_or in He as [He | [<- | []]]; [|eauto].
    apply Hkept. destruct rev; [assumption|].
    apply hideSorryMessage_children in He. assumption.
  - intros He. apply hideSorryMessage_children in He. auto.
Qed.

Lemma updateResults_filter_le (P : element -> bool) (l : list jsstring)
    (query : jsstring) (w : widget) :
  attribute_test P -> (forall n v c, P (new_option n v c) = false) ->
  (forall n q, P (sorry_li n q) = false) ->
  List.length (filter P (children (updateResults rev cfg l query w)))
  <= List.length (filter P (children w)).
Proof.
  intros HP Hnew Hsorry. rewrite updateResults_kept.
  pose proof (kept_filter_le l query w P HP Hnew) as Hk.
  destruct (item_count (kept l query w) =? 0).
  - destruct (showSorryMessage_children rev cfg query (kept l query w))
      as [-> _].
    rewrite filter_app. simpl. rewrite Hsorry, app_nil_r.
    destruct rev; [assumption|].
    etransitivity; [apply hideSorryMessage_filter_le | assumption].
  - etransitivity; [apply hideSorryMessage_filter_le | assumption].
Qed.

Lemma replaceResults_well_formed (json_response : payload)
    (query : jsstring) (w : widget) :
  well_formed w -> well_formed (replaceResults rev cfg json_response query w).
Proof.
  intros Hwf.
  destruct (replaceResults_children rev cfg json_response query w)
    as (Hc & Hn & _).
  apply (updateResults_well_formed (getUniqueItemList json_response) query)
    in Hwf.
  destruct Hwf as [Hd Ha].
  pose proof (identifyOptions_children
                (updateResults rev cfg (getUniqueItemList json_response)
                   query w)) as Hv.
  constructor; rewrite Hc, ?Hn.
  - rewrite (variants_nid _ _ Hv). assumption.
  - rewrite Forall_forall in *. intros e He.
    destruct (variants_In _ _ _ Hv He) as (e1 & He1 & Hvar).
    rewrite (id_variant_nid _ _ Hvar). auto.
Qed.

Lemma replaceResults_origin (json_response : payload) (query : jsstring)
    (w : widget) (e : element) :
  In e (children (replaceResults rev cfg json_response query w)) ->
  survivor (children w) e \/ created e.
Proof.
  destruct (replaceResults_children rev cfg json_response query w)
    as (-> & _ & _).
  intros He.
  destruct (variants_In _ _ _ (identifyOptions_children _) He)
    as (e1 & He1 & Hvar).
  destruct (updateResults_origin _ _ _ _ He1)
    as [(e0 & He0 & E) | [(n & v & c & ->) | (n & ->)]].
  - left. exists e0. split; [assumption|]. split.
    + rewrite (id_variant_nid _ _ Hvar). symmetry.
      apply same_element_nid; assumption.
    + intros P [Ha Hb]. rewrite (id_variant_test P _ _ Hb Hvar).
      symmetry. apply same_element_test; assumption.
  - right. exists (new_option n v c). split; [assumption|]. left; eauto.
  - right. exists (sorry_li n query). split; [assumption|]. right; eauto.
Qed.

Lemma replaceResults_filter_le (P : element -> bool)
    (json_response : payload) (query : jsstring) (w : widget) :
  stable P -> (forall n v c, P (new_option n v c) = false) ->
  (forall n q, P (sorry_li n q) = false) ->
  List.length (filter P (children (replaceResults rev cfg json_response
                                     query w)))
  <= List.length (filter P (children w)).
Proof.
  intros [Ha Hb] Hnew Hsorry.
  destruct (replaceResults_children rev cfg json_response query w)
    as (-> & _ & _).
  pose proof (variants_filter P _ _ Hb (identifyOptions_children
                (updateResults rev cfg (getUniqueItemList json_response)
                   query w))) as Hv.
  apply Forall2_length in Hv. rewrite <- Hv.
  apply updateResults_filter_le; assumption.
Qed.

End RenderPass.

Lemma created_test (P : element -> bool) (e : element) :
  stable P -> (forall n v c, P (new_option n v c) = false) ->
  (forall n q, P (sorry_li n q) = false) ->
  created e -> P e = false.
Proof.
  intros [_ Hb] Hnew Hsorry (e1 & Hvar & [(n & v & c & ->) | (n & q & ->)]);
    rewrite (id_variant_test P _ _ Hb Hvar); auto.
Qed.

Lemma marked_stable : stable marked.
Proof. split; auto with dom. Qed.

Lemma activeSelector_stable : stable activeSelector.
Proof. split; auto with dom. Qed.

Lemma optionSelector_stable : stable optionSelector.
Proof. split; auto with dom. Qed.

(** ** Selection *)

Lemma select_children (cfg : config) (target : nat) (w : widget) :
  children (select cfg target w)
  = match lookup_node target (after_deselection cfg w) with
    | Some t =>
        if (0 <? item_count w)
           && negb (contains (classList t) (str "disabled"))
        then update_node target (selected cfg) (after_deselection cfg w)
        else after_deselection cfg w
    | None => after_deselection cfg w
    end
  /\ next_node (select cfg target w) = next_node w
  /\ item_count (select cfg target w) = item_count w.
Proof.
  unfold select, after_deselection.
  destruct (selectedOption w) as [p|]; cbn [children with_children item_count].
  - destruct (lookup_node target _) as [t|]; [|repeat split].
    destruct ((0 <? item_count w) && _); repeat split.
  - destruct (lookup_node target _) as [t|]; [|repeat split].
    destruct ((0 <? item_count w) && _); repeat split.
Qed.

Lemma activeSelector_marked (e : element) :
  activeSelector e = true -> marked e = true.
Proof.
  unfold activeSelector, marked, attr_is, has_attr.
  destruct (ariaSelected e); [reflexivity | discriminate].
Qed.

Lemma filter_singleton {A} (P : A -> bool) (l : list A) (x y : A) :
  List.length (filter P l) <= 1 -> In x l -> P x = true ->
  In y l -> P y = true -> x = y.
Proof.
  intros Hle Hx Px Hy Py.
  assert (In x (filter P l)) as Fx by (apply filter_In; auto).
  assert (In y (filter P l)) as Fy by (apply filter_In; auto).
  destruct (filter P l) as [|a [|b m]]; simpl in *; try lia; try tauto.
  intuition congruence.
Qed.

Lemma update_node_In_cases (n : nat) (f : element -> element)
    (l : list element) (x : element) :
  In x (update_node n f l) ->
  exists e, In e l /\ ((nid e <> n /\ x = e) \/ (nid e = n /\ x = f e)).
Proof.
  unfold update_node. rewrite in_map_iff. intros (e & E & He).
  exists e. split; [assumption|].
  destruct (Nat.eqb (nid e) n) eqn:En;
    [apply Nat.eqb_eq in En | apply Nat.eqb_neq in En]; auto.
Qed.

(** Once the previous selection is dealt with, nothing carries
    [aria-selected]. *)
Lemma after_deselection_unmarked (cfg : config) (w : widget) :
  (forall e, In e (children w) -> marked e = true -> activeSelector e = true) ->
  List.length (filter marked (children w)) <= 1 ->
  forall e, In e (after_deselection cfg w) -> marked e = false.
Proof.
  intros Htrue Honce e He. unfold after_deselection, selectedOption in He.
  destruct (find activeSelector (children w)) as [p|] eqn:Ef.
  - apply find_some in Ef as [Hp Ha].
    apply update_node_In_cases in He as (x & Hx & [[Hn ->]|[_ ->]]);
      [|reflexivity].
    destruct (marked x) eqn:Ex; [|reflexivity].
    exfalso. apply Hn. f_equal.
    eapply (filter_singleton marked); eauto using activeSelector_marked.
  - destruct (marked e) eqn:Ex; [|reflexivity].
    apply (find_none _ _ Ef) in He as Hn.
    rewrite (Htrue e He Ex) in Hn. discriminate.
Qed.

Lemma after_deselection_nid (cfg : config) (w : widget) :
  map nid (after_deselection cfg w) = map nid (children w).
Proof.
  unfold after_deselection. destruct (selectedOption w); [|reflexivity].
  apply update_node_nid. reflexivity.
Qed.

Lemma NoDup_nid_once (n : nat) (l : list element) :
  NoDup (map nid l) ->
  List.length (filter (fun e => Nat.eqb (nid e) n) l) <= 1.
Proof.
  induction l as [|e l IH]; simpl; intros Hd; [lia|].
  inversion Hd as [|? ? He Hl]; subst.
  destruct (Nat.eqb (nid e) n) eqn:En; [|auto]. simpl.
  apply Nat.eqb_eq in En.
  assert (filter (fun e => Nat.eqb (nid e) n) l = []) as ->; [|simpl; lia].
  destruct (filter _ l) as [|x m] eqn:Ef; [reflexivity|].
  assert (In x (filter (fun e => Nat.eqb (nid e) n) l)) as Hx
    by (rewrite Ef; left; reflexivity).
  apply filter_In in Hx as [Hx Ex]. apply Nat.eqb_eq in Ex.
  exfalso. apply He. rewrite En, <- Ex. apply in_map. assumption.
Qed.

Lemma update_node_marks (cfg : config) (n : nat) (l : list element) :
  (forall e, In e l -> marked e = false) ->
  filter marked (update_node n (selected cfg) l)
  = map (selected cfg) (filter (fun e => Nat.eqb (nid e) n) l).
Proof.
  induction l as [|e l IH]; simpl; intros Hu; [reflexivity|].
  destruct (Nat.eqb (nid e) n); simpl.
  - f_equal. apply IH. auto.
  - rewrite (Hu e (or_introl eq_refl)). apply IH. auto.
Qed.

Lemma select_one_selection (cfg : config) (target : nat) (w : widget) :
  one_selection w -> one_selection (select cfg target w).
Proof.
  intros [[Hd Ha] Htrue Honce].
  destruct (select_children cfg target w) as (Hc & Hn & _).
  pose proof (after_deselection_unmarked cfg w Htrue Honce) as Hun.
  pose proof (after_deselection_nid cfg w) as Hnid.
  assert (List.length (filter marked (after_deselection cfg w)) <= 1
          /\ forall e, In e (after_deselection cfg w) -> marked e = true ->
                       activeSelector e = true) as Hrest.
  { split.
    - destruct (filter marked (after_deselection cfg w)) as [|x m] eqn:Ef;
        [simpl; lia|].
      assert (In x (filter marked (after_deselection cfg w))) as Hx
        by (rewrite Ef; left; reflexivity).
      apply filter_In in Hx as [Hx Ex]. rewrite (Hun x Hx) in Ex.
      discriminate.
    - intros e He Ex. rewrite (Hun e He) in Ex. discriminate. }
  assert (map nid (children (select cfg target w)) = map nid (children w))
    as Hids.
  { rewrite Hc. destruct (lookup_node target _) as [t|]; [|assumption].
    destruct (_ && _); [|assumption].
    rewrite update_node_nid by reflexivity. assumption. }
  constructor.
  - constructor; [rewrite Hids; assumption|].
    rewrite Hn. clear -Ha Hids.
    rewrite Forall_forall in *. intros x Hx.
    apply (in_map nid) in Hx. rewrite Hids in Hx.
    apply in_map_iff in Hx as (y & <- & Hy). auto.
  - rewrite Hc. destruct (lookup_node target _) as [t|]; [|apply Hrest].
    destruct (_ && _); [|apply Hrest].
    intros x Hx Mx.
    apply update_node_In_cases in Hx as (y & Hy & [[_ ->]|[_ ->]]).
    + rewrite (Hun y Hy) in Mx. discriminate.
    + reflexivity.
  - rewrite Hc. destruct (lookup_node target _) as [t|]; [|apply Hrest].
    destruct (_ && _); [|apply Hrest].
    rewrite update_node_marks by assumption. rewrite length_map.
    apply NoDup_nid_once. rewrite Hnid. assumption.
Qed.


Lemma onArrowDownKeydown_one_selection (cfg : config) (w : widget) :
  one_selection w -> one_selection (onArrowDownKeydown cfg w).
Proof.
  unfold onArrowDownKeydown. destruct (sibling true w); [|auto].
  apply select_one_selection.
Qed.

Lemma onArrowUpKeydown_one_selection (cfg : config) (w : widget) :
  one_selection w -> one_selection (onArrowUpKeydown cfg w).
Proof.
  unfold onArrowUpKeydown. destruct (sibling false w); [|auto].
  apply select_one_selection.
Qed.

Lemma close_frame (w : widget) :
  children (close w) = children w /\ next_node (close w) = next_node w
  /\ item_count (close w) = item_count w.
Proof. unfold close. destruct (negb (resultsShown w)); repeat split. Qed.

Lemma onEscapeKeydown_one_selection (w : widget) :
  one_selection w -> one_selection (onEscapeKeydown w).
Proof.
  unfold onEscapeKeydown, hideAndRemoveOptions.
  destruct (negb (resultsShown w)); [auto|].
  intros [[Hd Ha] _ _]. destruct (close_frame w) as (_ & Hn & _).
  constructor; [constructor| |]; cbn [children with_children next_node];
    try constructor; simpl; auto; contradiction.
Qed.

Lemma replaceResults_one_selection `{CaseMapping} (rev : revision)
    (cfg : config) (json_response : payload) (query : jsstring) (w : widget) :
  one_selection w ->
  one_selection (replaceResults rev cfg json_response query w).
Proof.
  intros [Hwf Htrue Honce]. constructor.
  - apply replaceResults_well_formed; assumption.
  - intros e He Me.
    destruct (replaceResults_origin rev cfg json_response query w e He)
      as [(e0 & He0 & _ & Hsame) | Hcreated].
    + rewrite (Hsame _ activeSelector_stable).
      rewrite (Hsame _ marked_stable) in Me. auto.
    + rewrite (created_test marked e marked_stable) in Me;
        [discriminate | reflexivity | reflexivity | assumption].
  - etransitivity; [|exact Honce].
    apply replaceResults_filter_le;
      [apply marked_stable | reflexivity | reflexivity].
Qed.

Lemma perform_one_selection `{CaseMapping} (rev : revision) (cfg : config)
    (a : action) (w : widget) :
  one_selection w -> one_selection (perform rev cfg a w).
Proof.
  destruct a; simpl;
    auto using onArrowDownKeydown_one_selection,
      onArrowUpKeydown_one_selection, onEscapeKeydown_one_selection,
      replaceResults_one_selection.
Qed.

(** ** Arrow keys *)

Lemma item_at_nat {A} (l : list A) (n : nat) :
  item_at l (Z.of_nat n) = nth_error l n.
Proof.
  unfold item_at. destruct (Z.of_nat n <? 0)%Z eqn:E;
    [apply Z.ltb_lt in E; lia|].
  rewrite Nat2Z.id. reflexivity.
Qed.

Lemma item_at_negative {A} (l : list A) (i : Z) :
  (i < 0)%Z -> item_at l i = None.
Proof.
  intros Hi. unfold item_at. apply Z.ltb_lt in Hi. rewrite Hi. reflexivity.
Qed.

Lemma position_from_last (front : list element) (last : element) (i : Z) :
  NoDup (map nid (front ++ [last])) ->
  position_from (front ++ [last]) (nid last) i
  = (i + Z.of_nat (List.length front))%Z.
Proof.
  revert i. induction front as [|e front IH]; intros i Hd; simpl.
  - rewrite Nat.eqb_refl. lia.
  - simpl in Hd. inversion Hd as [|? ? He Hl]; subst.
    destruct (Nat.eqb (nid e) (nid last)) eqn:E.
    + apply Nat.eqb_eq in E. exfalso. apply He. rewrite E.
      rewrite map_app. apply in_or_app. right. left. reflexivity.
    + rewrite IH by assumption. lia.
Qed.

Lemma sibling_next_unselected (w : widget) (first : element)
    (rest : list element) :
  options w = first :: rest -> selectedOption w = None ->
  sibling true w = Some first.
Proof.
  intros Ho Hs. unfold sibling. rewrite Ho, Hs. reflexivity.
Qed.

Lemma sibling_previous_unselected (w : widget) (front : list element)
    (last : element) :
  options w = front ++ [last] -> selectedOption w = None ->
  sibling false w = Some last.
Proof.
  intros Ho Hs. unfold sibling. rewrite Ho, Hs. cbn [elements_indexOf].
  rewrite item_at_negative by lia.
  rewrite length_app. simpl.
  replace (Z.of_nat (List.length front + 1) - 1)%Z
    with (Z.of_nat (List.length front)) by lia.
  rewrite item_at_nat, nth_error_app2, Nat.sub_diag by lia. reflexivity.
Qed.

Lemma sibling_next_from_last (w : widget) (front : list element)
    (last s : element) :
  NoDup (map nid (children w)) ->
  options w = front ++ [last] -> selectedOption w = Some s ->
  nid s = nid last ->
  sibling true w = hd_error (options w).
Proof.
  intros Hd Ho Hs E. unfold sibling. rewrite Hs. cbn [elements_indexOf].
  assert (NoDup (map nid (options w))) as Hdo
    by (apply NoDup_map_filter; assumption).
  rewrite Ho in *. rewrite E, position_from_last by assumption.
  replace (0 + Z.of_nat (List.length front) + 1)%Z
    with (Z.of_nat (List.length front + 1)) by lia.
  rewrite item_at_nat.
  assert (nth_error (front ++ [last]) (List.length front + 1) = None) as ->
    by (apply nth_error_None; rewrite length_app; simpl; lia).
  change 0%Z with (Z.of_nat 0). rewrite item_at_nat.
  destruct (front ++ [last]); reflexivity.
Qed.

Lemma classList_remove_contains (l cs : list jsstring) (c : jsstring) :
  contains l c = false -> contains (classList_remove l cs) c = false.
Proof.
  intros Hc. destruct (contains (classList_remove l cs) c) eqn:E; auto.
  apply contains_In in E. unfold classList_remove in E.
  apply filter_In in E as [E _]. apply contains_In in E. congruence.
Qed.

Lemma find_selected (cfg : config) (n : nat) (l : list element) :
  (forall e, In e l -> marked e = false) ->
  (exists t, In t l /\ nid t = n) ->
  exists x, find activeSelector (update_node n (selected cfg) l) = Some x
            /\ nid x = n /\ exists t, In t l /\ x = selected cfg t.
Proof.
  induction l as [|e l IH]; intros Hu (t & Ht & En); [contradiction|].
  cbn [update_node map find]. destruct (Nat.eqb (nid e) n) eqn:E.
  - exists (selected cfg e). apply Nat.eqb_eq in E.
    split; [reflexivity|]. split; [exact E|].
    exists e. split; [left|]; reflexivity.
  - assert (activeSelector e = false) as ->.
    { destruct (activeSelector e) eqn:Ea; auto.
      apply activeSelector_marked in Ea.
      rewrite (Hu e (or_introl eq_refl)) in Ea. discriminate. }
    destruct Ht as [->|Ht]; [apply Nat.eqb_neq in E; contradiction|].
    destruct IH as (x & Hx & Hn & t' & Ht' & Ex);
      [intros; apply Hu; right; assumption | eauto |].
    exists x. split; [exact Hx|]. split; [exact Hn|].
    exists t'. split; [right|]; assumption.
Qed.

(** [select] on an element of the container that is not of class
    [disabled], with a positive [item_count]: the element becomes the
    selected one. *)
Lemma select_selects (cfg : config) (w : widget) (t : element) :
  one_selection w -> In t (children w) -> 0 < item_count w ->
  contains (classList t) (str "disabled") = false ->
  exists x, selectedOption (select cfg (nid t) w) = Some x
            /\ nid x = nid t /\ optionSelector x = optionSelector t.
Proof.
  intros [[Hd Ha] Htrue Honce] Ht Hcount Hclass.
  destruct (select_children cfg (nid t) w) as (Hc & _ & _).
  pose proof (after_deselection_unmarked cfg w Htrue Honce) as Hun.
  pose proof (after_deselection_nid cfg w) as Hnid.
  set (t' := if match selectedOption w with
                | Some p => Nat.eqb (nid t) (nid p)
                | None => false
                end
             then deselected cfg t else t).
  assert (In t' (after_deselection cfg w)) as Ht'.
  { unfold t', after_deselection. destruct (selectedOption w) as [p|];
      [apply update_node_keeps|]; assumption. }
  assert (nid t' = nid t) as En
    by (unfold t'; destruct (selectedOption w) as [p|];
        [destruct (Nat.eqb (nid t) (nid p))|]; reflexivity).
  assert (optionSelector t' = optionSelector t) as Eo
    by (unfold t'; destruct (selectedOption w) as [p|];
        [destruct (Nat.eqb (nid t) (nid p))|]; reflexivity).
  assert (contains (classList t') (str "disabled") = false) as Hclass'.
  { unfold t'. destruct (selectedOption w) as [p|]; [|assumption].
    destruct (Nat.eqb (nid t) (nid p)); [|assumption].
    apply classList_remove_contains. assumption. }
  assert (lookup_node (nid t) (after_deselection cfg w) = Some t') as Hl.
  { apply lookup_node_In; [rewrite Hnid|..]; assumption. }
  rewrite Hl, Hclass' in Hc. apply Nat.ltb_lt in Hcount. rewrite Hcount in Hc.
  cbn [andb negb] in Hc.
  destruct (find_selected cfg (nid t) (after_deselection cfg w) Hun)
    as (x & Hx & Hn & y & Hy & ->); [eauto|].
  exists (selected cfg y). unfold selectedOption. rewrite Hc.
  split; [assumption|]. split; [assumption|].
  assert (y = t') as ->; [|exact Eo].
  assert (lookup_node (nid t) (after_deselection cfg w) = Some y) as Hl'.
  { apply lookup_node_In; [rewrite Hnid|..]; assumption. }
  congruence.
Qed.

Lemma classList_add_keeps (cs l : list jsstring) (c : jsstring) :
  contains l c = true -> contains (classList_add l cs) c = true.
Proof.
  unfold classList_add. revert l.
  induction cs as [|x cs IH]; intros l Hc; cbn [fold_left]; [assumption|].
  apply IH. destruct (contains l x); [assumption|].
  apply contains_In. apply in_or_app. left. apply contains_In. assumption.
Qed.

Lemma classList_add_contains (cs l : list jsstring) (c : jsstring) :
  In c cs -> contains (classList_add l cs) c = true.
Proof.
  unfold classList_add. revert l.
  induction cs as [|x cs IH]; intros l Hc; [contradiction|].
  cbn [fold_left]. destruct Hc as [->|Hc]; [|apply IH; assumption].
  apply (classList_add_keeps cs).
  destruct (contains l c) eqn:E; [assumption|].
  apply contains_In. apply in_or_app. right. left. reflexivity.
Qed.

Lemma classList_remove_spec (l cs : list jsstring) (c : jsstring) :
  contains (classList_remove l cs) c
  = contains l c && negb (contains cs c).
Proof.
  unfold classList_remove.
  destruct (contains (filter _ l) c) eqn:E.
  - apply contains_In, filter_In in E. destruct E as [E1 E2].
    apply contains_In in E1. rewrite E1, E2. reflexivity.
  - destruct (contains l c) eqn:E1; [|reflexivity].
    destruct (contains cs c) eqn:E2; [reflexivity|].
    assert (contains (filter (fun c => negb (contains cs c)) l) c = true)
      as E'; [|congruence].
    apply contains_In, filter_In. split; [apply contains_In; assumption|].
    rewrite E2. reflexivity.
Qed.

(** [select] takes [aria-selected] and the highlight classes from the
    option selected before, when that is not its target, and leaves the
    other classes of that option. *)
Lemma select_unmarks_previous (cfg : config) (target : nat) (w : widget)
    (p : element) :
  selectedOption w = Some p -> nid p <> target ->
  exists x, In x (children (select cfg target w))
            /\ nid x = nid p
            /\ ariaSelected x = None
            /\ (forall c, In c (selectedClassesOrDefault cfg) ->
                  contains (classList x) c = false)
            /\ (forall c, ~ In c (selectedClassesOrDefault cfg) ->
                  contains (classList x) c = contains (classList p) c).
Proof.
  intros Hp Hne. exists (deselected cfg p).
  assert (In (deselected cfg p) (after_deselection cfg w)) as Hin.
  { unfold after_deselection. rewrite Hp.
    pose proof (find_some _ _ Hp) as [Hpin _].
    pose proof (update_node_keeps (nid p) (deselected cfg) _ p Hpin) as Hk.
    rewrite Nat.eqb_refl in Hk. exact Hk. }
  split; [|split; [reflexivity|split; [reflexivity|split]]].
  - destruct (select_children cfg target w) as (-> & _).
    destruct (lookup_node target (after_deselection cfg w)) as [t|];
      [|exact Hin].
    destruct (_ && _); [|exact Hin].
    pose proof (update_node_keeps target (selected cfg) _ _ Hin) as Hk.
    assert (Nat.eqb (nid (deselected cfg p)) target = false) as E
      by (apply Nat.eqb_neq; exact Hne).
    rewrite E in Hk. exact Hk.
  - intros c Hc. cbn [deselected classList with_classList].
    rewrite classList_remove_spec.
    apply contains_In in Hc. rewrite Hc. apply andb_false_r.
  - intros c Hc. cbn [deselected classList with_classList with_ariaSelected].
    rewrite classList_remove_spec.
    destruct (contains (selectedClassesOrDefault cfg) c) eqn:E;
      [apply contains_In in E; contradiction|].
    apply andb_true_r.
Qed.

(** [select] marks its target -- an element of the container that is not
    of class [disabled], the item count being positive --: the target
    carries [aria-selected="true"] and the highlight classes, and is the
    only element with the attribute. *)
Lemma select_marks_target (cfg : config) (w : widget) (t : element) :
  one_selection w -> In t (children w) -> 0 < item_count w ->
  contains (classList t) (str "disabled") = false ->
  exists x, selectedOption (select cfg (nid t) w) = Some x
            /\ nid x = nid t
            /\ ariaSelected x = Some (str "true")
            /\ (forall c, In c (selectedClassesOrDefault cfg) ->
                  contains (classList x) c = true)
            /\ (forall y, In y (children (select cfg (nid t) w)) ->
                  marked y = true -> y = x).
Proof.
  intros Hone Ht Hcount Hclass.
  pose proof Hone as [[Hd Ha] Htrue Honce].
  destruct (select_children cfg (nid t) w) as (Hc & _ & _).
  pose proof (after_deselection_unmarked cfg w Htrue Honce) as Hun.
  pose proof (after_deselection_nid cfg w) as Hnid.
  set (t' := if match selectedOption w with
                | Some p => Nat.eqb (nid t) (nid p)
                | None => false
                end
             then deselected cfg t else t).
  assert (In t' (after_deselection cfg w)) as Ht'.
  { unfold t', after_deselection. destruct (selectedOption w) as [p|];
      [apply update_node_keeps|]; assumption. }
  assert (nid t' = nid t) as En
    by (unfold t'; destruct (selectedOption w) as [p|];
        [destruct (Nat.eqb (nid t) (nid p))|]; reflexivity).
  assert (contains (classList t') (str "disabled") = false) as Hclass'.
  { unfold t'. destruct (selectedOption w) as [p|]; [|assumption].
    destruct (Nat.eqb (nid t) (nid p)); [|assumption].
    apply classList_remove_contains. assumption. }
  assert (lookup_node (nid t) (after_deselection cfg w) = Some t') as Hl.
  { apply lookup_node_In; [rewrite Hnid|..]; assumption. }
  rewrite Hl, Hclass' in Hc. apply Nat.ltb_lt in Hcount. rewrite Hcount in Hc.
  cbn [andb negb] in Hc.
  destruct (find_selected cfg (nid t) (after_deselection cfg w) Hun)
    as (x & Hx & Hn & y & Hy & ->); [eauto|].
  exists (selected cfg y). unfold selectedOption. rewrite Hc.
  split; [assumption|]. split; [assumption|]. split; [reflexivity|]. split.
  - intros c Hcls. cbn [selected classList with_classList].
    apply classList_add_contains. assumption.
  - intros z Hz Mz. rewrite <- Hc in Hz.
    pose proof (select_one_selection cfg (nid t) w Hone) as [_ _ Honce'].
    apply (filter_singleton marked (children (select cfg (nid t) w)));
      try assumption.
    + rewrite Hc. apply find_some in Hx. tauto.
    + reflexivity.
Qed.

(** C9. Whatever sequence of arrow keys, escapes and render passes the
    controller goes through from a state in which the selection is in
    order, at most one element carries [aria-selected] afterwards.  A call
    of [select] on any target then keeps it so, the elements staying the
    same and in their order: the option selected before, when it is not
    the target, loses the attribute and the highlight classes and keeps
    its other classes; the target -- an element of the container that is
    not of class [disabled], the item count being positive -- carries
    [aria-selected="true"] and the highlight classes afterwards, and is
    the only element with the attribute. *)
Theorem selection_stays_single `{CaseMapping} (rev : revision) (cfg : config)
    (l : list action) (w : widget) :
  one_selection w ->
  let w' := perform_all rev cfg l w in
  List.length (filter marked (children w')) <= 1
  /\ one_selection w'
  /\ (forall e, In e (after_deselection cfg w') -> marked e = false)
  /\ (forall target,
        let s := select cfg target w' in
        List.length (filter marked (children s)) <= 1
        /\ map nid (children s) = map nid (children w')
        /\ (forall p,
              selectedOption w' = Some p -> nid p <> target ->
              exists x,
                In x (children s) /\ nid x = nid p
                /\ ariaSelected x = None
                /\ (forall c, In c (selectedClassesOrDefault cfg) ->
                      contains (classList x) c = false)
                /\ (forall c, ~ In c (selectedClassesOrDefault cfg) ->
                      contains (classList x) c = contains (classList p) c))
        /\ (forall t,
              In t (children w') -> nid t = target ->
              0 < item_count w' ->
              contains (classList t) (str "disabled") = false ->
              exists x,
                selectedOption s = Some x /\ nid x = target
                /\ ariaSelected x = Some (str "true")
                /\ (forall c, In c (selectedClassesOrDefault cfg) ->
                      contains (classList x) c = true)
                /\ (forall y, In y (children s) -> marked y = true ->
                      y = x))).
Proof.
  intros Hw w'.
  assert (one_selection w') as Hend.
  { unfold w', perform_all. clear w'. revert w Hw.
    induction l as [|a l IH]; intros w Hw; simpl; [assumption|].
    apply IH, perform_one_selection, Hw. }
  split; [apply Hend|]. split; [assumption|]. split.
  - apply after_deselection_unmarked; apply Hend.
  - intros target s. split; [apply select_one_selection, Hend|]. split.
    + unfold s. destruct (select_children cfg target w') as (-> & _).
      pose proof (after_deselection_nid cfg w') as Hnid.
      destruct (lookup_node target _) as [t|]; [|assumption].
      destruct (_ && _); [|assumption].
      rewrite update_node_nid by reflexivity. assumption.
    + split.
      * intros p Hp Hne. apply select_unmarks_previous; assumption.
      * intros t Ht <- Hcount Hclass.
        apply select_marks_target; assumption.
Qed.

Lemma one_selection_closed_empty : one_selection closed_empty.
Proof.
  constructor; [constructor| |]; simpl; try constructor; auto;
    contradiction.
Qed.

Lemma selection_stays_single_witness :
  one_selection closed_empty
  /\ List.length
       (filter marked
          (children
             (perform_all Plain default_config
                [Render answer_jo (str "jo"); ArrowDown; ArrowDown;
                 Render answer_j (str "j"); ArrowUp]
                closed_empty))) <= 1.
Proof.
  split; [exact one_selection_closed_empty|].
  exact (proj1 (selection_stays_single Plain default_config _ closed_empty
                  one_selection_closed_empty)).
Defined.

Lemma select_selection_enabled (cfg : config) (w : widget) (t : element) :
  selection_enabled w -> In t (options w) ->
  selection_enabled (select cfg (nid t) w).
Proof.
  intros [Hone Hopt] Ht. pose proof Hone as [[Hd Ha] Htrue Honce].
  constructor; [apply select_one_selection; assumption|].
  destruct (select_children cfg (nid t) w) as (Hc & _ & _).
  pose proof (after_deselection_unmarked cfg w Htrue Honce) as Hun.
  pose proof (after_deselection_nid cfg w) as Hnid.
  apply options_In in Ht as [Ht Ho].
  assert (forall x, In x (after_deselection cfg w) -> nid x = nid t ->
                    optionSelector x = true) as Hsame.
  { intros x Hx En. unfold after_deselection in Hx.
    assert (exists y, In y (children w) /\ nid y = nid x
                      /\ optionSelector x = optionSelector y)
      as (y & Hy & Eny & Eo).
    { destruct (selectedOption w) as [p|]; [|eauto].
      apply update_node_In_cases in Hx as (y & Hy & [[_ ->]|[_ ->]]);
        exists y; auto. }
    rewrite Eo.
    assert (y = t) as ->; [|assumption].
    pose proof (lookup_node_In (nid t) _ t Hd Ht eq_refl) as L1.
    pose proof (lookup_node_In (nid t) _ y Hd Hy ltac:(congruence)) as L2.
    congruence. }
  rewrite Hc. intros e He Me.
  destruct (lookup_node (nid t) (after_deselection cfg w)) as [t'|];
    [|rewrite (Hun e He) in Me; discriminate].
  destruct (_ && _); [|rewrite (Hun e He) in Me; discriminate].
  apply update_node_In_cases in He as (y & Hy & [[_ ->]|[En ->]]).
  - rewrite (Hun y Hy) in Me. discriminate.
  - change (optionSelector (selected cfg y)) with (optionSelector y). auto.
Qed.

Lemma sibling_option (next : bool) (w : widget) (item : element) :
  sibling next w = Some item -> In item (options w).
Proof.
  unfold sibling, item_at. intros Hs.
  repeat match type of Hs with
         | context [if ?c then _ else _] => destruct c
         | context [match ?x with _ => _ end] => destruct x eqn:?
         end;
    repeat match goal with
           | E : nth_error _ _ = Some _ |- _ => apply nth_error_In in E
           end; congruence.
Qed.

Lemma onArrowDownKeydown_selection_enabled (cfg : config) (w : widget) :
  selection_enabled w -> selection_enabled (onArrowDownKeydown cfg w).
Proof.
  unfold onArrowDownKeydown. destruct (sibling true w) as [item|] eqn:E;
    [|auto].
  intros Hw. apply select_selection_enabled; [assumption|].
  eapply sibling_option; eassumption.
Qed.

Lemma onArrowUpKeydown_selection_enabled (cfg : config) (w : widget) :
  selection_enabled w -> selection_enabled (onArrowUpKeydown cfg w).
Proof.
  unfold onArrowUpKeydown. destruct (sibling false w) as [item|] eqn:E;
    [|auto].
  intros Hw. apply select_selection_enabled; [assumption|].
  eapply sibling_option; eassumption.
Qed.

Lemma onEscapeKeydown_selection_enabled (w : widget) :
  selection_enabled w -> selection_enabled (onEscapeKeydown w).
Proof.
  intros [Hone Hopt].
  constructor; [apply onEscapeKeydown_one_selection; assumption|].
  unfold onEscapeKeydown, hideAndRemoveOptions.
  destruct (negb (resultsShown w)); [assumption|].
  cbn [children with_children]. contradiction.
Qed.

Lemma replaceResults_selection_enabled `{CaseMapping} (rev : revision)
    (cfg : config) (json_response : payload) (query : jsstring) (w : widget) :
  selection_enabled w ->
  selection_enabled (replaceResults rev cfg json_response query w).
Proof.
  intros [Hone Hopt].
  constructor; [apply replaceResults_one_selection; assumption|].
  intros e He Me.
  destruct (replaceResults_origin rev cfg json_response query w e He)
    as [(e0 & He0 & _ & Hsame) | Hcreated].
  - rewrite (Hsame _ optionSelector_stable).
    rewrite (Hsame _ marked_stable) in Me. auto.
  - rewrite (created_test marked e marked_stable) in Me;
      [discriminate | reflexivity | reflexivity | assumption].
Qed.

Lemma perform_selection_enabled `{CaseMapping} (rev : revision)
    (cfg : config) (a : action) (w : widget) :
  selection_enabled w -> selection_enabled (perform rev cfg a w).
Proof.
  destruct a; simpl;
    auto using onArrowDownKeydown_selection_enabled,
      onArrowUpKeydown_selection_enabled, onEscapeKeydown_selection_enabled,
      replaceResults_selection_enabled.
Qed.

Lemma perform_all_selection_enabled `{CaseMapping} (rev : revision)
    (cfg : config) (l : list action) (w : widget) :
  selection_enabled w -> selection_enabled (perform_all rev cfg l w).
Proof.
  unfold perform_all. revert w.
  induction l as [|a l IH]; intros w Hw; simpl; [assumption|].
  apply IH, perform_selection_enabled, Hw.
Qed.

Lemma optionSelector_enabled (e : element) :
  optionSelector e = true ->
  ariaDisabled e = None /\ forall n q, e <> sorry_li n q.
Proof.
  intros Ho. split.
  - unfold optionSelector in Ho. apply andb_true_iff in Ho as [_ Ho].
    destruct (ariaDisabled e); [discriminate | reflexivity].
  - intros n q ->. discriminate.
Qed.

(** C6. On a rendered option list: ArrowDown without a selection selects
    the first enabled option; ArrowDown on the last option selects the
    first; ArrowUp without a selection selects the last.  Whatever
    sequence of arrow keys, escapes and render passes follows, the
    selected element is an enabled option, never the placeholder. *)
Theorem arrow_keys_move_selection `{CaseMapping} (rev : revision)
    (cfg : config) (w : widget) :
  rendered_list w ->
  (forall first rest,
     options w = first :: rest -> selectedOption w = None ->
     option_map nid (selectedOption (onArrowDownKeydown cfg w))
     = Some (nid first))
  /\ (forall front last,
        options w = front ++ [last] ->
        option_map nid (selectedOption w) = Some (nid last) ->
        option_map nid (selectedOption (onArrowDownKeydown cfg w))
        = option_map nid (hd_error (options w)))
  /\ (forall front last,
        options w = front ++ [last] -> selectedOption w = None ->
        option_map nid (selectedOption (onArrowUpKeydown cfg w))
        = Some (nid last))
  /\ (forall (l : list action) e,
        selectedOption (perform_all rev cfg l w) = Some e ->
        optionSelector e = true /\ ariaDisabled e = None
        /\ forall n q, e <> sorry_li n q).
Proof.
  intros [Hsel Hcount Hclass].
  pose proof Hsel as [Hone _]. pose proof Hone as [[Hd _] _ _].
  assert (forall next item,
            sibling next w = Some item ->
            option_map nid (selectedOption (select cfg (nid item) w))
            = Some (nid item)) as Hselect.
  { intros next item Hs. apply sibling_option in Hs.
    assert (options w <> []) as Hne by (intros E; rewrite E in Hs; inversion Hs).
    pose proof (Hclass item Hs) as Hc.
    apply options_In in Hs as [Hin _].
    destruct (select_selects cfg w item Hone Hin (Hcount Hne) Hc)
      as (x & -> & En & _).
    simpl. congruence. }
  split; [|split; [|split]].
  - intros first rest Ho Hs. unfold onArrowDownKeydown.
    rewrite (sibling_next_unselected w first rest Ho Hs).
    eapply Hselect, sibling_next_unselected; eassumption.
  - intros front last Ho Hs. unfold onArrowDownKeydown.
    destruct (selectedOption w) as [s|] eqn:Es; [|discriminate].
    simpl in Hs. injection Hs as Hs.
    rewrite (sibling_next_from_last w front last s Hd Ho Es Hs).
    destruct (hd_error (options w)) as [first|] eqn:Eh.
    + simpl. apply (Hselect true).
      rewrite (sibling_next_from_last w front last s Hd Ho Es Hs).
      assumption.
    + rewrite Ho in Eh. destruct front; discriminate.
  - intros front last Ho Hs. unfold onArrowUpKeydown.
    rewrite (sibling_previous_unselected w front last Ho Hs).
    eapply Hselect, sibling_previous_unselected; eassumption.
  - intros l e He.
    destruct (perform_all_selection_enabled rev cfg l w Hsel)
      as [[_ Htrue _] Hopt].
    unfold selectedOption in He. apply find_some in He as [Hin Ha].
    assert (optionSelector e = true) as Ho
      by (apply Hopt; [assumption | apply activeSelector_marked; assumption]).
    split; [assumption|]. apply optionSelector_enabled; assumption.
Qed.

Lemma disabled_class_stable :
  stable (fun e => contains (classList e) (str "disabled")).
Proof. split; intros e x; reflexivity. Qed.

Lemma rendered_list_closed_empty : rendered_list closed_empty.
Proof.
  constructor; [constructor|..].
  - exact one_selection_closed_empty.
  - simpl. contradiction.
  - intros Hne. exfalso. apply Hne. reflexivity.
  - simpl. contradiction.
Qed.

(** A render pass makes a rendered option list of a rendered option
    list. *)
Lemma replaceResults_rendered_list `{CaseMapping} (rev : revision)
    (cfg : config) (json_response : payload) (query : jsstring) (w : widget) :
  rendered_list w ->
  rendered_list (replaceResults rev cfg json_response query w).
Proof.
  intros [Hsel Hcount Hclass]. constructor.
  - apply replaceResults_selection_enabled; assumption.
  - intros Hne.
    destruct (replaceResults_children rev cfg json_response query w)
      as (Hc & _ & ->).
    set (l := getUniqueItemList json_response) in *.
    assert (item_count (updateResults rev cfg l query w)
            = List.length (rendered_items query l)) as ->.
    { rewrite <- (kept_item_count l query w), updateResults_kept.
      destruct (item_count (kept l query w) =? 0).
      - apply showSorryMessage_frame.
      - apply hideSorryMessage_frame. }
    destruct (rendered_items query l) as [|v r] eqn:Er; [|simpl; lia].
    exfalso. apply Hne. unfold options. rewrite Hc.
    destruct (updateResults_nothing_rendered rev cfg l query w Er)
      as [Hnone _].
    pose proof (variants_filter optionSelector _ _ optionSelector_blind
                  (identifyOptions_children
                     (updateResults rev cfg l query w))) as Hv.
    unfold options in Hnone. rewrite Hnone in Hv. inversion Hv. reflexivity.
  - intros e He. apply options_In in He as [He Ho].
    destruct (replaceResults_origin rev cfg json_response query w e He)
      as [(e0 & He0 & _ & Hsame) | (e1 & Hvar & Hnew)].
    + rewrite (Hsame _ disabled_class_stable). apply Hclass.
      apply options_In. split; [assumption|].
      rewrite <- (Hsame _ optionSelector_stable). assumption.
    + destruct disabled_class_stable as [_ Hb].
      rewrite (id_variant_test _ _ _ Hb Hvar).
      rewrite (id_variant_test _ _ _ optionSelector_blind Hvar) in Ho.
      destruct Hnew as [(n & v & c & ->) | (n & q & ->)];
        [reflexivity | discriminate].
Qed.

Lemma arrow_keys_move_selection_witness :
  rendered_list
    (replaceResults Plain default_config answer_jo (str "jo") closed_empty)
  /\ option_map nid
       (selectedOption
          (onArrowDownKeydown default_config
             (replaceResults Plain default_config answer_jo (str "jo")
                closed_empty))) = Some 0.
Proof.
  assert (rendered_list
            (replaceResults Plain default_config answer_jo (str "jo")
               closed_empty)) as Hr
    by (apply replaceResults_rendered_list, rendered_list_closed_empty).
  split; [exact Hr|].
  destruct (arrow_keys_move_selection Plain default_config _ Hr)
    as (Hdown & _).
  exact (Hdown
           (hd (sorry_li 0 [])
              (options
                 (replaceResults Plain default_config answer_jo (str "jo")
                    closed_empty)))
           (tl
              (options
                 (replaceResults Plain default_config answer_jo (str "jo")
                    closed_empty)))
           eq_refl eq_refl).
Defined.

(** ** A second render pass *)

Lemma same_elements_update (l0 l : list element) (n : nat) (c : list node) :
  Forall2 same_element l0 l ->
  Forall2 same_element l0 (update_node n (with_childNodes c) l).
Proof.
  induction 1; simpl; constructor; auto.
  destruct (Nat.eqb (nid y) n); [|assumption].
  eapply same_element_trans; [eassumption | apply same_element_content].
Qed.

Lemma same_elements_refl (l : list element) : Forall2 same_element l l.
Proof. induction l; constructor; auto using same_element_refl. Qed.

Lemma same_elements_filter (P : element -> bool) (l l' : list element) :
  attribute_test P -> Forall2 same_element l l' ->
  Forall2 same_element (filter P l) (filter P l').
Proof.
  intros HP. induction 1; simpl; [constructor|].
  rewrite <- (same_element_test P x y HP H).
  destruct (P x); [constructor|]; assumption.
Qed.

Lemma find_existing_present (existing_lis : list element) (v : jsstring) :
  (exists e, In e existing_lis /\ autocompleteValue e = Some v) ->
  exists li, find_existing existing_lis v = Some li.
Proof.
  intros (e & He & Ev). unfold find_existing.
  destruct (find _ existing_lis) as [li|] eqn:Ef; [eauto|].
  apply (find_none _ _ Ef) in He. unfold attr_is in He.
  rewrite Ev, jseq_refl in He. discriminate.
Qed.

Section SecondPass.
Context `{CaseMapping}.
Variables (rev : revision) (cfg : config).
Variables (l : list jsstring) (query : jsstring).

(** When every rendered item finds its option, the loop creates nothing:
    it only replaces child nodes. *)
Lemma render_loop_reuses (w : widget) :
  (forall v, In v (rendered_items query l) ->
     exists e, In e (options w) /\ autocompleteValue e = Some v) ->
  Forall2 same_element (children w) (r_children (render_loop l query w))
  /\ r_next_node (render_loop l query w) = next_node w.
Proof.
  unfold render_loop.
  assert (Forall2 same_element (children w) (r_children (render_start w))
          /\ r_next_node (render_start w) = next_node w) as Hstart
    by (split; [apply same_elements_refl | reflexivity]).
  revert Hstart. generalize (render_start w) as rs.
  induction l as [|item items IH]; intros rs Hrs Hfound; simpl;
    [assumption|].
  apply IH.
  - unfold render_item.
    destruct (highlighted (toLowerCase query) query item) as [content|] eqn:Eh;
      [|assumption].
    destruct (find_existing_present (options w) item) as (li & ->).
    { apply Hfound. unfold rendered_items. simpl. rewrite Eh.
      left. reflexivity. }
    cbn [r_children r_next_node]. destruct Hrs as [Hs Hn].
    split; [apply same_elements_update|]; assumption.
  - intros v Hv. apply Hfound. unfold rendered_items in *. simpl.
    destruct (highlighted (toLowerCase query) query item);
      [right|]; assumption.
Qed.

(** On a container that shows the items, a render pass for the same items
    and query leaves every element in place. *)
Lemma updateResults_shown (w : widget) :
  shows rev l query w ->
  Forall2 same_element (children w)
    (children (updateResults rev cfg l query w))
  /\ next_node (updateResults rev cfg l query w) = next_node w.
Proof.
  intros [Hitems Hoptions Hnone Hsome].
  destruct (render_loop_reuses w Hitems) as [Hsame Hnext].
  destruct (loop_inv_end w query l) as [_ _ Hshown _ _].
  fold (render_loop l query w) in Hshown.
  assert (children (kept l query w) = r_children (render_loop l query w))
    as Hkept.
  { cbn [kept children]. unfold kept_children.
    apply remove_stale_all_kept. intros li Hli.
    destruct (Hoptions li Hli) as (v & Ev & Hv).
    unfold stale. rewrite Ev, Hshown.
    apply negb_false_iff, includes_In. assumption. }
  assert (hideSorryMessage rev (kept l query w) = kept l query w) as Hhide.
  { apply hideSorryMessage_unchanged. rewrite Hkept.
    pose proof (same_elements_filter _ _ _ (placeholderSelector_test rev)
                  Hsame) as Hf.
    rewrite Hnone in Hf. inversion Hf. reflexivity. }
  rewrite updateResults_kept, kept_item_count.
  destruct (rendered_items query l) as [|v r]; [congruence|].
  cbn [List.length Nat.eqb]. rewrite Hhide, Hkept.
  split; assumption.
Qed.

(** A render pass that renders something makes the container show the
    items, provided it held at most one placeholder and no option that the
    placeholder's selector matches. *)
Lemma updateResults_shows (w : widget) :
  well_formed w ->
  (forall e, In e (children w) -> placeholderSelector rev e = true ->
             optionSelector e = false) ->
  List.length (filter (placeholderSelector rev) (children w)) <= 1 ->
  rendered_items query l <> [] ->
  shows rev l query (updateResults rev cfg l query w).
Proof.
  intros Hwf Hsep Hone Hsome.
  assert (updateResults rev cfg l query w
          = hideSorryMessage rev (kept l query w)) as ->.
  { rewrite updateResults_kept, kept_item_count.
    destruct (rendered_items query l); [congruence | reflexivity]. }
  assert (forall e, In e (children (kept l query w)) ->
                    placeholderSelector rev e = true ->
                    optionSelector e = false) as Hsep'.
  { intros e He Hp.
    destruct (kept_children_origin l query w e He)
      as [(e0 & He0 & E) | (n & v & c & -> & _)].
    - rewrite <- (same_element_test _ _ _ optionSelector_test E).
      apply Hsep; [assumption|].
      rewrite (same_element_test _ _ _ (placeholderSelector_test rev) E).
      assumption.
    - rewrite new_option_placeholder in Hp. discriminate. }
  assert (forall e, In e (options (kept l query w)) ->
                    In e (options (hideSorryMessage rev (kept l query w))))
    as Hstay.
  { intros e He. apply options_In in He as [He Ho].
    apply options_In. split; [|assumption].
    unfold hideSorryMessage.
    destruct (find (placeholderSelector rev) (children (kept l query w)))
      as [p|] eqn:Ef; [|assumption].
    cbn [children with_children]. apply removeChild_In.
    split; [assumption|]. intros En.
    apply find_some in Ef as [Hp Pp].
    assert (e = p) as ->.
    { destruct (kept_well_formed l query w Hwf) as [Hd _].
      pose proof (lookup_node_In (nid p) _ p Hd Hp eq_refl) as L1.
      pose proof (lookup_node_In (nid p) _ e Hd He En) as L2.
      congruence. }
    rewrite (Hsep' p Hp Pp) in Ho. discriminate. }
  constructor.
  - intros v Hv.
    destruct (kept_rendered_present l query w v Hwf Hv) as (e & He & Ev).
    eauto.
  - intros e He. apply (kept_options_shown l query w).
    apply options_In in He as [He Ho]. apply options_In.
    split; [|assumption]. apply hideSorryMessage_children in He. assumption.
  - apply hideSorryMessage_none.
    etransitivity; [|exact Hone].
    apply kept_filter_le;
      [apply placeholderSelector_test | apply new_option_placeholder].
  - assumption.
Qed.

End SecondPass.

Lemma identify_identified (prefix : jsstring) (l : list element) (n : nat)
    (e : element) :
  In e (fst (identify prefix l n)) -> optionSelector e = true ->
  has_attr (elem_id e) = true.
Proof.
  revert n. induction l as [|x l IH]; intros n; simpl; [contradiction|].
  destruct (optionSelector x && negb (has_attr (elem_id x))) eqn:E.
  - specialize (IH (S n)). destruct (identify prefix l (S n)); simpl in *.
    intros [<-|He] Ho; [reflexivity | auto].
  - specialize (IH n). destruct (identify prefix l n); simpl in *.
    intros [<-|He] Ho; [|auto].
    rewrite Ho in E. simpl in E. apply negb_false_iff in E. assumption.
Qed.

Lemma identify_unchanged (prefix : jsstring) (l : list element) (n : nat) :
  (forall e, In e l -> optionSelector e = true ->
             has_attr (elem_id e) = true) ->
  identify prefix l n = (l, n).
Proof.
  induction l as [|x l IH]; intros Hid; simpl; [reflexivity|].
  assert (optionSelector x && negb (has_attr (elem_id x)) = false) as ->.
  { destruct (optionSelector x) eqn:Ho; [|reflexivity].
    rewrite (Hid x (or_introl eq_refl) Ho). reflexivity. }
  rewrite IH; [reflexivity|]. intros e He. apply Hid. right; assumption.
Qed.

Lemma identifyOptions_unchanged (w : widget) :
  (forall e, In e (children w) -> optionSelector e = true ->
             has_attr (elem_id e) = true) ->
  children (identifyOptions w) = children w.
Proof.
  intros Hid. unfold identifyOptions.
  rewrite (identify_unchanged _ _ _ Hid). reflexivity.
Qed.

Lemma identifyOptions_identified (w : widget) (e : element) :
  In e (children (identifyOptions w)) -> optionSelector e = true ->
  has_attr (elem_id e) = true.
Proof.
  unfold identifyOptions.
  match goal with
  | |- context [identify ?p ?l ?n] =>
      pose proof (identify_identified p l n e) as Hi;
      destruct (identify p l n)
  end. exact Hi.
Qed.

Lemma Forall2_In_left {A B} (R : A -> B -> Prop) (l : list A) (l' : list B)
    (x : A) :
  Forall2 R l l' -> In x l -> exists y, In y l' /\ R x y.
Proof.
  induction 1; simpl; [contradiction|].
  intros [<-|Hin]; [eauto|]. destruct (IHForall2 Hin) as (z & Hz & Rz); eauto.
Qed.

Lemma Forall2_In_right {A B} (R : A -> B -> Prop) (l : list A) (l' : list B)
    (y : B) :
  Forall2 R l l' -> In y l' -> exists x, In x l /\ R x y.
Proof.
  induction 1; simpl; [contradiction|].
  intros [<-|Hin]; [eauto|]. destruct (IHForall2 Hin) as (z & Hz & Rz); eauto.
Qed.

Lemma id_variant_value (e e' : element) :
  id_variant e e' -> autocompleteValue e' = autocompleteValue e.
Proof. intros [->|(i & _ & ->)]; reflexivity. Qed.

(** Giving the options their [id] does not change what is shown. *)
Lemma shows_variants `{CaseMapping} (rev : revision) (l : list jsstring)
    (query : jsstring) (u w : widget) :
  Forall2 id_variant (children u) (children w) ->
  shows rev l query u -> shows rev l query w.
Proof.
  intros Hv [Hitems Hoptions Hnone Hsome]. constructor.
  - intros v Hin. destruct (Hitems v Hin) as (e & He & Ev).
    apply options_In in He as [He Ho].
    destruct (Forall2_In_left _ _ _ _ Hv He) as (e' & He' & Hvar).
    exists e'. split.
    + apply options_In. split; [assumption|].
      rewrite (id_variant_test _ _ _ optionSelector_blind Hvar). assumption.
    + rewrite (id_variant_value _ _ Hvar). assumption.
  - intros e' He'. apply options_In in He' as [He' Ho].
    destruct (Forall2_In_right _ _ _ _ Hv He') as (e & He & Hvar).
    rewrite (id_variant_value _ _ Hvar). apply Hoptions.
    apply options_In. split; [assumption|].
    rewrite <- (id_variant_test _ _ _ optionSelector_blind Hvar). assumption.
  - pose proof (variants_filter _ _ _ (placeholderSelector_blind rev) Hv)
      as Hf.
    rewrite Hnone in Hf. inversion Hf. reflexivity.
  - assumption.
Qed.

Lemma same_element_id (e e' : element) :
  same_element e e' -> elem_id e = elem_id e'.
Proof. intros E. apply (f_equal elem_id) in E. exact E. Qed.

(** A render pass in which nothing renders ends the container with a
    placeholder created in the pass. *)
Lemma replaceResults_new_placeholder `{CaseMapping} (rev : revision)
    (cfg : config) (json_response : payload) (query : jsstring) (w : widget) :
  rendered_items query (getUniqueItemList json_response) = [] ->
  (exists front,
     children (replaceResults rev cfg json_response query w)
     = front ++ [sorry_li (next_node w) query])
  /\ next_node (replaceResults rev cfg json_response query w)
     = S (next_node w).
Proof.
  intros Hn.
  destruct (replaceResults_children rev cfg json_response query w)
    as (-> & -> & _).
  destruct (updateResults_nothing_rendered rev cfg _ query w Hn)
    as (Hopt & front & Hfront & _).
  rewrite (identifyOptions_no_option _ Hopt). split; [eauto|].
  rewrite updateResults_kept, kept_item_count, Hn. cbn [List.length Nat.eqb].
  destruct (showSorryMessage_children rev cfg query
              (kept (getUniqueItemList json_response) query w)) as [_ ->].
  cbn [kept next_node]. rewrite rendered_items_nil_loop by assumption.
  reflexivity.
Qed.

Lemma unallocated_nid (w : widget) :
  well_formed w -> ~ In (next_node w) (map nid (children w)).
Proof.
  intros [_ Ha] Hin. apply in_map_iff in Hin. destruct Hin as (e & E & He).
  rewrite Forall_forall in Ha. specialize (Ha e He). lia.
Qed.

(** C5, as the code has it, for a container whose elements are distinct.
    When at least one item renders, a second render pass with the same
    answer and query creates no element and removes none: the children are
    the same elements in the same order, with the same attributes, only
    their child nodes being replaced.  (The first pass starts from a
    container with at most one placeholder and no option that the
    placeholder's selector matches.)  When no item renders, each pass
    creates the placeholder anew: the pass ends the container with the
    placeholder for the query, an element that was not there before the
    pass. *)
Theorem second_pass_keeps_elements `{CaseMapping} (rev : revision)
    (cfg : config) (json_response : payload) (query : jsstring) (w : widget) :
  well_formed w ->
  let w1 := replaceResults rev cfg json_response query w in
  let w2 := replaceResults rev cfg json_response query w1 in
  (rendered_items query (getUniqueItemList json_response) <> [] ->
   (forall e, In e (children w) -> placeholderSelector rev e = true ->
              optionSelector e = false) ->
   List.length (filter (placeholderSelector rev) (children w)) <= 1 ->
   Forall2 same_element (children w1) (children w2)
   /\ map nid (children w2) = map nid (children w1)
   /\ next_node w2 = next_node w1)
  /\ (rendered_items query (getUniqueItemList json_response) = [] ->
      (exists front,
         children w1 = front ++ [sorry_li (next_node w) query])
      /\ ~ In (nid (sorry_li (next_node w) query)) (map nid (children w))
      /\ (exists front,
            children w2 = front ++ [sorry_li (next_node w1) query])
      /\ ~ In (nid (sorry_li (next_node w1) query)) (map nid (children w1))
      /\ next_node w1 = S (next_node w)
      /\ next_node w2 = S (next_node w1)).
Proof.
  intros Hwf w1 w2. split.
  - intros Hsome Hsep Hone.
    set (l := getUniqueItemList json_response) in *.
    destruct (replaceResults_children rev cfg json_response query w)
      as (Hc1 & Hn1 & _).
    destruct (replaceResults_children rev cfg json_response query w1)
      as (Hc2 & Hn2 & _).
    fold l w1 in Hc1, Hn1. fold l w2 in Hc2, Hn2.
    set (u1 := updateResults rev cfg l query w) in *.
    set (u2 := updateResults rev cfg l query w1) in *.
    assert (shows rev l query w1) as Hshows.
    { apply (shows_variants rev l query u1).
      - rewrite Hc1. apply identifyOptions_children.
      - apply updateResults_shows; assumption. }
    destruct (updateResults_shown rev cfg l query w1 Hshows) as [Hsame Hnext].
    fold u2 in Hsame, Hnext.
    assert (children w2 = children u2) as Hkeep.
    { rewrite Hc2. apply identifyOptions_unchanged. intros e2 He2 Ho2.
      destruct (Forall2_In_right _ _ _ _ Hsame He2) as (e1 & He1 & E).
      rewrite <- (same_element_id _ _ E).
      rewrite Hc1 in He1. apply (identifyOptions_identified u1); [assumption|].
      rewrite (same_element_test _ _ _ optionSelector_test E). assumption. }
    rewrite Hkeep, Hn2, Hnext. split; [assumption|]. split; [|reflexivity].
    clear -Hsame. induction Hsame; simpl; [reflexivity|].
    f_equal; [symmetry; apply same_element_nid|]; assumption.
  - intros Hnone.
    assert (well_formed w1) as Hwf1
      by (apply replaceResults_well_formed; assumption).
    destruct (replaceResults_new_placeholder rev cfg json_response query w
                Hnone) as [Hf1 Hn1].
    destruct (replaceResults_new_placeholder rev cfg json_response query w1
                Hnone) as [Hf2 Hn2].
    fold w1 in Hf1, Hn1. fold w2 in Hf2, Hn2.
    split; [exact Hf1|]. split; [exact (unallocated_nid w Hwf)|].
    split; [exact Hf2|]. split; [exact (unallocated_nid w1 Hwf1)|].
    split; assumption.
Qed.

Lemma second_pass_keeps_elements_witness :
  let w1 := replaceResults Plain default_config answer_jo (str "jo")
              closed_empty in
  let w2 := replaceResults Plain default_config answer_jo (str "jo") w1 in
  let v1 := replaceResults Caching default_config answer_nothing (str "x")
              closed_empty in
  let v2 := replaceResults Caching default_config answer_nothing (str "x")
              v1 in
  well_formed closed_empty
  /\ rendered_items (str "jo") (getUniqueItemList answer_jo) <> []
  /\ rendered_items (str "x") (getUniqueItemList answer_nothing) = []
  /\ (map nid (children w2) = map nid (children w1)
      /\ next_node w2 = next_node w1)
  /\ next_node v2 = S (next_node v1).
Proof.
  assert (well_formed closed_empty) as Hwf
    by (constructor; simpl; constructor).
  assert (rendered_items (str "jo") (getUniqueItemList answer_jo) <> [])
    as Hsome by (vm_compute; discriminate).
  assert (rendered_items (str "x") (getUniqueItemList answer_nothing) = [])
    as Hnone by reflexivity.
  intros w1 w2 v1 v2. split; [exact Hwf|]. split; [exact Hsome|].
  split; [exact Hnone|]. split.
  - refine (proj2 (proj1 (second_pass_keeps_elements Plain default_config
                            answer_jo (str "jo") closed_empty Hwf)
                     Hsome _ _)).
    + simpl. contradiction.
    + simpl. lia.
  - exact (proj2 (proj2 (proj2 (proj2 (proj2
             (proj2 (second_pass_keeps_elements Caching default_config
                       answer_nothing (str "x") closed_empty Hwf)
                Hnone)))))).
Defined.

(** C5 as stated fails: when nothing renders, a second pass with the same
    answer and query creates a placeholder anew -- next to the first one in
    [src/autocomplete.js], in its stead in the caching file. *)
Lemma second_pass_creates_placeholder :
  let pass rev := replaceResults rev default_config answer_nothing (str "x") in
  map nid (children (pass Plain closed_empty)) = [0]
  /\ map nid (children (pass Plain (pass Plain closed_empty))) = [0; 1]
  /\ map nid (children (pass Caching closed_empty)) = [0]
  /\ map nid (children (pass Caching (pass Caching closed_empty))) = [1]
  /\ next_node (pass Caching (pass Caching closed_empty))
     <> next_node (pass Caching closed_empty).
Proof. repeat split. vm_compute. discriminate. Qed.

(** ** Fetch cycles *)

Lemma find_awaiting (l : list task) (t : task) :
  NoDup (map t_signal l) -> In t l ->
  find (awaits (t_signal t) (t_phase t)) l = Some t.
Proof.
  induction l as [|x l IH]; simpl; intros Hd Hin; [contradiction|].
  inversion Hd as [|? ? Hx Hl]; subst.
  destruct Hin as [->|Hin].
  - unfold awaits. rewrite Nat.eqb_refl. destruct (t_phase t); reflexivity.
  - unfold awaits at 1.
    destruct (Nat.eqb (t_signal x) (t_signal t)) eqn:E; [|auto].
    apply Nat.eqb_eq in E. exfalso. apply Hx. rewrite E.
    apply in_map. assumption.
Qed.

Lemma await_json_In (l : list task) (t : task) :
  In t l ->
  In {| t_query := t_query t; t_signal := t_signal t; t_phase := AwaitJson |}
    (map (await_json (t_signal t)) l).
Proof.
  intros Hin. apply in_map_iff. exists t. split; [|assumption].
  unfold await_json. rewrite Nat.eqb_refl. reflexivity.
Qed.

Lemma await_json_signals (s : nat) (l : list task) :
  map t_signal (map (await_json s) l) = map t_signal l.
Proof.
  rewrite map_map. apply map_ext. intros t. unfold await_json.
  destruct (Nat.eqb (t_signal t) s); reflexivity.
Qed.

(** C7. A call of [fetchResults] dispatches [loadstart] and is suspended
    on its request.  While it waits for the response: a status that is not
    2xx raises an error, a failure in transport rejects; while it waits for
    the body: a body that cannot be read rejects.  In each case [error] and
    then [loadend] are dispatched and the promise of the call is rejected
    with the error.  A body that is read is rendered, then [load] and
    [loadend] are dispatched, without [error], and the promise is
    fulfilled. *)
Theorem fetch_cycle_events `{CaseMapping} (cfg : config)
    (rt : Fetching.runtime) (t : task) :
  NoDup (map t_signal (Fetching.suspended rt)) ->
  In t (Fetching.suspended rt) ->
  (forall query,
     hasUrlValue cfg = true ->
     let started := Fetching.step cfg (Query query) rt in
     exists rest,
       dispatched (Fetching.this started)
       = dispatched (Fetching.this rt) ++ loadstart :: rest
       /\ In {| t_query := query; t_signal := Fetching.next_controller rt;
                t_phase := AwaitFetch |} (Fetching.suspended started))
  /\ (t_phase t = AwaitFetch ->
      (forall status,
         response_ok status = false ->
         let rt' := Fetching.step cfg (Response (t_signal t) status) rt in
         dispatched (Fetching.this rt')
         = dispatched (Fetching.this rt) ++ [error; loadend]
         /\ Fetching.settled rt'
            = Fetching.settled rt ++ [(t_query t, Some (HttpError status))])
      /\ (let rt' := Fetching.step cfg (Failure (t_signal t)) rt in
          dispatched (Fetching.this rt')
          = dispatched (Fetching.this rt) ++ [error; loadend]
          /\ Fetching.settled rt'
             = Fetching.settled rt ++ [(t_query t, Some NetworkError)])
      /\ (forall status,
            response_ok status = true ->
            let rt' := Fetching.step cfg (Response (t_signal t) status) rt in
            Fetching.this rt' = Fetching.this rt
            /\ Fetching.settled rt' = Fetching.settled rt
            /\ NoDup (map t_signal (Fetching.suspended rt'))
            /\ In {| t_query := t_query t; t_signal := t_signal t;
                     t_phase := AwaitJson |} (Fetching.suspended rt')))
  /\ (t_phase t = AwaitJson ->
      (let rt' := Fetching.step cfg (Body (t_signal t) None) rt in
       dispatched (Fetching.this rt')
       = dispatched (Fetching.this rt) ++ [error; loadend]
       /\ Fetching.settled rt'
          = Fetching.settled rt ++ [(t_query t, Some BodyError)])
      /\ (forall json_response,
            let rt' :=
              Fetching.step cfg (Body (t_signal t) (Some json_response)) rt in
            Fetching.this rt'
            = dispatchEvent loadend
                (dispatchEvent load
                   (replaceResults Plain cfg json_response (t_query t)
                      (Fetching.this rt)))
            /\ dispatched (Fetching.this rt')
               = dispatched (Fetching.this rt)
                 ++ (if hidden (Fetching.this rt) then [toggle_open] else [])
                 ++ [load; loadend]
            /\ Fetching.settled rt'
               = Fetching.settled rt ++ [(t_query t, None)])).
Proof.
  intros Hd Hin. pose proof (find_awaiting _ _ Hd Hin) as Hfind.
  split; [|split].
  - intros query Hurl started. unfold started. cbn [Fetching.step].
    unfold Fetching.fetchResults. rewrite Hurl. cbn [negb].
    match goal with
    | |- context [fold_left ?f ?l ?a] =>
        assert (forall l' a',
                  (exists r, dispatched (Fetching.this (fold_left f l' a'))
                             = dispatched (Fetching.this a') ++ r)
                  /\ Fetching.suspended (fold_left f l' a')
                     = Fetching.suspended a') as Hfold
    end.
    { induction l' as [|x l' IH]; intros a'; simpl.
      - split; [exists []; rewrite app_nil_r|]; reflexivity.
      - destruct (IH (Fetching.reject AbortError x a')) as [(r & ->) ->].
        split; [|reflexivity].
        exists ([error; loadend] ++ r). simpl.
        rewrite <- !app_assoc. reflexivity. }
    match goal with
    | |- context [fold_left ?f ?l ?a] =>
        destruct (Hfold l a) as [(r & ->) ->]
    end.
    exists r. cbn [Fetching.this Fetching.suspended dispatched dispatchEvent].
    split; [rewrite <- app_assoc; reflexivity|].
    apply in_or_app. right. left. reflexivity.
  - intros Hphase. rewrite Hphase in Hfind. split; [|split].
    + intros status Hok rt'. unfold rt'. cbn [Fetching.step].
      rewrite Hfind. unfold Fetching.doFetch_resume. rewrite Hok.
      cbn. rewrite <- app_assoc. split; reflexivity.
    + intros rt'. unfold rt'. cbn [Fetching.step]. rewrite Hfind.
      cbn. rewrite <- app_assoc. split; reflexivity.
    + intros status Hok rt'. unfold rt'. cbn [Fetching.step].
      rewrite Hfind. unfold Fetching.doFetch_resume. rewrite Hok.
      cbn [negb Fetching.this Fetching.settled Fetching.suspended].
      split; [reflexivity|]. split; [reflexivity|].
      split; [rewrite await_json_signals; assumption|].
      apply await_json_In. assumption.
  - intros Hphase. rewrite Hphase in Hfind. split.
    + intros rt'. unfold rt'. cbn [Fetching.step]. rewrite Hfind.
      cbn. rewrite <- app_assoc. split; reflexivity.
    + intros json_response rt'. unfold rt'. cbn [Fetching.step].
      rewrite Hfind. cbn [Fetching.this Fetching.settled Fetching.drop].
      split; [reflexivity|]. split; [|reflexivity].
      unfold try_tail. cbn [dispatched dispatchEvent].
      destruct (replaceResults_opened Plain cfg json_response
                  (t_query t) (Fetching.this rt)) as (_ & _ & ->).
      rewrite <- !app_assoc. reflexivity.
Qed.

Lemma fetch_cycle_events_witness :
  let rt := Fetching.step default_config (Query (str "jo")) fetching_idle in
  let t := {| t_query := str "jo"; t_signal := 0; t_phase := AwaitFetch |} in
  NoDup (map t_signal (Fetching.suspended rt))
  /\ In t (Fetching.suspended rt)
  /\ dispatched
       (Fetching.this (Fetching.step default_config (Response 0 500) rt))
     = [loadstart; error; loadend].
Proof.
  intros rt t.
  assert (NoDup (map t_signal (Fetching.suspended rt))) as Hd
    by (simpl; constructor; [simpl; tauto | constructor]).
  assert (In t (Fetching.suspended rt)) as Hin by (left; reflexivity).
  split; [exact Hd|]. split; [exact Hin|].
  exact (proj1 (proj1 (proj1 (proj2 (fetch_cycle_events default_config rt t
                                       Hd Hin)) eq_refl) 500%N eq_refl)).
Defined.

(** C8, on two runs.  In [src/autocomplete.js] the controller is dropped
    as soon as the response's headers are there: a query made while the
    body of the previous answer is still being read aborts nothing, two
    requests are outstanding, and the earlier answer is rendered after the
    later query was made.  In the caching file a query answered from the
    cache aborts nothing either: the request of an earlier query goes on,
    and its answer is rendered after the later query's. *)
Theorem superseded_answer_is_rendered :
  (let rt :=
     Fetching.run default_config
       [Query (str "jo"); Response 0 200; Query (str "joh")] fetching_idle in
   let rt' := Fetching.step default_config (Body 0 (Some answer_jo)) rt in
   map t_query (Fetching.suspended rt) = [str "jo"; str "joh"]
   /\ Fetching.settled rt = []
   /\ map autocompleteValue (children (Fetching.this rt'))
      = [Some (str "Jo"); Some (str "Joan"); Some (str "John")]
   /\ map t_query (Fetching.suspended rt') = [str "joh"]
   /\ Fetching.settled rt' = [(str "jo", None)])
  /\ (let rt :=
        Cached.run default_config
          [Query (str "jo"); Response 0 200; Body 0 (Some partial_answer_jo);
           Query (str "joh"); Query (str "jo")] cached_idle in
      let rt' :=
        Cached.run default_config
          [Response 1 200; Body 1 (Some answer_joh)] rt in
      map t_query (Cached.suspended rt) = [str "joh"]
      /\ Cached.settled rt = [(str "jo", None); (str "jo", None)]
      /\ map autocompleteValue (children (Cached.this rt))
         = [Some (str "Joan"); Some (str "John")]
      /\ map autocompleteValue (children (Cached.this rt'))
         = [Some (str "John")]
      /\ Cached.settled rt'
         = [(str "jo", None); (str "jo", None); (str "joh", None)]).
Proof. split; repeat split. Qed.

(** * Further properties *)

(** ** [getUniqueItemList] *)

(** The merged list holds exactly the exact matches and the items, and
    holds nothing twice when neither list does. *)
Theorem getUniqueItemList_members (json_response : payload) :
  (forall x,
     In x (getUniqueItemList json_response)
     <-> In x (exact_items json_response) \/ In x (items json_response))
  /\ (NoDup (exact_items json_response) -> NoDup (items json_response) ->
      NoDup (getUniqueItemList json_response)).
Proof.
  unfold getUniqueItemList. split.
  - intros x. rewrite in_app_iff, filter_In, negb_true_iff.
    split; [tauto|]. intros [Hx|Hx]; [tauto|].
    destruct (includes (exact_items json_response) x) eqn:E; [|tauto].
    apply includes_In in E. tauto.
  - intros He Hi. apply NoDup_app; [assumption | apply NoDup_filter, Hi|].
    intros x Hx Ht. apply filter_In in Ht as [_ Ht].
    apply negb_true_iff in Ht. apply includes_In in Hx. congruence.
Qed.

Lemma getUniqueItemList_members_witness :
  NoDup (exact_items answer_jo) /\ NoDup (items answer_jo)
  /\ NoDup (getUniqueItemList answer_jo).
Proof.
  assert (NoDup (exact_items answer_jo)) as He
    by (repeat constructor; simpl; intuition discriminate).
  assert (NoDup (items answer_jo)) as Hi
    by (repeat constructor; simpl; intuition discriminate).
  split; [exact He|]. split; [exact Hi|].
  exact (proj2 (getUniqueItemList_members answer_jo) He Hi).
Defined.

(** ** A render pass on a container without options *)

Lemma insert_after_last (front back : list element) (x li : element) :
  ~ In (nid x) (map nid front) ->
  insert_after (nid x) li (front ++ x :: back) = front ++ x :: li :: back.
Proof.
  induction front as [|e front IH]; simpl; intros Hn.
  - rewrite Nat.eqb_refl. reflexivity.
  - destruct (Nat.eqb (nid e) (nid x)) eqn:E.
    + apply Nat.eqb_eq in E. tauto.
    + rewrite IH by tauto. reflexivity.
Qed.

Lemma highlighted_text `{CaseMapping} (query item : jsstring)
    (content : list node) :
  highlighted (toLowerCase query) query item = Some content ->
  flat_map node_text content = item.
Proof.
  intros Hh.
  destruct (highlighted_pieces query item content Hh)
    as (before & matched & after & -> & E).
  simpl. rewrite app_nil_r. exact E.
Qed.

Section FreshRender.
Context `{CaseMapping}.
Variables (n0 : nat) (query : jsstring) (old : list element).

Lemma fresh_loop_step (news : list element) (rs : render_state)
    (item : jsstring) :
  fresh_loop n0 query old news rs ->
  exists news',
    fresh_loop n0 query old news'
      (render_item [] (toLowerCase query) query rs item).
Proof.
  intros [Hch Hv Hi Hn Hc Hl Ho]. unfold render_item.
  destruct (highlighted (toLowerCase query) query item) as [content|] eqn:Eh;
    [|exists news; constructor; assumption].
  cbn [find_existing find].
  set (li := new_option (r_next_node rs) item content).
  assert (match last_li rs with
          | Some l => insert_after l li (r_children rs)
          | None => li :: r_children rs
          end = (news ++ [li]) ++ old) as Hins.
  { rewrite Hl, Hch. destruct (shown_items rs) as [|v shown] eqn:Es.
    - destruct news; [reflexivity | discriminate].
    - destruct news as [|e front] eqn:Ec using rev_ind;
        [discriminate|]. clear IHfront.
      cbn [List.length] in Hi. rewrite map_app, seq_S in Hi. simpl in Hi.
      apply app_inj_tail in Hi as [Hfront Hlast].
      replace (n0 + List.length (v :: shown) - 1) with (nid e)
        by (simpl in *; lia).
      rewrite <- !app_assoc. simpl. apply insert_after_last.
      rewrite Hfront, Hlast, in_seq. lia. }
  exists (news ++ [li]).
  constructor; cbn [r_children r_next_node shown_items r_item_count last_li];
    rewrite ?length_app, ?map_app; simpl.
  - exact Hins.
  - rewrite Hv. reflexivity.
  - rewrite Nat.add_1_r, seq_S, Hi, Hn. reflexivity.
  - lia.
  - lia.
  - rewrite Hn. destruct (shown_items rs); simpl; f_equal; lia.
  - apply Forall_app. split; [assumption|].
    constructor; [|constructor]. exists item, content. auto.
Qed.

Lemma fresh_loop_fold (l : list jsstring) (news : list element)
    (rs : render_state) :
  fresh_loop n0 query old news rs ->
  exists news',
    fresh_loop n0 query old news'
      (fold_left (render_item [] (toLowerCase query) query) l rs).
Proof.
  revert news rs. induction l as [|item l IH]; intros news rs Hrs; simpl;
    [eauto|].
  destruct (fresh_loop_step news rs item Hrs) as (news' & Hnews).
  eapply IH, Hnews.
Qed.

End FreshRender.

(** The options a render pass puts into a container that held none: one
    per rendered item, in the order of the list, before everything else;
    each shows its item as text and stores it as value. *)
Theorem fresh_render_follows_answer `{CaseMapping} (rev : revision)
    (cfg : config) (json_response : payload) (query : jsstring) (w : widget) :
  well_formed w -> options w = [] ->
  rendered_items query (getUniqueItemList json_response) <> [] ->
  let w' := replaceResults rev cfg json_response query w in
  map autocompleteValue (options w')
  = map Some (rendered_items query (getUniqueItemList json_response))
  /\ Forall (fun e => autocompleteValue e = Some (textContent e)) (options w')
  /\ (exists rest, children w' = options w' ++ rest
                   /\ filter optionSelector rest = [])
  /\ item_count w' = List.length (options w').
Proof.
  intros Hwf Hnone Hsome w'.
  set (l := getUniqueItemList json_response) in *.
  destruct (replaceResults_children rev cfg json_response query w)
    as (Hc & _ & Hcount).
  fold l w' in Hc, Hcount.
  (* the loop *)
  assert (fresh_loop (next_node w) query (children w) [] (render_start w))
    as Hstart by (constructor; simpl; auto using Nat.add_0_r).
  destruct (fresh_loop_fold (next_node w) query (children w) l [] _ Hstart)
    as (news & [Hch Hv Hi Hn Hcnt _ Ho]).
  destruct (loop_inv_end w query l) as [_ _ Hshown _ _].
  rewrite Hnone in Hshown. rewrite Hshown in Hv, Hi, Hn, Hcnt.
  (* the pass up to the placeholder *)
  set (u := updateResults rev cfg l query w) in *.
  assert (exists rest, children u = news ++ rest
                       /\ filter optionSelector rest = []
                       /\ item_count u
                          = List.length (rendered_items query l))
    as (rest & Hu & Hrest & Hcu).
  { unfold u. rewrite updateResults_kept, kept_item_count.
    destruct (rendered_items query l) as [|v r] eqn:Er; [congruence|].
    cbn [List.length Nat.eqb].
    assert (children (kept l query w) = news ++ children w) as Hk.
    { cbn [kept children]. unfold kept_children, render_loop.
      rewrite Hnone. simpl. exact Hch. }
    destruct (hideSorryMessage_frame rev (kept l query w))
      as (_ & _ & -> & _).
    rewrite kept_item_count, Er.
    unfold hideSorryMessage.
    destruct (find (placeholderSelector rev) (children (kept l query w)))
      as [p|] eqn:Ef.
    - cbn [children with_children]. rewrite Hk.
      unfold removeChild. rewrite filter_app.
      exists (filter (fun e => negb (Nat.eqb (nid e) (nid p))) (children w)).
      split; [|split; [|reflexivity]].
      + f_equal.
        assert (In p (children w)) as Hp.
        { apply find_some in Ef as [Hp Pp]. rewrite Hk in Hp.
          apply in_app_or in Hp as [Hp|Hp]; [|assumption].
          rewrite Forall_forall in Ho.
          destruct (Ho p Hp) as (v' & c & E & _). rewrite E in Pp.
          rewrite new_option_placeholder in Pp. discriminate. }
        destruct Hwf as [_ Ha]. rewrite Forall_forall in Ha.
        apply Ha in Hp.
        assert (forall e, In e news -> next_node w <= nid e) as Hge.
        { intros e He. apply (in_map nid) in He. rewrite Hi in He.
          apply in_seq in He. lia. }
        clear -Hp Hge. induction news as [|e news IH]; [reflexivity|].
        simpl.
        assert (Nat.eqb (nid e) (nid p) = false) as ->.
        { apply Nat.eqb_neq. specialize (Hge e (or_introl eq_refl)). lia. }
        simpl. f_equal. apply IH. intros; apply Hge; right; assumption.
      + rewrite filter_filter_comm. fold (options w). rewrite Hnone.
        reflexivity.
    - exists (children w). rewrite Hk. auto. }
  assert (filter optionSelector news = news) as Hall.
  { clear -Ho. induction Ho as [|e news (v & c & E & _) _ IH];
      [reflexivity|].
    simpl.
    assert (optionSelector e = true) as -> by (rewrite E; reflexivity).
    rewrite IH. reflexivity. }
  assert (options u = news) as Hou
    by (unfold options; rewrite Hu, filter_app, Hrest, app_nil_r; exact Hall).
  (* the ids *)
  pose proof (identifyOptions_children u) as Hvar. rewrite <- Hc in Hvar.
  pose proof (variants_filter optionSelector _ _ optionSelector_blind Hvar)
    as Hvo.
  fold (options u) (options w') in Hvo. rewrite Hou in Hvo.
  split; [|split; [|split]].
  - rewrite <- Hv. clear -Hvo.
    induction Hvo; simpl; [reflexivity|].
    f_equal; [apply id_variant_value|]; assumption.
  - clear -Hvo Ho. induction Hvo as [|x y l0 l0' Hxy Hvo IH]; [constructor|].
    inversion Ho as [|? ? (v & c & E & Hh) Ho']; subst.
    constructor; [|auto].
    assert (textContent y = textContent x /\
            autocompleteValue y = autocompleteValue x) as [-> ->]
      by (destruct Hxy as [->|(i & _ & ->)]; split; reflexivity).
    rewrite E. cbn [autocompleteValue new_option textContent childNodes].
    f_equal. symmetry. eapply highlighted_text; eassumption.
  - rewrite Hu in Hvar. apply Forall2_app_inv_l in Hvar
      as (news' & rest' & Hn' & Hr' & E).
    exists rest'.
    pose proof (variants_filter optionSelector _ _ optionSelector_blind Hn')
      as F1.
    pose proof (variants_filter optionSelector _ _ optionSelector_blind Hr')
      as F2.
    rewrite Hrest in F2.
    assert (filter optionSelector rest' = []) as E2 by (inversion F2; auto).
    assert (filter optionSelector news' = news') as Hall'.
    { rewrite Hall in F1. clear -Hn' Ho.
      induction Hn' as [|x y l0 l0' Hxy Hn' IH]; [reflexivity|].
      inversion Ho as [|? ? (v & c & Ex & _) Ho']; subst.
      simpl. rewrite (id_variant_test _ _ _ optionSelector_blind Hxy).
      assert (optionSelector x = true) as -> by (rewrite Ex; reflexivity).
      f_equal. auto. }
    unfold options. rewrite E, filter_app, E2, app_nil_r, Hall'.
    split; reflexivity.
  - rewrite Hcount. fold u. rewrite Hcu.
    apply Forall2_length in Hvo. rewrite <- Hvo.
    apply (f_equal (@List.length _)) in Hv. rewrite !length_map in Hv.
    symmetry. exact Hv.
Qed.

Lemma fresh_render_follows_answer_witness :
  well_formed closed_empty /\ options closed_empty = []
  /\ map autocompleteValue
       (options
          (replaceResults Plain default_config answer_jo (str "jo")
             closed_empty))
     = map Some (rendered_items (str "jo") (getUniqueItemList answer_jo)).
Proof.
  assert (well_formed closed_empty) as Hwf
    by (constructor; simpl; constructor).
  split; [exact Hwf|]. split; [reflexivity|].
  refine (proj1 (fresh_render_follows_answer Plain default_config answer_jo
                   (str "jo") closed_empty Hwf eq_refl _)).
  vm_compute. discriminate.
Defined.

(** ** The height of the container *)

Lemma find_present {A} (P : A -> bool) (l : list A) (x : A) :
  In x l -> P x = true -> exists y, find P l = Some y.
Proof.
  intros Hin Hx. destruct (find P l) as [y|] eqn:E; [eauto|].
  rewrite (find_none _ _ E x Hin) in Hx. discriminate.
Qed.

Lemma updateResults_item_count `{CaseMapping} (rev : revision) (cfg : config)
    (l : list jsstring) (query : jsstring) (w : widget) :
  item_count (updateResults rev cfg l query w)
  = List.length (rendered_items query l).
Proof.
  rewrite <- (kept_item_count l query w), updateResults_kept.
  destruct (item_count (kept l query w) =? 0).
  - apply showSorryMessage_frame.
  - apply hideSorryMessage_frame.
Qed.

Lemma is_li_stable : stable is_li.
Proof. split; intros e x; reflexivity. Qed.

(** After a render pass the height of the container is left to the
    content when nothing or at most five items rendered, and is five rows
    otherwise.  (When something rendered, the pass is taken from a
    well-formed container whose options are [<li>] elements, with at most
    one placeholder and no option that the placeholder's selector
    matches.) *)
Theorem replaceResults_height `{CaseMapping} (rev : revision) (cfg : config)
    (json_response : payload) (query : jsstring) (w : widget) :
  let shown := rendered_items query (getUniqueItemList json_response) in
  let w' := replaceResults rev cfg json_response query w in
  (shown = [] -> style_height w' = None)
  /\ (shown <> [] ->
      well_formed w ->
      (forall e, In e (children w) -> placeholderSelector rev e = true ->
                 optionSelector e = false) ->
      List.length (filter (placeholderSelector rev) (children w)) <= 1 ->
      (forall e, In e (options w) -> is_li e = true) ->
      style_height w'
      = if List.length shown <=? 5 then None
        else Some (offsetHeight cfg * 5)%N).
Proof.
  intros shown w'.
  set (l := getUniqueItemList json_response) in *.
  destruct (replaceResults_opened rev cfg json_response query w)
    as (Hbranch & _ & _).
  destruct (replaceResults_children rev cfg json_response query w)
    as (Hc & _ & Hcount).
  fold l w' in Hbranch, Hc, Hcount.
  rewrite (updateResults_item_count rev cfg l query w) in Hcount.
  fold shown in Hcount.
  assert (forall x, In x (children w') -> is_li x = true ->
                    style_height w'
                    = if List.length shown <=? 5 then None
                      else Some (offsetHeight cfg * 5)%N) as Hset.
  { intros x Hx Hli. rewrite <- Hcount.
    assert (item_count w' = item_count
              (open (identifyOptions (updateResults rev cfg l query w)))
            /\ children w' = children
              (open (identifyOptions (updateResults rev cfg l query w))))
      as [Ei Ec].
    { rewrite Hbranch.
      match goal with
      | |- context [setHeight cfg ?y] =>
          destruct (setHeight_frame cfg y) as (-> & _ & _ & -> & _)
      end. split; reflexivity. }
    rewrite Ei. rewrite Ec in Hx.
    rewrite Hbranch. unfold setHeight.
    destruct (find_present is_li _ x Hx Hli) as (y & ->).
    match goal with
    | |- context [if ?c then _ else _] => destruct c
    end; reflexivity. }
  split.
  - intros Hnone. rewrite Hnone in Hset. apply (Hset (sorry_li (next_node w) query));
      [|reflexivity].
    destruct (updateResults_nothing_rendered rev cfg l query w Hnone)
      as (Hopt & front & Hfront & _).
    rewrite Hc, (identifyOptions_no_option _ Hopt), Hfront.
    apply in_or_app. right. left. reflexivity.
  - intros Hsome Hwf Hsep Hone Hli.
    pose proof (updateResults_shows rev cfg l query w Hwf Hsep Hone Hsome)
      as Hshows.
    apply (shows_variants rev l query _ w') in Hshows;
      [|rewrite Hc; apply identifyOptions_children].
    destruct Hshows as [Hitems _ _ _].
    destruct (rendered_items query l) as [|v r] eqn:Er;
      [exfalso; apply Hsome; reflexivity|].
    destruct (Hitems v (or_introl eq_refl)) as (e & He & _).
    apply options_In in He as [He Ho].
    apply (Hset e He).
    destruct (replaceResults_origin rev cfg json_response query w e He)
      as [(e0 & He0 & _ & Hsame) | (e1 & Hvar & Hnew)].
    + rewrite (Hsame _ is_li_stable). apply Hli.
      apply options_In. split; [assumption|].
      rewrite <- (Hsame _ optionSelector_stable). assumption.
    + destruct is_li_stable as [_ Hb].
      rewrite (id_variant_test _ _ _ Hb Hvar).
      destruct Hnew as [(n & v' & c & ->) | (n & q & ->)]; reflexivity.
Qed.

Lemma replaceResults_height_witness :
  rendered_items (str "j") (getUniqueItemList answer_j) <> []
  /\ well_formed closed_empty
  /\ style_height
       (replaceResults Plain default_config answer_j (str "j") closed_empty)
     = None.
Proof.
  assert (rendered_items (str "j") (getUniqueItemList answer_j) <> []) as Hs
    by (vm_compute; discriminate).
  assert (well_formed closed_empty) as Hwf
    by (constructor; simpl; constructor).
  split; [exact Hs|]. split; [exact Hwf|].
  refine (proj2 (replaceResults_height Plain default_config answer_j (str "j")
                   closed_empty) Hs Hwf _ _ _);
    simpl; try contradiction. lia.
Defined.

(** ** The ids of the options *)

Lemma str_inj (s s' : string) : str s = str s' -> s = s'.
Proof.
  unfold str. intros E.
  rewrite <- (string_of_list_ascii_of_string s),
    <- (string_of_list_ascii_of_string s').
  f_equal. revert E.
  generalize (list_ascii_of_string s) (list_ascii_of_string s').
  induction l as [|a l IH]; intros [|b l'] E; simpl in E;
    try discriminate; [reflexivity|].
  injection E as Ea El. f_equal; [|auto].
  rewrite <- (ascii_N_embedding a), <- (ascii_N_embedding b), Ea.
  reflexivity.
Qed.

Lemma decimal_inj (n m : nat) : decimal n = decimal m -> n = m.
Proof.
  unfold decimal. intros E. apply str_inj in E.
  apply Unsigned.to_uint_inj.
  assert (Some (Nat.to_uint n) = Some (Nat.to_uint m)) as [= ->];
    [|reflexivity].
  rewrite <- !NilEmpty.usu, E. reflexivity.
Qed.

Lemma option_id_inj (prefix : jsstring) (k k' : nat) :
  option_id prefix k = option_id prefix k' -> k = k'.
Proof.
  unfold option_id. intros E.
  apply app_inv_head, app_inv_head in E. apply decimal_inj, E.
Qed.

Lemma identify_given (prefix : jsstring) (l : list element) (n : nat) :
  snd (identify prefix l n) = n + List.length (filter unidentified l)
  /\ given_ids l (fst (identify prefix l n))
     = map (fun k => Some (option_id prefix k))
         (seq n (List.length (filter unidentified l))).
Proof.
  revert n. induction l as [|e l IH]; intros n; simpl.
  - split; [lia | reflexivity].
  - unfold given_ids. fold (unidentified e).
    destruct (unidentified e) eqn:E.
    + destruct (IH (S n)) as [Hn Hg].
      destruct (identify prefix l (S n)) as [r n']; simpl in *.
      rewrite E. simpl. split; [lia|]. f_equal. exact Hg.
    + destruct (IH n) as [Hn Hg].
      destruct (identify prefix l n) as [r n']; simpl in *.
      rewrite E. split; [lia | exact Hg].
Qed.

(** [identifyOptions] leaves every enabled option with an [id], changes
    nothing but the [id] of those that had none, and gives these the ids
    built from the successive values of the counter, which are pairwise
    distinct; the counter moves on by their number. *)
Theorem identifyOptions_ids (w : widget) :
  let w' := identifyOptions w in
  let count := List.length (filter unidentified (children w)) in
  (forall e, In e (options w') -> has_attr (elem_id e) = true)
  /\ Forall2 id_variant (children w) (children w')
  /\ given_ids (children w) (children w')
     = map (fun k => Some (option_id (id_prefix w) k))
         (seq (uniqOptionId w) count)
  /\ NoDup (given_ids (children w) (children w'))
  /\ uniqOptionId w' = uniqOptionId w + count.
Proof.
  intros w' count.
  assert (given_ids (children w) (children w')
          = map (fun k => Some (option_id (id_prefix w) k))
              (seq (uniqOptionId w) count)
          /\ uniqOptionId w' = uniqOptionId w + count) as [Hg Hn].
  { unfold w', identifyOptions. fold (id_prefix w).
    destruct (identify_given (id_prefix w) (children w) (uniqOptionId w))
      as [Hn Hg].
    destruct (identify (id_prefix w) (children w) (uniqOptionId w));
      simpl in *. split; assumption. }
  split; [|split; [|split; [|split]]]; try assumption.
  - intros e He. apply options_In in He as [He Ho].
    eapply identifyOptions_identified; eassumption.
  - apply identifyOptions_children.
  - rewrite Hg. generalize (seq_NoDup count (uniqOptionId w)).
    generalize (seq (uniqOptionId w) count) as ks.
    induction ks as [|k ks IH]; intros Hd; simpl; constructor.
    + inversion Hd as [|? ? Hk _]; subst. rewrite in_map_iff.
      intros (k' & [= E] & Hk'). apply option_id_inj in E. subst.
      contradiction.
    + apply IH. inversion Hd; assumption.
Qed.

(** ** Arrow keys, from any option *)

Lemma position_from_middle (front back : list element) (s : element)
    (i : Z) :
  NoDup (map nid (front ++ s :: back)) ->
  position_from (front ++ s :: back) (nid s) i
  = (i + Z.of_nat (List.length front))%Z.
Proof.
  revert i. induction front as [|e front IH]; intros i Hd; simpl.
  - rewrite Nat.eqb_refl. lia.
  - simpl in Hd. inversion Hd as [|? ? He Hl]; subst.
    destruct (Nat.eqb (nid e) (nid s)) eqn:E.
    + apply Nat.eqb_eq in E. exfalso. apply He. rewrite E.
      rewrite map_app. apply in_or_app. right. left. reflexivity.
    + rewrite IH by assumption. lia.
Qed.

(** The option after the selected one, or the first; the option before
    it, or the last. *)
Lemma sibling_of_selected (w : widget) (front back : list element)
    (s x : element) :
  NoDup (map nid (children w)) ->
  options w = front ++ s :: back ->
  selectedOption w = Some x -> nid x = nid s ->
  sibling true w
  = Some (match back with
          | next :: _ => next
          | [] => hd s front
          end)
  /\ sibling false w
     = Some (match front with
             | [] => last back s
             | _ :: _ => last front s
             end).
Proof.
  intros Hd Ho Hs E. unfold sibling. rewrite Hs. cbn [elements_indexOf].
  assert (NoDup (map nid (options w))) as Hdo
    by (apply NoDup_map_filter; assumption).
  rewrite Ho in *. rewrite E, position_from_middle by assumption.
  rewrite Z.add_0_l. split.
  - replace (Z.of_nat (List.length front) + 1)%Z
      with (Z.of_nat (List.length front + 1)) by lia.
    rewrite item_at_nat, nth_error_app2 by lia.
    replace (List.length front + 1 - List.length front) with 1 by lia.
    destruct back as [|next back]; simpl; [|reflexivity].
    change 0%Z with (Z.of_nat 0). rewrite item_at_nat.
    destruct front; reflexivity.
  - destruct front as [|e front] using rev_ind.
    + cbn [app]. rewrite (item_at_negative _ (Z.of_nat (List.length []) - 1))
        by (simpl; lia).
      replace (Z.of_nat (List.length (s :: back)) - 1)%Z
        with (Z.of_nat (List.length back)) by (cbn [List.length]; lia).
      rewrite item_at_nat. clear.
      destruct back as [|z back _] using rev_ind; [reflexivity|].
      rewrite last_last, length_app, app_comm_cons, nth_error_app2
        by (simpl; lia).
      replace (List.length back + List.length [z] - List.length (s :: back))
        with 0 by (simpl; lia).
      reflexivity.
    + clear IHfront. rewrite length_app. simpl.
      replace (Z.of_nat (List.length front + 1) - 1)%Z
        with (Z.of_nat (List.length front)) by lia.
      rewrite item_at_nat, <- app_assoc, nth_error_app2, Nat.sub_diag by lia.
      simpl. rewrite last_last.
      destruct (front ++ [e]) eqn:Ef; [|reflexivity].
      destruct front; discriminate.
Qed.

Lemma select_sibling (cfg : config) (next : bool) (w : widget)
    (item : element) :
  rendered_list w -> sibling next w = Some item ->
  exists x, selectedOption (select cfg (nid item) w) = Some x
            /\ nid x = nid item.
Proof.
  intros [[Hone _] Hcount Hclass] Hs. apply sibling_option in Hs.
  assert (options w <> []) as Hne by (intros E; rewrite E in Hs; inversion Hs).
  pose proof (Hclass item Hs) as Hc.
  apply options_In in Hs as [Hin _].
  destruct (select_selects cfg w item Hone Hin (Hcount Hne) Hc)
    as (x & Hx & En & _).
  eauto.
Qed.

(** From the selected option, ArrowDown selects the next option and
    ArrowUp the previous one; past the last option ArrowDown selects the
    first, and before the first ArrowUp selects the last. *)
Theorem arrow_keys_step (cfg : config) (w : widget)
    (front back : list element) (s : element) :
  rendered_list w ->
  options w = front ++ s :: back ->
  option_map nid (selectedOption w) = Some (nid s) ->
  option_map nid (selectedOption (onArrowDownKeydown cfg w))
  = Some (nid (match back with
               | next :: _ => next
               | [] => hd s front
               end))
  /\ option_map nid (selectedOption (onArrowUpKeydown cfg w))
     = Some (nid (match front with
                  | [] => last back s
                  | _ :: _ => last front s
                  end)).
Proof.
  intros Hr Ho Hs.
  pose proof Hr as [[[[Hd _] _ _] _] _ _].
  destruct (selectedOption w) as [x|] eqn:Ex; [|discriminate].
  simpl in Hs. injection Hs as Hs.
  destruct (sibling_of_selected w front back s x Hd Ho Ex Hs) as [Hn Hp].
  unfold onArrowDownKeydown, onArrowUpKeydown. rewrite Hn, Hp. split.
  - destruct (select_sibling cfg true w _ Hr Hn) as (y & -> & E).
    simpl. congruence.
  - destruct (select_sibling cfg false w _ Hr Hp) as (y & -> & E).
    simpl. congruence.
Qed.

Lemma arrow_keys_step_witness :
  let w := onArrowDownKeydown default_config
             (replaceResults Plain default_config answer_jo (str "jo")
                closed_empty) in
  rendered_list w
  /\ map nid (options w) = [0; 1; 2]
  /\ option_map nid (selectedOption w) = Some 0
  /\ option_map nid (selectedOption (onArrowDownKeydown default_config w))
     = Some 1
  /\ option_map nid (selectedOption (onArrowUpKeydown default_config w))
     = Some 2.
Proof.
  intros w.
  assert (rendered_list w) as Hr.
  { pose proof (replaceResults_rendered_list Plain default_config answer_jo
                  (str "jo") closed_empty rendered_list_closed_empty)
      as [Hsel Hcount Hclass].
    constructor.
    - apply onArrowDownKeydown_selection_enabled. exact Hsel.
    - intros _. vm_compute. lia.
    - intros e He. vm_compute in He.
      repeat destruct He as [<-|He]; try reflexivity. contradiction. }
  split; [exact Hr|]. split; [reflexivity|]. split; [reflexivity|].
  exact (arrow_keys_step default_config w []
           (tl (options w)) (hd (sorry_li 0 []) (options w))
           Hr eq_refl eq_refl).
Defined.

(** ** [aria-activedescendant] *)

Lemma select_activedescendant (cfg : config) (w : widget) (t : element) :
  one_selection w -> In t (children w) -> 0 < item_count w ->
  contains (classList t) (str "disabled") = false ->
  exists x, selectedOption (select cfg (nid t) w) = Some x
            /\ nid x = nid t /\ elem_id x = elem_id t
            /\ activedescendant (select cfg (nid t) w)
               = Some (match elem_id t with Some i => i | None => [] end).
Proof.
  intros Hone Ht Hcount Hclass.
  destruct (select_selects cfg w t Hone Ht Hcount Hclass)
    as (x & Hx & En & _).
  pose proof Hone as [[Hd Ha] Htrue Honce].
  pose proof (after_deselection_nid cfg w) as Hnid.
  set (t' := if match selectedOption w with
                | Some p => Nat.eqb (nid t) (nid p)
                | None => false
                end
             then deselected cfg t else t).
  assert (In t' (after_deselection cfg w)) as Ht'.
  { unfold t', after_deselection. destruct (selectedOption w) as [p|];
      [apply update_node_keeps|]; assumption. }
  assert (nid t' = nid t /\ elem_id t' = elem_id t
          /\ contains (classList t') (str "disabled") = false)
    as (En' & Eid & Hclass').
  { unfold t'. destruct (selectedOption w) as [p|]; [|auto].
    destruct (Nat.eqb (nid t) (nid p)); [|auto].
    repeat split. apply classList_remove_contains. assumption. }
  assert (lookup_node (nid t) (after_deselection cfg w) = Some t') as Hl.
  { apply lookup_node_In; [rewrite Hnid|..]; assumption. }
  assert (activedescendant (select cfg (nid t) w)
          = Some (match elem_id t' with Some i => i | None => [] end)
          /\ children (select cfg (nid t) w)
             = update_node (nid t) (selected cfg) (after_deselection cfg w))
    as [Hact Hch].
  { unfold select. fold (after_deselection cfg w).
    assert (forall w1,
              children w1 = after_deselection cfg w ->
              item_count w1 = item_count w ->
              match lookup_node (nid t) (children w1) with
              | Some t0 =>
                  if (0 <? item_count w1)
                     && negb (contains (classList t0) (str "disabled"))
                  then
                    with_activedescendant
                      (Some match elem_id t0 with Some i => i | None => [] end)
                      (with_children
                         (update_node (nid t)
                            (fun e =>
                               with_classList
                                 (classList_add (classList e)
                                    (selectedClassesOrDefault cfg))
                                 (with_ariaSelected (Some (str "true")) e))
                            (children w1)) w1)
                  else w1
              | None => w1
              end
              = with_activedescendant
                  (Some match elem_id t' with Some i => i | None => [] end)
                  (with_children
                     (update_node (nid t) (selected cfg)
                        (after_deselection cfg w)) w1)) as Hgen.
    { intros w1 Hc1 Hi1. rewrite Hc1, Hl, Hi1, Hclass'.
      apply Nat.ltb_lt in Hcount. rewrite Hcount. reflexivity. }
    unfold after_deselection in *.
    destruct (selectedOption w) as [p|];
      rewrite Hgen by reflexivity; split; reflexivity. }
  exists x. split; [assumption|]. split; [assumption|].
  rewrite Hact, Eid. split; [|reflexivity].
  unfold selectedOption in Hx. rewrite Hch in Hx.
  apply find_some in Hx as [Hin _].
  apply update_node_In_cases in Hin as (y & Hy & [[Hne ->]|[Eny ->]]).
  - congruence.
  - assert (y = t') as ->; [|exact Eid].
    assert (lookup_node (nid t) (after_deselection cfg w) = Some y) as Hl'.
    { apply lookup_node_In; [rewrite Hnid|..]; assumption. }
    congruence.
Qed.

(** On a rendered option list whose options all have an [id], an arrow key
    that finds an option leaves [aria-activedescendant] naming the selected
    option. *)
Theorem arrow_keys_name_the_selected (cfg : config) (w : widget)
    (next : bool) (item : element) :
  rendered_list w ->
  (forall e, In e (options w) -> has_attr (elem_id e) = true) ->
  sibling next w = Some item ->
  let w' := if next then onArrowDownKeydown cfg w
            else onArrowUpKeydown cfg w in
  exists x i,
    selectedOption w' = Some x /\ nid x = nid item
    /\ elem_id x = Some i /\ activedescendant w' = Some i.
Proof.
  intros [[Hone _] Hcount Hclass] Hids Hs w'.
  assert (w' = select cfg (nid item) w) as ->
    by (unfold w', onArrowDownKeydown, onArrowUpKeydown;
        destruct next; rewrite Hs; reflexivity).
  pose proof (sibling_option _ _ _ Hs) as Hopt.
  assert (options w <> []) as Hne
    by (intros E; rewrite E in Hopt; inversion Hopt).
  pose proof (Hclass item Hopt) as Hc.
  pose proof (Hids item Hopt) as Hid.
  apply options_In in Hopt as [Hin _].
  destruct (select_activedescendant cfg w item Hone Hin (Hcount Hne) Hc)
    as (x & Hx & En & Eid & Hact).
  destruct (elem_id item) as [i|] eqn:Ei; [|discriminate].
  exists x, i. auto.
Qed.

Lemma arrow_keys_name_the_selected_witness :
  let w := replaceResults Plain default_config answer_jo (str "jo")
             closed_empty in
  rendered_list w
  /\ activedescendant (onArrowUpKeydown default_config w)
     = Some (str "stimulus-autocomplete-option-2").
Proof.
  intros w.
  assert (rendered_list w) as Hr
    by (apply replaceResults_rendered_list, rendered_list_closed_empty).
  split; [exact Hr|].
  assert (forall e, In e (options w) -> has_attr (elem_id e) = true) as Hids.
  { intros e He. apply options_In in He as [He Ho].
    unfold w in He.
    destruct (replaceResults_children Plain default_config answer_jo
                (str "jo") closed_empty) as (Hc & _).
    rewrite Hc in He.
    eapply identifyOptions_identified; eassumption. }
  destruct (arrow_keys_name_the_selected default_config w false
              (nth 2 (options w) (sorry_li 0 [])) Hr Hids eq_refl)
    as (x & i & Hx & En & Ei & Hact).
  rewrite Hact. f_equal.
  assert (selectedOption (onArrowUpKeydown default_config w)
          = Some x) as Hx' by exact Hx.
  vm_compute in Hx'. injection Hx' as <-. vm_compute in Ei.
  injection Ei as <-. reflexivity.
Defined.

(** ** More on the cache *)

Lemma own_get_set (l : list (jsstring * payload)) (k : jsstring)
    (p : payload) :
  own_get (own_set l k p) k = Some p.
Proof.
  induction l as [|[k' p'] l IH]; simpl.
  - rewrite jseq_refl. reflexivity.
  - destruct (jseq k' k) eqn:E; simpl; rewrite E; auto.
Qed.

Lemma own_get_set_other (l : list (jsstring * payload)) (k k' : jsstring)
    (p : payload) :
  k' <> k -> own_get (own_set l k p) k' = own_get l k'.
Proof.
  intros Hne. induction l as [|[k0 p0] l IH]; simpl.
  - destruct (jseq k k') eqn:E; [|reflexivity].
    apply jseq_eq in E. congruence.
  - destruct (jseq k0 k) eqn:E; simpl.
    + apply jseq_eq in E. subst k0.
      destruct (jseq k k') eqn:E'; [|reflexivity].
      apply jseq_eq in E'. congruence.
    + destruct (jseq k0 k'); auto.
Qed.

(** A query that goes to the network is none of the inherited names. *)
Lemma requested_is_not_proto `{CaseMapping} (ac : AutocompleteCache)
    (query : jsstring) (aborted : option nat) (signal : nat)
    (target : jsurl) :
  snd (fetch ac query) = Requested aborted signal target ->
  toLowerCase query <> str "__proto__".
Proof.
  unfold fetch, findInCache. intros Hf E. rewrite E in Hf.
  assert (ToBoolean (cache_get (cache ac) (str "__proto__")) = true) as Ht.
  { unfold cache_get.
    destruct (own_get (own (cache ac)) (str "__proto__")); [reflexivity|].
    destruct (proto (cache ac)); reflexivity. }
  rewrite Ht in Hf. rewrite Ht in Hf. discriminate.
Qed.

Lemma fetch_keeps_cache `{CaseMapping} (ac : AutocompleteCache)
    (query : jsstring) :
  cache (fst (fetch ac query)) = cache ac.
Proof.
  unfold fetch. destruct (ToBoolean (findInCache (cache ac) query));
    reflexivity.
Qed.

(** Once a query went to the network and its answer is stored, the query
    is answered from the cache in whatever letter case it comes: no request
    is issued and the stored answer is what [fetch] resolves with.  The
    entries under other keys are as before. *)
Theorem stored_answer_is_served `{CaseMapping} (ac : AutocompleteCache)
    (query query' : jsstring) (data : payload)
    (aborted : option nat) (signal : nat) (target : jsurl) :
  snd (fetch ac query) = Requested aborted signal target ->
  toLowerCase query' = toLowerCase query ->
  let ac' := performFetch_then (fst (fetch ac query)) query data in
  fetch ac' query' = (ac', Resolved (VObject (OPayload data)))
  /\ abortController ac' = None
  /\ forall k, k <> toLowerCase query ->
       own_get (own (cache ac')) k = own_get (own (cache ac)) k.
Proof.
  intros Hreq Hsame ac'.
  pose proof (requested_is_not_proto ac query aborted signal target Hreq)
    as Hproto.
  assert (cache ac'
          = {| own := own_set (own (cache ac)) (toLowerCase query) data;
               proto := proto (cache ac) |}) as Hc.
  { unfold ac', performFetch_then, addToCache, cache_set. cbn [cache].
    rewrite fetch_keeps_cache.
    destruct (jseq (toLowerCase query) (str "__proto__")) eqn:E;
      [|reflexivity].
    apply jseq_eq in E. contradiction. }
  split; [|split; [reflexivity|]].
  - unfold fetch, findInCache. rewrite Hsame, Hc. unfold cache_get.
    cbn [own]. rewrite own_get_set. reflexivity.
  - intros k Hk. rewrite Hc. cbn [own]. apply own_get_set_other. assumption.
Qed.

Lemma stored_answer_is_served_witness :
  snd (fetch fresh_cache (str "Jo"))
  = Requested None 0 (buildURL fresh_cache (str "Jo"))
  /\ snd (fetch (performFetch_then (fst (fetch fresh_cache (str "Jo")))
                   (str "Jo") answer_jo) (str "JO"))
     = Resolved (VObject (OPayload answer_jo)).
Proof.
  assert (snd (fetch fresh_cache (str "Jo"))
          = Requested None 0 (buildURL fresh_cache (str "Jo"))) as Hr
    by (vm_compute; reflexivity).
  assert (toLowerCase (str "JO") = toLowerCase (str "Jo")) as Hs
    by (vm_compute; reflexivity).
  split; [exact Hr|].
  rewrite (proj1 (stored_answer_is_served fresh_cache (str "Jo") (str "JO")
                    answer_jo None 0 _ Hr Hs)).
  reflexivity.
Defined.

(** What [findInCache] finds on a cache object whose prototype was not
    replaced: a payload is the entry under the lower-cased query itself,
    or a complete entry under a key that is a prefix of it.  A partial
    entry is found under its own key only. *)
Theorem findInCache_sound `{CaseMapping} (c : cache_map) (query : jsstring)
    (p : payload) :
  proto c = None ->
  findInCache c query = VObject (OPayload p) ->
  own_get (own c) (toLowerCase query) = Some p
  \/ (own_get (own c) (toLowerCase query) = None
      /\ partial p = false
      /\ exists k, In k (map fst (own c)) /\ own_get (own c) k = Some p
                   /\ startsWith (toLowerCase query) k = true).
Proof.
  intros Hproto. unfold findInCache, cache_get. rewrite Hproto.
  destruct (own_get (own c) (toLowerCase query)) as [p'|] eqn:Eo.
  - cbn [ToBoolean]. intros [= ->]. left. reflexivity.
  - unfold object_prototype_get.
    destruct (contains object_prototype_names (toLowerCase query));
      cbn [ToBoolean]; [discriminate|].
    destruct (scan_keys_spec c (toLowerCase query) (Object_keys c))
      as [[-> _] | (before & k & after & p' & _ & _ & Ho & Hp & Hs & ->)];
      [discriminate|].
    intros [= ->]. right. split; [reflexivity|]. split; [assumption|].
    exists k. split; [|split; assumption].
    eapply own_get_In; eassumption.
Qed.

Lemma findInCache_sound_witness :
  proto (cache cache_jo_j) = None
  /\ findInCache (cache cache_jo_j) (str "john")
     = VObject (OPayload answer_jo)
  /\ partial answer_jo = false.
Proof.
  assert (findInCache (cache cache_jo_j) (str "john")
          = VObject (OPayload answer_jo)) as Hf by (vm_compute; reflexivity).
  split; [reflexivity|]. split; [exact Hf|].
  destruct (findInCache_sound (cache cache_jo_j) (str "john") answer_jo
              eq_refl Hf) as [Hexact | (_ & Hp & _)];
    [discriminate Hexact | exact Hp].
Defined.

(** A query whose lower case is a property name of [Object.prototype] is
    never sent: the inherited property passes for a cached answer, and the
    call ends in its [catch] block with a [TypeError], the container left
    as it was. *)
Theorem inherited_name_is_never_fetched `{CaseMapping} (cfg : config)
    (rt : Cached.runtime) (query : jsstring) :
  hasUrlValue cfg = true ->
  proto (cache (Cached.autocomplete_cache rt)) = None ->
  own_get (own (cache (Cached.autocomplete_cache rt))) (toLowerCase query)
  = None ->
  In (toLowerCase query) object_prototype_names ->
  let rt' := Cached.step cfg (Query query) rt in
  Cached.suspended rt' = Cached.suspended rt
  /\ Cached.autocomplete_cache rt' = Cached.autocomplete_cache rt
  /\ children (Cached.this rt') = children (Cached.this rt)
  /\ dispatched (Cached.this rt')
     = dispatched (Cached.this rt) ++ [loadstart; error; loadend]
  /\ Cached.settled rt' = Cached.settled rt ++ [(query, Some TypeError)].
Proof.
  intros Hurl Hproto Hown Hname rt'. unfold rt'. cbn [Cached.step].
  unfold Cached.fetchResults. rewrite Hurl. cbn [negb].
  unfold fetch, findInCache, cache_get. rewrite Hown, Hproto.
  unfold object_prototype_get.
  apply contains_In in Hname. rewrite Hname. cbn [ToBoolean].
  cbn. rewrite <- !app_assoc. repeat split.
Qed.

Lemma inherited_name_is_never_fetched_witness :
  In (toLowerCase (str "Constructor")) object_prototype_names
  /\ Cached.settled
       (Cached.step default_config (Query (str "Constructor")) cached_idle)
     = [(str "Constructor", Some TypeError)].
Proof.
  assert (In (toLowerCase (str "Constructor")) object_prototype_names) as Hn
    by (left; reflexivity).
  split; [exact Hn|].
  assert (own_get (own (cache (Cached.autocomplete_cache cached_idle)))
            (toLowerCase (str "Constructor")) = None) as Ho
    by (vm_compute; reflexivity).
  exact (proj2 (proj2 (proj2 (proj2
           (inherited_name_is_never_fetched default_config cached_idle
              (str "Constructor") eq_refl eq_refl Ho Hn))))).
Defined.

(** ** The URL of a request *)

Lemma set_pair_named (name value : jsstring)
    (l : list (jsstring * jsstring)) :
  filter (fun kv => jseq (fst kv) name) (set_pair name value l)
  = [(name, value)]
  /\ filter (fun kv => negb (jseq (fst kv) name)) (set_pair name value l)
     = filter (fun kv => negb (jseq (fst kv) name)) l.
Proof.
  induction l as [|[k v] l [IH1 IH2]]; simpl.
  - rewrite jseq_refl. split; reflexivity.
  - destruct (jseq k name) eqn:E; simpl; rewrite E; simpl.
    + apply jseq_eq in E. subst k. split.
      * f_equal. clear. induction l as [|[k' v'] l IH]; [reflexivity|].
        simpl. destruct (jseq k' name) eqn:E; simpl; [assumption|].
        rewrite E. assumption.
      * clear. induction l as [|[k' v'] l IH]; [reflexivity|].
        simpl. destruct (jseq k' name) eqn:E; simpl; [assumption|].
        rewrite E. simpl. f_equal. assumption.
    + split; [assumption | f_equal; assumption].
Qed.

Lemma set_pair_twice (name v1 v2 : jsstring)
    (l : list (jsstring * jsstring)) :
  set_pair name v2 (set_pair name v1 l) = set_pair name v2 l.
Proof.
  induction l as [|[k v] l IH]; simpl.
  - rewrite jseq_refl. reflexivity.
  - destruct (jseq k name) eqn:E; simpl; rewrite E.
    + f_equal. clear. induction l as [|[k' v'] l IH]; [reflexivity|].
      simpl. destruct (jseq k' name) eqn:E; simpl; [assumption|].
      rewrite E. simpl. f_equal. assumption.
    + f_equal. assumption.
Qed.

(** A string without surrogate code units is a USVString already. *)
Lemma to_usv_plain (s : jsstring) :
  forallb (fun c => negb (is_high_surrogate c || is_low_surrogate c)) s
  = true ->
  to_usv s = s.
Proof.
  induction s as [|c s IH]; [reflexivity|]. cbn [forallb to_usv].
  intros Hs. apply andb_true_iff in Hs. destruct Hs as [Hc Hs].
  apply negb_true_iff, orb_false_iff in Hc. destruct Hc as [-> ->].
  f_equal. exact (IH Hs).
Qed.

(** The URL of a request carries the query once, under the configured
    parameter, whatever the configured URL or an earlier request left
    there; name and query are taken as USVStrings, a surrogate code unit
    outside a pair being sent as U+FFFD, and a query without surrogates
    as it is.  The other parameters are kept, in their order.  The cache
    object keeps the URL of its last request, and the next request is
    built as from the configured one. *)
Theorem buildURL_carries_the_query (ac : AutocompleteCache)
    (q1 q2 : jsstring) :
  let name := to_usv (queryParam ac) in
  let named := fun kv : jsstring * jsstring => jseq (fst kv) name in
  let u := buildURL ac q2 in
  base u = base (url ac)
  /\ filter named (searchParams u) = [(name, to_usv q2)]
  /\ filter (fun kv => negb (named kv)) (searchParams u)
     = filter (fun kv => negb (named kv)) (searchParams (url ac))
  /\ url (fst (performFetch ac q1)) = buildURL ac q1
  /\ buildURL (fst (performFetch ac q1)) q2 = u
  /\ (forallb (fun c => negb (is_high_surrogate c || is_low_surrogate c)) q2
      = true ->
      filter named (searchParams u) = [(name, q2)]).
Proof.
  intros name named u.
  destruct (set_pair_named name (to_usv q2) (searchParams (url ac)))
    as [H1 H2].
  split; [reflexivity|]. split; [exact H1|]. split; [exact H2|].
  split; [reflexivity|]. split.
  - unfold u, buildURL, performFetch. cbn -[params_set].
    unfold params_set. rewrite set_pair_twice. reflexivity.
  - intros Hplain. etransitivity; [exact H1|].
    rewrite (to_usv_plain q2 Hplain). reflexivity.
Qed.

Lemma buildURL_carries_the_query_witness :
  searchParams (buildURL fresh_cache (str "jo")) = [(str "q", str "jo")]
  /\ searchParams (buildURL fresh_cache [106%N; 55357%N])
     = [(str "q", [106%N; 65533%N])].
Proof.
  split; [|reflexivity].
  exact (proj2 (proj2 (proj2 (proj2 (proj2
           (buildURL_carries_the_query fresh_cache [] (str "jo")))))) eq_refl).
Defined.

(** ** Requests in flight *)

Lemma occurrences_app (ev : event) (a b : list event) :
  occurrences ev (a ++ b) = occurrences ev a + occurrences ev b.
Proof. unfold occurrences. rewrite filter_app, length_app. reflexivity. Qed.

Lemma without_In (s : nat) (l : list task) (t : task) :
  In t (without s l) -> In t l /\ t_signal t <> s.
Proof.
  unfold without. intros Hin. apply filter_In in Hin. destruct Hin as [Hin Hs].
  split; [assumption|]. apply negb_true_iff, Nat.eqb_neq in Hs. assumption.
Qed.

Lemma filter_signals (f : task -> bool) (l : list task) :
  NoDup (map t_signal l) -> NoDup (map t_signal (filter f l)).
Proof.
  induction l as [|x l IH]; simpl; intros Hd; [constructor|].
  inversion Hd as [|? ? Hx Hl]; subst.
  destruct (f x); simpl; [|auto].
  constructor; [|auto]. intros Hin. apply Hx.
  apply in_map_iff in Hin. destruct Hin as (t & Ht & Hin).
  apply filter_In in Hin. rewrite <- Ht. apply in_map. tauto.
Qed.

Lemma awaits_found (s : nat) (ph : phase) (l : list task) (t : task) :
  find (awaits s ph) l = Some t ->
  In t l /\ t_signal t = s /\ t_phase t = ph.
Proof.
  intros Hf. apply find_some in Hf. destruct Hf as [Hin Ha].
  unfold awaits in Ha. apply andb_true_iff in Ha. destruct Ha as [Hs Hp].
  apply Nat.eqb_eq in Hs. repeat split; [assumption..|].
  destruct (t_phase t), ph; congruence.
Qed.

Lemma without_length (l : list task) (t : task) :
  NoDup (map t_signal l) -> In t l ->
  S (List.length (without (t_signal t) l)) = List.length l.
Proof.
  induction l as [|x l IH]; simpl; intros Hd Hin; [contradiction|].
  inversion Hd as [|? ? Hx Hl]; subst.
  destruct Hin as [->|Hin].
  - rewrite Nat.eqb_refl. simpl. f_equal.
    assert (without (t_signal t) l = l) as ->; [|reflexivity].
    unfold without. clear IH Hd Hl. induction l as [|y l IH]; [reflexivity|].
    simpl. destruct (Nat.eqb (t_signal y) (t_signal t)) eqn:E.
    + apply Nat.eqb_eq in E. exfalso. apply Hx. left. assumption.
    + simpl. f_equal. apply IH. intros Hin. apply Hx. right. assumption.
  - destruct (Nat.eqb (t_signal x) (t_signal t)) eqn:E.
    + apply Nat.eqb_eq in E. exfalso. apply Hx. rewrite E. apply in_map.
      assumption.
    + simpl. f_equal. auto.
Qed.

Lemma partition_length {A : Type} (f : A -> bool) (l : list A) :
  List.length (filter f l) + List.length (filter (fun x => negb (f x)) l)
  = List.length l.
Proof.
  induction l as [|x l IH]; [reflexivity|]. simpl.
  destruct (f x); simpl; lia.
Qed.

(** The calls a new request aborts resume one after the other in their
    [catch] blocks. *)
Lemma Fetching_abort_all (l : list task) (rt : Fetching.runtime) :
  let rt' := fold_left (fun rt t => Fetching.reject AbortError t rt) l rt in
  Fetching.suspended rt' = Fetching.suspended rt
  /\ Fetching.abortController rt' = Fetching.abortController rt
  /\ Fetching.next_controller rt' = Fetching.next_controller rt
  /\ children (Fetching.this rt') = children (Fetching.this rt)
  /\ (forall ev,
        occurrences ev (dispatched (Fetching.this rt'))
        = occurrences ev (dispatched (Fetching.this rt))
          + (if is_event ev error || is_event ev loadend
             then List.length l else 0))
  /\ Fetching.settled rt'
     = Fetching.settled rt ++ map (fun t => (t_query t, Some AbortError)) l.
Proof.
  revert rt. induction l as [|t l IH]; intros rt; simpl.
  - repeat split; try (intros ev; destruct (_ || _); lia).
    rewrite app_nil_r. reflexivity.
  - destruct (IH (Fetching.reject AbortError t rt))
      as (H1 & H2 & H3 & H4 & H5 & H6).
    rewrite H1, H2, H3, H4, H6. repeat split.
    + intros ev. rewrite H5. cbn [Fetching.reject Fetching.this catch_block
        dispatched dispatchEvent].
      rewrite <- app_assoc, occurrences_app.
      destruct ev; cbn; lia.
    + cbn [Fetching.reject Fetching.settled]. rewrite <- app_assoc.
      reflexivity.
Qed.

Lemma try_tail_events `{CaseMapping} (rev : revision) (cfg : config)
    (json_response : payload) (query : jsstring) (w : widget) (ev : event) :
  occurrences ev (dispatched (try_tail rev cfg json_response query w))
  = occurrences ev (dispatched w)
    + (if is_event ev toggle_open && hidden w then 1 else 0)
    + (if is_event ev load || is_event ev loadend then 1 else 0).
Proof.
  unfold try_tail. cbn [dispatched dispatchEvent].
  destruct (replaceResults_opened rev cfg json_response query w)
    as (_ & _ & ->).
  rewrite <- !app_assoc, !occurrences_app.
  destruct ev, (hidden w); cbn; lia.
Qed.

Lemma requests_tracked_step `{CaseMapping} (cfg : config) (e : io)
    (rt : Fetching.runtime) :
  requests_tracked rt -> requests_tracked (Fetching.step cfg e rt).
Proof.
  intros (Hd & Hlt & Hboth).
  assert (forall t, In t (Fetching.suspended rt) -> awaits_headers t = true ->
            Fetching.abortController rt = Some (t_signal t)) as Hhold.
  { intros t Hin Ht. specialize (Hboth t Hin). rewrite Ht in Hboth.
    assumption. }
  assert (forall t t', In t (Fetching.suspended rt) -> awaits_headers t = true ->
            In t' (without (t_signal t) (Fetching.suspended rt)) ->
            awaits_headers t' = false) as Hone.
  { intros t t' Hin Ht Hin'. apply without_In in Hin'.
    destruct Hin' as [Hin' Hne].
    destruct (awaits_headers t') eqn:Et'; [|reflexivity].
    pose proof (Hhold t Hin Ht) as E. rewrite (Hhold t' Hin' Et') in E.
    congruence. }
  assert (forall s t', In t' (without s (Fetching.suspended rt)) ->
            if awaits_headers t'
            then Fetching.abortController rt = Some (t_signal t')
            else Fetching.abortController rt <> Some (t_signal t')) as Hsub.
  { intros s t' Hin'. apply without_In in Hin'. apply Hboth. tauto. }
  destruct e as [q | s status | s | s json].
  - cbn [Fetching.step]. unfold Fetching.fetchResults.
    destruct (hasUrlValue cfg); cbn [negb]; [|repeat split; assumption].
    match goal with
    | |- requests_tracked (fold_left _ ?l ?a) =>
        destruct (Fetching_abort_all l a) as (H1 & H2 & H3 & _);
        unfold requests_tracked; rewrite H1, H2, H3
    end.
    cbn [Fetching.suspended Fetching.abortController
           Fetching.next_controller].
    assert (forall t,
              In t (filter (fun t => negb (carries
                       (Fetching.abortController rt) t))
                      (Fetching.suspended rt)) ->
              In t (Fetching.suspended rt) /\ awaits_headers t = false)
      as Hkept.
    { intros t Hin. apply filter_In in Hin. destruct Hin as [Hin Hc].
      split; [assumption|].
      destruct (awaits_headers t) eqn:Eh; [|reflexivity].
      rewrite (Hhold t Hin Eh) in Hc. cbn in Hc.
      rewrite Nat.eqb_refl in Hc. discriminate. }
    split; [|split].
    + rewrite map_app. cbn [map t_signal].
      apply NoDup_app.
      * apply filter_signals. assumption.
      * repeat constructor. intros [].
      * intros a Ha [<-|[]]. apply in_map_iff in Ha.
        destruct Ha as (t & Ht & Hin). apply Hkept in Hin.
        pose proof (Hlt t (proj1 Hin)). lia.
    + intros t Hin. apply in_app_or in Hin. destruct Hin as [Hin|[<-|[]]].
      * apply Hkept in Hin. pose proof (Hlt t (proj1 Hin)). lia.
      * cbn. lia.
    + intros t Hin. apply in_app_or in Hin. destruct Hin as [Hin|[<-|[]]].
      * apply Hkept in Hin. destruct Hin as [Hin ->].
        pose proof (Hlt t Hin). intros [= E]. lia.
      * reflexivity.
  - cbn [Fetching.step].
    destruct (find (awaits s AwaitFetch) (Fetching.suspended rt)) as [t|]
      eqn:Ef; [|repeat split; assumption].
    apply awaits_found in Ef. destruct Ef as (Hin & Hs & Hp).
    assert (awaits_headers t = true) as Ht
      by (unfold awaits_headers; rewrite Hp; reflexivity).
    unfold Fetching.doFetch_resume.
    destruct (response_ok status); cbn [negb].
    + unfold requests_tracked.
      cbn [Fetching.suspended Fetching.abortController
             Fetching.next_controller].
      split; [|split].
      * rewrite await_json_signals. assumption.
      * intros t' Hin'. apply in_map_iff in Hin'.
        destruct Hin' as (x & <- & Hx). unfold await_json.
        destruct (Nat.eqb (t_signal x) (t_signal t)); cbn; auto.
      * intros t' Hin'. apply in_map_iff in Hin'.
        destruct Hin' as (x & <- & Hx). unfold await_json.
        destruct (Nat.eqb (t_signal x) (t_signal t)) eqn:E;
          [cbn; discriminate|].
        apply Nat.eqb_neq in E.
        rewrite (Hone t x Hin Ht); [discriminate|].
        unfold without. apply filter_In. split; [assumption|].
        apply negb_true_iff, Nat.eqb_neq. assumption.
    + unfold requests_tracked.
      cbn [Fetching.reject Fetching.drop Fetching.suspended
             Fetching.abortController Fetching.next_controller].
      split; [|split].
      * apply filter_signals. assumption.
      * intros t' Hin'. apply without_In in Hin'. apply Hlt. tauto.
      * intros t' Hin'. rewrite (Hone t t' Hin Ht Hin'). discriminate.
  - cbn [Fetching.step].
    destruct (find (awaits s AwaitFetch) (Fetching.suspended rt)) as [t|]
      eqn:Ef; [|repeat split; assumption].
    unfold requests_tracked.
    cbn [Fetching.reject Fetching.drop Fetching.suspended
           Fetching.abortController Fetching.next_controller].
    split; [|split].
    + apply filter_signals. assumption.
    + intros t' Hin'. apply without_In in Hin'. apply Hlt. tauto.
    + apply Hsub.
  - cbn [Fetching.step].
    destruct (find (awaits s AwaitJson) (Fetching.suspended rt)) as [t|]
      eqn:Ef; [|repeat split; assumption].
    destruct json as [json_response|]; unfold requests_tracked;
      cbn [Fetching.reject Fetching.drop Fetching.suspended
             Fetching.abortController Fetching.next_controller];
      (split; [|split];
       [ apply filter_signals; assumption
       | intros t' Hin'; apply without_In in Hin'; apply Hlt; tauto
       | apply Hsub ]).
Qed.

Lemma requests_tracked_run `{CaseMapping} (cfg : config) (l : list io)
    (rt : Fetching.runtime) :
  requests_tracked rt -> requests_tracked (Fetching.run cfg l rt).
Proof.
  revert rt. induction l as [|e l IH]; intros rt Hrt; [assumption|].
  apply IH. apply requests_tracked_step. assumption.
Qed.

Lemma one_awaits_headers (l : list task) (held : option nat) :
  NoDup (map t_signal l) ->
  (forall t, In t l ->
     if awaits_headers t then held = Some (t_signal t)
     else held <> Some (t_signal t)) ->
  List.length (filter awaits_headers l) <= 1.
Proof.
  intros Hd Hhold.
  destruct (filter awaits_headers l) as [|x [|y rest]] eqn:E; cbn; try lia.
  exfalso.
  assert (In x (filter awaits_headers l)) as Hx by (rewrite E; left; auto).
  assert (In y (filter awaits_headers l)) as Hy
    by (rewrite E; right; left; auto).
  apply filter_In in Hx, Hy. destruct Hx as [Hx Hx'], Hy as [Hy Hy'].
  pose proof (Hhold x Hx) as Ex. pose proof (Hhold y Hy) as Ey.
  rewrite Hx' in Ex. rewrite Hy' in Ey. rewrite Ey in Ex.
  pose proof (filter_signals awaits_headers l Hd) as Hd'.
  rewrite E in Hd'. cbn in Hd'. inversion Hd' as [|? ? Hn _]; subst.
  apply Hn. left. congruence.
Qed.

(** In [src/autocomplete.js], whatever the event loop delivers after a
    moment with no call suspended: the requests outstanding carry signals
    of their own, at most one call waits for the headers of its response,
    and its request is the one the controller held can abort; every other
    suspended call is reading a body and cannot be aborted any more. *)
Theorem fetching_requests_tracked `{CaseMapping} (cfg : config)
    (l : list io) (rt : Fetching.runtime) :
  Fetching.suspended rt = [] ->
  let rt' := Fetching.run cfg l rt in
  NoDup (map t_signal (Fetching.suspended rt'))
  /\ List.length (filter awaits_headers (Fetching.suspended rt')) <= 1
  /\ forall t, In t (Fetching.suspended rt') ->
       if awaits_headers t
       then Fetching.abortController rt' = Some (t_signal t)
       else Fetching.abortController rt' <> Some (t_signal t).
Proof.
  intros Hnone rt'.
  assert (requests_tracked rt) as Hrt.
  { unfold requests_tracked. rewrite Hnone. repeat split.
    - constructor.
    - intros t [].
    - intros t []. }
  apply (requests_tracked_run cfg l) in Hrt. fold rt' in Hrt.
  destruct Hrt as (Hd & Hlt & Hhold).
  split; [assumption|]. split; [eapply one_awaits_headers; eassumption|].
  assumption.
Qed.

Lemma fetching_requests_tracked_witness :
  let rt :=
    Fetching.run default_config
      [Query (str "jo"); Response 0 200; Query (str "joh")] fetching_idle in
  map t_signal (filter awaits_headers (Fetching.suspended rt)) = [1]
  /\ NoDup (map t_signal (Fetching.suspended rt)).
Proof.
  split; [reflexivity|].
  exact (proj1 (fetching_requests_tracked default_config
                  [Query (str "jo"); Response 0 200; Query (str "joh")]
                  fetching_idle eq_refl)).
Defined.

Lemma rejected_app (a b : list (jsstring * option js_error)) :
  List.length (filter rejected (a ++ b))
  = List.length (filter rejected a) + List.length (filter rejected b).
Proof. rewrite filter_app, length_app. reflexivity. Qed.

Lemma rejected_aborted (l : list task) :
  List.length
    (filter rejected (map (fun t => (t_query t, Some AbortError)) l))
  = List.length l.
Proof. induction l as [|t l IH]; cbn; [reflexivity | f_equal; exact IH]. Qed.

Lemma events_balanced_step `{CaseMapping} (cfg : config) (e : io)
    (rt : Fetching.runtime) :
  requests_tracked rt ->
  events_balanced (dispatched (Fetching.this rt))
    (List.length (Fetching.suspended rt)) (Fetching.settled rt) ->
  let rt' := Fetching.step cfg e rt in
  events_balanced (dispatched (Fetching.this rt'))
    (List.length (Fetching.suspended rt')) (Fetching.settled rt').
Proof.
  intros (Hd & _ & _) (B1 & B2 & B3) rt'. unfold rt'. clear rt'.
  assert (forall err t,
            In t (Fetching.suspended rt) ->
            let rt' :=
              Fetching.reject err t
                (Fetching.drop t
                   {| Fetching.this := Fetching.this rt;
                      Fetching.abortController := None;
                      Fetching.suspended := Fetching.suspended rt;
                      Fetching.next_controller := Fetching.next_controller rt;
                      Fetching.settled := Fetching.settled rt |}) in
            events_balanced (dispatched (Fetching.this rt'))
              (List.length (Fetching.suspended rt')) (Fetching.settled rt'))
    as Hrej.
  { intros err t Hin.
    cbn [Fetching.reject Fetching.drop Fetching.this Fetching.suspended
           Fetching.settled catch_block dispatched dispatchEvent].
    pose proof (without_length (Fetching.suspended rt) t Hd Hin) as Hl.
    unfold events_balanced.
    rewrite <- !app_assoc, !occurrences_app, rejected_app. cbn. lia. }
  destruct e as [q | s status | s | s json]; cbn [Fetching.step].
  - unfold Fetching.fetchResults.
    destruct (hasUrlValue cfg); cbn [negb].
    + match goal with
      | |- context [fold_left _ ?l ?a] =>
          destruct (Fetching_abort_all l a) as (H1 & _ & _ & _ & H5 & H6)
      end.
      unfold events_balanced. rewrite H1, !H5, H6.
      cbn [Fetching.suspended Fetching.this Fetching.settled dispatched
             dispatchEvent].
      rewrite !occurrences_app, rejected_app, rejected_aborted, length_app.
      pose proof (partition_length (carries (Fetching.abortController rt))
                    (Fetching.suspended rt)).
      cbn. lia.
    + cbn [Fetching.this Fetching.suspended Fetching.settled].
      unfold events_balanced. rewrite rejected_app. cbn. lia.
  - destruct (find (awaits s AwaitFetch) (Fetching.suspended rt)) as [t|]
      eqn:Ef; [|repeat split; assumption].
    apply awaits_found in Ef. destruct Ef as (Hin & _ & _).
    unfold Fetching.doFetch_resume.
    destruct (response_ok status); cbn [negb].
    + cbn [Fetching.this Fetching.suspended Fetching.settled].
      rewrite length_map. repeat split; assumption.
    + apply Hrej. assumption.
  - destruct (find (awaits s AwaitFetch) (Fetching.suspended rt)) as [t|]
      eqn:Ef; [|repeat split; assumption].
    apply awaits_found in Ef. destruct Ef as (Hin & _ & _).
    exact (Hrej NetworkError t Hin).
  - destruct (find (awaits s AwaitJson) (Fetching.suspended rt)) as [t|]
      eqn:Ef; [|repeat split; assumption].
    apply awaits_found in Ef. destruct Ef as (Hin & _ & _).
    destruct json as [json_response|]; [|exact (Hrej BodyError t Hin)].
    cbn [Fetching.drop Fetching.this Fetching.suspended Fetching.settled].
    pose proof (without_length (Fetching.suspended rt) t Hd Hin) as Hl.
    unfold events_balanced. rewrite !try_tail_events, rejected_app.
    cbn. lia.
Qed.

Lemma events_balanced_run `{CaseMapping} (cfg : config) (l : list io)
    (rt : Fetching.runtime) :
  requests_tracked rt ->
  events_balanced (dispatched (Fetching.this rt))
    (List.length (Fetching.suspended rt)) (Fetching.settled rt) ->
  let rt' := Fetching.run cfg l rt in
  events_balanced (dispatched (Fetching.this rt'))
    (List.length (Fetching.suspended rt')) (Fetching.settled rt').
Proof.
  revert rt. induction l as [|e l IH]; intros rt Hrt Hb; [assumption|].
  apply IH.
  - apply requests_tracked_step. assumption.
  - apply events_balanced_step; assumption.
Qed.

(** In [src/autocomplete.js], from a moment with no call suspended and
    the events balanced so far, whatever the event loop delivers: the
    [loadstart] events not yet followed by their [loadend] are as many as
    the calls still suspended, every [loadend] comes with one [load] or
    one [error], and the [error] events are as many as the rejected
    promises, the aborted ones included. *)
Theorem fetching_events_balanced `{CaseMapping} (cfg : config)
    (l : list io) (rt : Fetching.runtime) :
  Fetching.suspended rt = [] ->
  events_balanced (dispatched (Fetching.this rt)) 0 (Fetching.settled rt) ->
  let rt' := Fetching.run cfg l rt in
  occurrences loadstart (dispatched (Fetching.this rt'))
  = occurrences loadend (dispatched (Fetching.this rt'))
    + List.length (Fetching.suspended rt')
  /\ occurrences loadend (dispatched (Fetching.this rt'))
     = occurrences load (dispatched (Fetching.this rt'))
       + occurrences error (dispatched (Fetching.this rt'))
  /\ occurrences error (dispatched (Fetching.this rt'))
     = List.length (filter rejected (Fetching.settled rt')).
Proof.
  intros Hnone Hb rt'.
  assert (requests_tracked rt) as Hrt.
  { unfold requests_tracked. rewrite Hnone. repeat split.
    - constructor.
    - intros t [].
    - intros t []. }
  apply (events_balanced_run cfg l rt Hrt). rewrite Hnone. assumption.
Qed.

Lemma fetching_events_balanced_witness :
  let rt :=
    Fetching.run default_config
      [Query (str "jo"); Query (str "joh"); Response 1 200;
       Query (str "john"); Body 1 (Some answer_jo)] fetching_idle in
  dispatched (Fetching.this rt)
  = [loadstart; loadstart; error; loadend; loadstart; toggle_open; load;
     loadend]
  /\ occurrences loadstart (dispatched (Fetching.this rt))
     = occurrences loadend (dispatched (Fetching.this rt))
       + List.length (Fetching.suspended rt).
Proof.
  split; [reflexivity|].
  assert (events_balanced (dispatched (Fetching.this fetching_idle)) 0
            (Fetching.settled fetching_idle)) as Hb
    by (repeat split).
  exact (proj1 (fetching_events_balanced default_config
                  [Query (str "jo"); Query (str "joh"); Response 1 200;
                   Query (str "john"); Body 1 (Some answer_jo)]
                  fetching_idle eq_refl Hb)).
Defined.

(** ** The same, with the cache *)

Lemma Cached_abort_all (l : list task) (rt : Cached.runtime) :
  let rt' := fold_left (fun rt t => Cached.reject AbortError t rt) l rt in
  Cached.suspended rt' = Cached.suspended rt
  /\ Cached.autocomplete_cache rt' = Cached.autocomplete_cache rt
  /\ children (Cached.this rt') = children (Cached.this rt)
  /\ (forall ev,
        occurrences ev (dispatched (Cached.this rt'))
        = occurrences ev (dispatched (Cached.this rt))
          + (if is_event ev error || is_event ev loadend
             then List.length l else 0))
  /\ Cached.settled rt'
     = Cached.settled rt ++ map (fun t => (t_query t, Some AbortError)) l.
Proof.
  revert rt. induction l as [|t l IH]; intros rt; simpl.
  - repeat split; try (intros ev; destruct (_ || _); lia).
    rewrite app_nil_r. reflexivity.
  - destruct (IH (Cached.reject AbortError t rt))
      as (H1 & H2 & H4 & H5 & H6).
    rewrite H1, H2, H4, H6. repeat split.
    + intros ev. rewrite H5. cbn [Cached.reject Cached.this catch_block
        dispatched dispatchEvent].
      rewrite <- app_assoc, occurrences_app.
      destruct ev; cbn; lia.
    + cbn [Cached.reject Cached.settled]. rewrite <- app_assoc.
      reflexivity.
Qed.

Lemma single_without (l : list task) (t : task) :
  List.length l <= 1 -> In t l -> l = [t] /\ without (t_signal t) l = [].
Proof.
  destruct l as [|x [|y l]]; cbn; intros Hl Hin; [contradiction| |lia].
  destruct Hin as [->|[]]. rewrite Nat.eqb_refl. split; reflexivity.
Qed.

Lemma cached_step_inv `{CaseMapping} (cfg : config) (e : io)
    (rt : Cached.runtime) :
  request_tracked rt ->
  let rt' := Cached.step cfg e rt in
  request_tracked rt'
  /\ (events_balanced (dispatched (Cached.this rt))
        (List.length (Cached.suspended rt)) (Cached.settled rt) ->
      events_balanced (dispatched (Cached.this rt'))
        (List.length (Cached.suspended rt')) (Cached.settled rt')).
Proof.
  intros (Hl & Hhold) rt'. unfold rt'. clear rt'.
  assert (forall err t,
            In t (Cached.suspended rt) ->
            let rt' := Cached.reject err t (Cached.drop t rt) in
            request_tracked rt'
            /\ (events_balanced (dispatched (Cached.this rt))
                  (List.length (Cached.suspended rt)) (Cached.settled rt) ->
                events_balanced (dispatched (Cached.this rt'))
                  (List.length (Cached.suspended rt')) (Cached.settled rt')))
    as Hrej.
  { intros err t Hin.
    destruct (single_without _ t Hl Hin) as [E1 E2].
    unfold request_tracked, events_balanced.
    cbn [Cached.reject Cached.drop Cached.this Cached.suspended
           Cached.autocomplete_cache Cached.settled catch_block dispatched
           dispatchEvent].
    rewrite E2, E1.
    rewrite <- !app_assoc, !occurrences_app, rejected_app.
    split; [split; [cbn; lia | intros t' []]|].
    intros (B1 & B2 & B3). cbn in *. lia. }
  assert (request_tracked rt) as Hrt by (split; assumption).
  destruct e as [q | s status | s | s json]; cbn [Cached.step].
  - unfold Cached.fetchResults.
    destruct (hasUrlValue cfg); cbn [negb].
    + unfold fetch.
      destruct (ToBoolean (findInCache (cache (Cached.autocomplete_cache rt))
                             q)) eqn:Eb.
      * assert (forall w' err,
                  (occurrences loadstart (dispatched w')
                   = S (occurrences loadstart (dispatched (Cached.this rt)))
                   /\ occurrences loadend (dispatched w')
                      = S (occurrences loadend (dispatched (Cached.this rt)))
                   /\ occurrences load (dispatched w')
                        + occurrences error (dispatched w')
                      = S (occurrences load (dispatched (Cached.this rt))
                           + occurrences error (dispatched (Cached.this rt)))
                   /\ occurrences error (dispatched w')
                      = occurrences error (dispatched (Cached.this rt))
                        + (if rejected (q, err) then 1 else 0)) ->
                  let rt' :=
                    {| Cached.this := w';
                       Cached.autocomplete_cache := Cached.autocomplete_cache rt;
                       Cached.suspended := Cached.suspended rt;
                       Cached.settled := Cached.settled rt ++ [(q, err)] |} in
                  request_tracked rt'
                  /\ (events_balanced (dispatched (Cached.this rt))
                        (List.length (Cached.suspended rt))
                        (Cached.settled rt) ->
                      events_balanced (dispatched (Cached.this rt'))
                        (List.length (Cached.suspended rt'))
                        (Cached.settled rt'))) as Hhit.
        { intros w' err (E1 & E2 & E3 & E4).
          split; [exact Hrt|]. intros (B1 & B2 & B3).
          unfold events_balanced.
          cbn [Cached.this Cached.suspended Cached.settled].
          rewrite rejected_app. cbn [filter List.length].
          destruct (rejected (q, err)); cbn [List.length]; lia. }
        assert (forall w',
                  w' = catch_block (dispatchEvent loadstart (Cached.this rt)) ->
                  occurrences loadstart (dispatched w')
                   = S (occurrences loadstart (dispatched (Cached.this rt)))
                   /\ occurrences loadend (dispatched w')
                      = S (occurrences loadend (dispatched (Cached.this rt)))
                   /\ occurrences load (dispatched w')
                        + occurrences error (dispatched w')
                      = S (occurrences load (dispatched (Cached.this rt))
                           + occurrences error (dispatched (Cached.this rt)))
                   /\ occurrences error (dispatched w')
                      = occurrences error (dispatched (Cached.this rt))
                        + (if rejected (q, Some TypeError) then 1 else 0))
          as Hcatch.
        { intros w' ->. cbn [catch_block dispatched dispatchEvent].
          rewrite <- !app_assoc, !occurrences_app. cbn. lia. }
        destruct (findInCache (cache (Cached.autocomplete_cache rt)) q)
          as [| | b | str0 | [p | arr | name]];
          try (apply Hhit, Hcatch; reflexivity).
        apply (Hhit _ None). rewrite !try_tail_events.
        cbn [dispatched dispatchEvent]. rewrite !occurrences_app.
        cbn. lia.
      * unfold performFetch.
        match goal with
        | |- context [fold_left _ ?l ?a] =>
            destruct (Cached_abort_all l a) as (H1 & H2 & _ & H5 & H6)
        end.
        unfold request_tracked, events_balanced. rewrite H1, H2, !H5, H6.
        cbn [Cached.suspended Cached.this Cached.settled
               Cached.autocomplete_cache dispatched dispatchEvent
               abortController].
        assert (filter (fun t => negb (carries
                  (abortController (Cached.autocomplete_cache rt)) t))
                  (Cached.suspended rt) = []) as Ek.
        { destruct (Cached.suspended rt) as [|x [|y l]] eqn:E;
            cbn in Hl; try lia; [reflexivity|].
          cbn. rewrite (Hhold x (or_introl eq_refl)). cbn.
          rewrite Nat.eqb_refl. reflexivity. }
        pose proof (partition_length
                      (carries (abortController (Cached.autocomplete_cache rt)))
                      (Cached.suspended rt)) as Hp.
        rewrite Ek in *. cbn [app List.length] in *.
        rewrite !occurrences_app, rejected_app, rejected_aborted.
        split; [split; [lia | intros t [<-|[]]; reflexivity]|].
        intros (B1 & B2 & B3). cbn. lia.
    + split; [exact Hrt|]. intros (B1 & B2 & B3).
      cbn [Cached.this Cached.suspended Cached.settled].
      unfold events_balanced. rewrite rejected_app. cbn. lia.
  - destruct (find (awaits s AwaitFetch) (Cached.suspended rt)) as [t|]
      eqn:Ef; [|split; auto].
    apply awaits_found in Ef. destruct Ef as (Hin & _ & _).
    destruct (response_ok status); [|apply Hrej; assumption].
    unfold request_tracked.
    cbn [Cached.this Cached.suspended Cached.settled
           Cached.autocomplete_cache].
    rewrite length_map. split; [split; [assumption|] | auto].
    intros t' Hin'. apply in_map_iff in Hin'. destruct Hin' as (x & <- & Hx).
    unfold await_json. destruct (Nat.eqb (t_signal x) s); cbn; auto.
  - destruct (find (awaits s AwaitFetch) (Cached.suspended rt)) as [t|]
      eqn:Ef; [|split; auto].
    apply awaits_found in Ef. destruct Ef as (Hin & _ & _).
    apply Hrej. assumption.
  - destruct (find (awaits s AwaitJson) (Cached.suspended rt)) as [t|]
      eqn:Ef; [|split; auto].
    apply awaits_found in Ef. destruct Ef as (Hin & _ & _).
    destruct json as [data|]; [|apply Hrej; assumption].
    destruct (single_without _ t Hl Hin) as [E1 E2].
    unfold request_tracked, events_balanced.
    cbn [Cached.drop Cached.this Cached.suspended Cached.settled
           Cached.autocomplete_cache].
    rewrite E2, E1, !try_tail_events, rejected_app.
    split; [split; [cbn; lia | intros t' []]|].
    intros (B1 & B2 & B3). cbn in *. lia.
Qed.

Lemma cached_run_inv `{CaseMapping} (cfg : config) (l : list io)
    (rt : Cached.runtime) :
  request_tracked rt ->
  let rt' := Cached.run cfg l rt in
  request_tracked rt'
  /\ (events_balanced (dispatched (Cached.this rt))
        (List.length (Cached.suspended rt)) (Cached.settled rt) ->
      events_balanced (dispatched (Cached.this rt'))
        (List.length (Cached.suspended rt')) (Cached.settled rt')).
Proof.
  revert rt. induction l as [|e l IH]; intros rt Hrt; [split; auto|].
  destruct (cached_step_inv cfg e rt Hrt) as [Hrt' Hb'].
  destruct (IH _ Hrt') as [Hrt'' Hb''].
  split; [exact Hrt''|]. intros Hb. exact (Hb'' (Hb' Hb)).
Qed.

(** In the caching file, whatever the event loop delivers after a moment
    with no call suspended: at most one call is suspended, that is, at
    most one request is outstanding, and it is the one the cache object's
    controller can abort. *)
Theorem cached_one_request `{CaseMapping} (cfg : config) (l : list io)
    (rt : Cached.runtime) :
  Cached.suspended rt = [] ->
  let rt' := Cached.run cfg l rt in
  List.length (Cached.suspended rt') <= 1
  /\ forall t, In t (Cached.suspended rt') ->
       abortController (Cached.autocomplete_cache rt') = Some (t_signal t).
Proof.
  intros Hnone rt'.
  assert (request_tracked rt) as Hrt.
  { unfold request_tracked. rewrite Hnone. split; [cbn; lia | intros t []]. }
  exact (proj1 (cached_run_inv cfg l rt Hrt)).
Qed.

Lemma cached_one_request_witness :
  let rt :=
    Cached.run default_config
      [Query (str "jo"); Response 0 200; Query (str "joh")] cached_idle in
  map t_query (Cached.suspended rt) = [str "joh"]
  /\ List.length (Cached.suspended rt) <= 1.
Proof.
  split; [reflexivity|].
  exact (proj1 (cached_one_request default_config
                  [Query (str "jo"); Response 0 200; Query (str "joh")]
                  cached_idle eq_refl)).
Defined.

(** In the caching file as well the events are balanced, the calls
    answered from the cache included: a [loadstart] without its [loadend]
    is the one suspended call, every [loadend] comes with one [load] or
    one [error], and the [error] events are as many as the rejected
    promises. *)
Theorem cached_events_balanced `{CaseMapping} (cfg : config) (l : list io)
    (rt : Cached.runtime) :
  Cached.suspended rt = [] ->
  events_balanced (dispatched (Cached.this rt)) 0 (Cached.settled rt) ->
  let rt' := Cached.run cfg l rt in
  occurrences loadstart (dispatched (Cached.this rt'))
  = occurrences loadend (dispatched (Cached.this rt'))
    + List.length (Cached.suspended rt')
  /\ occurrences loadend (dispatched (Cached.this rt'))
     = occurrences load (dispatched (Cached.this rt'))
       + occurrences error (dispatched (Cached.this rt'))
  /\ occurrences error (dispatched (Cached.this rt'))
     = List.length (filter rejected (Cached.settled rt')).
Proof.
  intros Hnone Hb rt'.
  assert (request_tracked rt) as Hrt.
  { unfold request_tracked. rewrite Hnone. split; [cbn; lia | intros t []]. }
  apply (proj2 (cached_run_inv cfg l rt Hrt)). rewrite Hnone. assumption.
Qed.

Lemma cached_events_balanced_witness :
  let rt :=
    Cached.run default_config
      [Query (str "jo"); Response 0 200; Body 0 (Some answer_jo);
       Query (str "john"); Query (str "constructor")] cached_idle in
  dispatched (Cached.this rt)
  = [loadstart; toggle_open; load; loadend; loadstart; load; loadend;
     loadstart; error; loadend]
  /\ occurrences error (dispatched (Cached.this rt))
     = List.length (filter rejected (Cached.settled rt)).
Proof.
  split; [reflexivity|].
  assert (events_balanced (dispatched (Cached.this cached_idle)) 0
            (Cached.settled cached_idle)) as Hb
    by (repeat split).
  exact (proj2 (proj2 (cached_events_balanced default_config
                  [Query (str "jo"); Response 0 200; Body 0 (Some answer_jo);
                   Query (str "john"); Query (str "constructor")]
                  cached_idle eq_refl Hb))).
Defined.

(** ** Toggle events *)

Lemma visibility_app (h : bool) (d1 d2 : list event) :
  visibility h (d1 ++ d2)
  = match visibility h d1 with
    | Some h' => visibility h' d2
    | None => None
    end.
Proof.
  revert h. induction d1 as [|ev d1 IH]; intros h; [reflexivity|].
  destruct ev, h; cbn; auto.
Qed.

Lemma toggles_report_refl (w : widget) : toggles_report w w.
Proof. exists []. rewrite app_nil_r. repeat split. Qed.

Lemma visibility_quiet (d : list event) (h h' : bool) :
  existsb is_toggle d = false -> visibility h d = Some h' -> h' = h.
Proof.
  revert h. induction d as [|ev d IH]; intros h Hd Hv.
  - cbn in Hv. congruence.
  - destruct ev; cbn in Hd; try discriminate; cbn in Hv; eauto.
Qed.

Lemma toggles_report_trans (w1 w2 w3 : widget) :
  toggles_report w1 w2 -> toggles_report w2 w3 -> toggles_report w1 w3.
Proof.
  intros (d1 & E1 & V1 & X1) (d2 & E2 & V2 & X2). exists (d1 ++ d2).
  split; [rewrite E2, E1, app_assoc; reflexivity|].
  split; [rewrite visibility_app, V1; assumption|].
  rewrite existsb_app.
  destruct (existsb is_toggle d2) eqn:T2.
  - rewrite orb_true_r. exact X2.
  - rewrite orb_false_r, X2, X1.
    destruct (existsb is_toggle d1); [|reflexivity].
    unfold resultsShown. rewrite (visibility_quiet d2 _ _ T2 V2).
    reflexivity.
Qed.

(** An operation that leaves the flag, the attribute and the events as
    they are. *)
Lemma toggles_report_frame (w w' : widget) :
  hidden w' = hidden w -> dispatched w' = dispatched w ->
  expanded w' = expanded w -> toggles_report w w'.
Proof.
  intros Hh Hd He. exists []. rewrite app_nil_r, Hh. repeat split; auto.
Qed.

Lemma toggles_report_open (w : widget) : toggles_report w (open w).
Proof.
  unfold open, resultsShown. destruct (hidden w) eqn:E; cbn [negb].
  - exists [toggle_open]. cbn. rewrite E. repeat split.
  - apply toggles_report_refl.
Qed.

Lemma toggles_report_close (w : widget) : toggles_report w (close w).
Proof.
  unfold close, resultsShown. destruct (hidden w) eqn:E; cbn [negb].
  - apply toggles_report_refl.
  - exists [toggle_close]. cbn. rewrite E. repeat split.
Qed.

Lemma toggles_report_dispatch (ev : event) (w : widget) :
  is_toggle ev = false -> toggles_report w (dispatchEvent ev w).
Proof.
  intros Hev. exists [ev]. cbn [dispatched dispatchEvent hidden expanded].
  split; [reflexivity|]. cbn. rewrite Hev.
  destruct ev; try discriminate; repeat split.
Qed.

Lemma toggles_report_hideAndRemoveOptions (w : widget) :
  toggles_report w (hideAndRemoveOptions w).
Proof.
  unfold hideAndRemoveOptions.
  eapply toggles_report_trans; [apply toggles_report_close|].
  apply toggles_report_frame; reflexivity.
Qed.

Lemma select_frame (cfg : config) (target : nat) (w : widget) :
  hidden (select cfg target w) = hidden w
  /\ dispatched (select cfg target w) = dispatched w
  /\ expanded (select cfg target w) = expanded w.
Proof. unfold select. case_matches; repeat split. Qed.

Lemma setHeight_expanded (cfg : config) (w : widget) :
  expanded (setHeight cfg w) = expanded w.
Proof. unfold setHeight. case_matches; reflexivity. Qed.

Lemma hideSorryMessage_expanded (rev : revision) (w : widget) :
  expanded (hideSorryMessage rev w) = expanded w.
Proof. unfold hideSorryMessage. case_matches; reflexivity. Qed.

Lemma updateResults_expanded `{CaseMapping} (rev : revision) (cfg : config)
    (l : list jsstring) (query : jsstring) (w : widget) :
  expanded (updateResults rev cfg l query w) = expanded w.
Proof.
  unfold updateResults.
  match goal with
  | |- context [if ?c then _ else _] => destruct c
  end.
  - unfold showSorryMessage. rewrite setHeight_expanded.
    destruct rev; cbn [expanded]; rewrite ?hideSorryMessage_expanded;
      reflexivity.
  - rewrite hideSorryMessage_expanded. reflexivity.
Qed.

Lemma identifyOptions_expanded (w : widget) :
  expanded (identifyOptions w) = expanded w.
Proof.
  unfold identifyOptions.
  destruct (identify _ (children w) (uniqOptionId w)). reflexivity.
Qed.

Lemma toggles_report_replaceResults `{CaseMapping} (rev : revision)
    (cfg : config) (json_response : payload) (query : jsstring)
    (w : widget) :
  toggles_report w (replaceResults rev cfg json_response query w).
Proof.
  destruct (replaceResults_opened rev cfg json_response query w)
    as (-> & _ & _).
  eapply toggles_report_trans;
    [|eapply toggles_report_trans; [apply toggles_report_open|]].
  - apply toggles_report_frame.
    + destruct (identifyOptions_frame
                  (updateResults rev cfg (getUniqueItemList json_response)
                     query w)) as (-> & _).
      apply updateResults_frame.
    + destruct (identifyOptions_frame
                  (updateResults rev cfg (getUniqueItemList json_response)
                     query w)) as (_ & -> & _).
      apply updateResults_frame.
    + rewrite identifyOptions_expanded. apply updateResults_expanded.
  - apply toggles_report_frame.
    + apply setHeight_frame.
    + apply setHeight_frame.
    + apply setHeight_expanded.
Qed.

Lemma toggles_report_arrow (cfg : config) (next : bool) (w : widget) :
  toggles_report w
    (if next then onArrowDownKeydown cfg w else onArrowUpKeydown cfg w).
Proof.
  destruct next; unfold onArrowDownKeydown, onArrowUpKeydown;
    match goal with
    | |- context [sibling ?b w] => destruct (sibling b w) as [item|]
    end;
    try apply toggles_report_refl;
    apply toggles_report_frame; apply select_frame.
Qed.

Lemma toggles_report_escape (w : widget) :
  toggles_report w (onEscapeKeydown w).
Proof.
  unfold onEscapeKeydown. destruct (negb (resultsShown w)).
  - apply toggles_report_refl.
  - apply toggles_report_hideAndRemoveOptions.
Qed.

Lemma toggles_report_commit (selected : element) (p : page) :
  toggles_report (results p) (results (commit selected p)).
Proof.
  unfold commit. destruct (ToBoolean (reflected (ariaDisabled selected))).
  - apply toggles_report_refl.
  - apply toggles_report_hideAndRemoveOptions.
Qed.

Lemma toggles_report_try_tail `{CaseMapping} (rev : revision) (cfg : config)
    (json_response : payload) (query : jsstring) (w : widget) :
  toggles_report w (try_tail rev cfg json_response query w).
Proof.
  unfold try_tail.
  eapply toggles_report_trans; [apply toggles_report_replaceResults|].
  eapply toggles_report_trans; apply toggles_report_dispatch; reflexivity.
Qed.

Lemma toggles_report_catch_block (w : widget) :
  toggles_report w (catch_block w).
Proof.
  unfold catch_block.
  eapply toggles_report_trans; apply toggles_report_dispatch; reflexivity.
Qed.

Lemma toggles_report_aborts (l : list task) (rt : Cached.runtime) :
  toggles_report (Cached.this rt)
    (Cached.this
       (fold_left (fun rt t => Cached.reject AbortError t rt) l rt)).
Proof.
  revert rt. induction l as [|t l IH]; intros rt; cbn [fold_left].
  - apply toggles_report_refl.
  - eapply toggles_report_trans; [|apply IH].
    apply toggles_report_catch_block.
Qed.

Lemma toggles_report_fetchResults `{CaseMapping} (cfg : config)
    (query : jsstring) (rt : Cached.runtime) :
  toggles_report (Cached.this rt)
    (Cached.this (Cached.fetchResults cfg query rt)).
Proof.
  unfold Cached.fetchResults.
  destruct (hasUrlValue cfg); cbn [negb]; [|apply toggles_report_refl].
  eapply toggles_report_trans;
    [apply (toggles_report_dispatch loadstart); reflexivity|].
  unfold fetch.
  destruct (ToBoolean (findInCache (cache (Cached.autocomplete_cache rt))
                         query)).
  - destruct (findInCache (cache (Cached.autocomplete_cache rt)) query)
      as [| | b | str0 | [pl | arr | name]]; cbn [Cached.this];
      try apply toggles_report_catch_block.
    apply toggles_report_try_tail.
  - unfold performFetch.
    match goal with
    | |- context [fold_left _ ?l ?a] =>
        apply (toggles_report_aborts l a)
    end.
Qed.

Lemma toggles_report_step `{CaseMapping} (cfg : config) (e : io)
    (rt : Cached.runtime) :
  toggles_report (Cached.this rt) (Cached.this (Cached.step cfg e rt)).
Proof.
  destruct e as [q | s status | s | s json]; cbn [Cached.step].
  - apply toggles_report_fetchResults.
  - destruct (find _ _); [|apply toggles_report_refl].
    destruct (response_ok status); [apply toggles_report_refl|].
    apply toggles_report_catch_block.
  - destruct (find _ _); [|apply toggles_report_refl].
    apply toggles_report_catch_block.
  - destruct (find _ _); [|apply toggles_report_refl].
    destruct json; [apply toggles_report_try_tail|].
    apply toggles_report_catch_block.
Qed.

Lemma toggles_report_handle `{CaseMapping} (st : settings) (cfg : config)
    (u : ui) (p : page) :
  toggles_report (results p) (results (handle st cfg u p)).
Proof.
  destruct u as [k | | | | target | value | e]; cbn [handle].
  - destruct k; cbn [onKeydown fst].
    + apply toggles_report_escape.
    + apply (toggles_report_arrow cfg true).
    + apply (toggles_report_arrow cfg false).
    + unfold onTabKeydown. destruct (selectedOption (results p)).
      * apply toggles_report_commit.
      * apply toggles_report_refl.
    + unfold onEnterKeydown. destruct (selectedOption (results p));
        [destruct (resultsShown (results p))|]; cbn [fst];
        try apply toggles_report_refl.
      apply toggles_report_commit.
    + apply toggles_report_refl.
  - unfold onInputBlur. destruct (mouseDown p).
    + apply toggles_report_refl.
    + apply toggles_report_close.
  - apply toggles_report_refl.
  - unfold mouseup. destruct (mouseup_listeners p);
      apply toggles_report_refl.
  - unfold onResultsClick. destruct (closest_option target (results p)).
    + apply toggles_report_commit.
    + apply toggles_report_refl.
  - unfold onInputChange. cbn [input_value].
    destruct (_ && _).
    + apply toggles_report_fetchResults.
    + apply toggles_report_hideAndRemoveOptions.
  - apply toggles_report_step.
Qed.

(** Whatever reaches the controller -- keys, the mouse, typing, the
    network --, every [toggle] event dispatched reports a change of the
    list's visibility: [open] only when the list was hidden and is shown,
    [close] only when it was shown and is hidden, so that the two
    alternate; and once a [toggle] was dispatched, [aria-expanded] tells
    whether the list is shown. *)
Theorem toggle_events_report_visibility `{CaseMapping} (st : settings)
    (cfg : config) (l : list ui) (p : page) :
  let p' := handle_all st cfg l p in
  exists d,
    dispatched (results p') = dispatched (results p) ++ d
    /\ visibility (hidden (results p)) d = Some (hidden (results p'))
    /\ expanded (results p')
       = if existsb is_toggle d then Some (resultsShown (results p'))
         else expanded (results p).
Proof.
  cbv zeta. change (toggles_report (results p)
                      (results (handle_all st cfg l p))).
  revert p. induction l as [|u l IH]; intros p; cbn [handle_all fold_left].
  - apply toggles_report_refl.
  - eapply toggles_report_trans; [apply toggles_report_handle|].
    apply IH.
Qed.

(** ** Committing an option *)









(** ** Nothing to commit *)

Lemma sibling_no_options (next : bool) (w : widget) :
  options w = [] -> sibling next w = None.
Proof.
  intros Ho. unfold sibling. rewrite Ho.
  destruct next; unfold item_at;
    repeat match goal with
           | |- context [if ?c then _ else _] => destruct c
           end;
    try reflexivity;
    match goal with
    | |- context [nth_error [] ?n] => destruct n; reflexivity
    end.
Qed.

Lemma closest_no_options (target : option nat) (w : widget) :
  options w = [] -> closest_option target w = None.
Proof.
  intros Ho. unfold closest_option. destruct target as [n|]; [|reflexivity].
  destruct (lookup_node n (children w)) as [e|] eqn:E; [|reflexivity].
  destruct (optionSelector e) eqn:Eo; [|reflexivity].
  apply find_some in E. destruct E as [Hin _].
  assert (In e (options w)) as He by (apply options_In; auto).
  rewrite Ho in He. contradiction.
Qed.

Lemma on_results_fields (f : widget -> widget) (p : page) :
  results (on_results f p) = f (results p)
  /\ input_value (on_results f p) = input_value p
  /\ changes (on_results f p) = changes p
  /\ Cached.suspended (controller (on_results f p))
     = Cached.suspended (controller p)
  /\ Cached.autocomplete_cache (controller (on_results f p))
     = Cached.autocomplete_cache (controller p).
Proof. repeat split. Qed.

Lemma nothing_to_commit_step `{CaseMapping} (st : settings) (cfg : config)
    (u : ui) (p : page) :
  options (results p) = [] -> selectedOption (results p) = None ->
  local u = true ->
  let p' := handle st cfg u p in
  options (results p') = [] /\ selectedOption (results p') = None
  /\ input_value p' = input_value p /\ changes p' = changes p
  /\ Cached.suspended (controller p') = Cached.suspended (controller p)
  /\ Cached.autocomplete_cache (controller p')
     = Cached.autocomplete_cache (controller p).
Proof.
  intros Ho Hs Hu.
  destruct u as [k | | | | target | value | e]; try discriminate Hu;
    cbn [handle].
  - destruct k; cbn [onKeydown fst];
      try match goal with
          | |- context [on_results ?f p] =>
              destruct (on_results_fields f p) as (-> & -> & -> & -> & ->)
          end.
    + unfold onEscapeKeydown, hideAndRemoveOptions.
      destruct (negb (resultsShown (results p))); cbn; auto 10.
    + unfold onArrowDownKeydown. rewrite (sibling_no_options true _ Ho).
      auto 10.
    + unfold onArrowUpKeydown. rewrite (sibling_no_options false _ Ho).
      auto 10.
    + unfold onTabKeydown. rewrite Hs. auto 10.
    + unfold onEnterKeydown. rewrite Hs. cbn [fst]. auto 10.
    + auto 10.
  - unfold onInputBlur. destruct (mouseDown p); [auto 10|].
    destruct (on_results_fields close p) as (-> & -> & -> & -> & ->).
    unfold options, selectedOption.
    destruct (close_frame (results p)) as (-> & _). auto 10.
  - cbn. auto 10.
  - unfold mouseup. destruct (mouseup_listeners p); cbn; auto 10.
  - unfold onResultsClick. rewrite (closest_no_options _ _ Ho). auto 10.
Qed.

(** While the results hold no option and nothing is selected -- an empty
    list, or the placeholder for no results --, no key and nothing the
    mouse does on the results commits anything: the input keeps its text,
    no [autocomplete.change] is dispatched, no request is issued. *)
Theorem nothing_to_commit `{CaseMapping} (st : settings) (cfg : config)
    (l : list ui) (p : page) :
  options (results p) = [] -> selectedOption (results p) = None ->
  forallb local l = true ->
  let p' := handle_all st cfg l p in
  input_value p' = input_value p /\ changes p' = changes p
  /\ Cached.suspended (controller p') = Cached.suspended (controller p)
  /\ options (results p') = [] /\ selectedOption (results p') = None.
Proof.
  revert p. induction l as [|u l IH]; intros p Ho Hs Hl;
    cbn [handle_all fold_left].
  - auto 10.
  - cbn [forallb] in Hl. apply andb_true_iff in Hl. destruct Hl as [Hu Hl].
    destruct (nothing_to_commit_step st cfg u p Ho Hs Hu)
      as (Ho' & Hs' & <- & <- & <- & _).
    apply IH; assumption.
Qed.

Lemma nothing_to_commit_witness :
  let p :=
    on_results
      (replaceResults Caching default_config answer_jo (str "xyz"))
      connected in
  map (fun e => contains (classList e) (str "sorry-message"))
    (children (results p)) = [true]
  /\ changes
       (handle_all default_settings default_config
          [Keydown KeyArrowDown; Keydown KeyEnter; MouseDown; Blur; MouseUp;
           Click (Some 0); Keydown KeyTab] p)
     = [].
Proof.
  intros p. split; [reflexivity|].
  exact (proj1 (proj2 (nothing_to_commit default_settings default_config
                  [Keydown KeyArrowDown; Keydown KeyEnter; MouseDown; Blur;
                   MouseUp; Click (Some 0); Keydown KeyTab] p
                  eq_refl eq_refl eq_refl))).
Defined.

(** ** The queries sent *)

Lemma trimStart_suffix (s : jsstring) :
  exists ws, s = ws ++ trimStart s /\ forallb is_white_space ws = true.
Proof.
  induction s as [|c s (ws & E & Hws)]; [exists []; split; reflexivity|].
  cbn [trimStart]. destruct (is_white_space c) eqn:Ec.
  - exists (c :: ws). cbn. rewrite Ec, Hws. split; [f_equal; exact E|].
    reflexivity.
  - exists []. split; reflexivity.
Qed.

Lemma trimStart_hd (s : jsstring) (c : N) :
  hd_error (trimStart s) = Some c -> is_white_space c = false.
Proof.
  induction s as [|x s IH]; cbn [trimStart]; [discriminate|].
  destruct (is_white_space x) eqn:Ex; [exact IH|].
  cbn. intros [= <-]. exact Ex.
Qed.

Lemma trimEnd_prefix (s : jsstring) :
  exists ws, s = trimEnd s ++ ws /\ forallb is_white_space ws = true.
Proof.
  destruct (trimStart_suffix (rev s)) as (ws & E & Hws).
  exists (rev ws). split.
  - unfold trimEnd. rewrite <- rev_app_distr, <- E, rev_involutive.
    reflexivity.
  - rewrite forallb_forall in *. intros x Hx. apply Hws.
    apply in_rev. assumption.
Qed.

(** [trim] leaves the middle of the string: white space goes at both
    ends, and what is left neither starts nor ends with white space. *)
Lemma trim_spec (s : jsstring) :
  (exists before after,
     s = before ++ trim s ++ after
     /\ forallb is_white_space before = true
     /\ forallb is_white_space after = true)
  /\ (forall c, hd_error (trim s) = Some c -> is_white_space c = false)
  /\ (forall c, hd_error (rev (trim s)) = Some c -> is_white_space c = false).
Proof.
  destruct (trimStart_suffix s) as (before & E1 & H1).
  destruct (trimEnd_prefix (trimStart s)) as (after & E2 & H2).
  fold (trim s) in E2. split; [|split].
  - exists before, after. rewrite <- E2. auto.
  - intros c Hc. apply (trimStart_hd s).
    rewrite E2. destruct (trim s); [discriminate|exact Hc].
  - intros c. unfold trim, trimEnd. rewrite rev_involutive.
    apply trimStart_hd.
Qed.

Lemma queries_on_results (f : widget -> widget) (p : page) :
  queries (controller (on_results f p)) = queries (controller p).
Proof. reflexivity. Qed.

Lemma queries_commit (selected : element) (p : page) :
  queries (controller (commit selected p)) = queries (controller p).
Proof.
  unfold commit. destruct (ToBoolean (reflected (ariaDisabled selected)));
    reflexivity.
Qed.

Lemma queries_fetchResults `{CaseMapping} (cfg : config) (query : jsstring)
    (rt : Cached.runtime) (q : jsstring) :
  In q (queries (Cached.fetchResults cfg query rt)) ->
  In q (queries rt) \/ q = query.
Proof.
  unfold Cached.fetchResults, queries.
  destruct (hasUrlValue cfg); cbn [negb].
  - destruct (fetch (Cached.autocomplete_cache rt) query) as [ac f].
    destruct f as [[| | b | str0 | [pl | arr | name]] | aborted signal url];
      cbn [Cached.suspended Cached.settled];
      try (rewrite map_app, !in_app_iff; cbn; intuition auto).
    match goal with
    | |- context [fold_left _ ?l ?a] =>
        destruct (Cached_abort_all l a) as (-> & _ & _ & _ & ->)
    end.
    cbn [Cached.suspended Cached.settled].
    rewrite !map_app, !in_app_iff, map_map. cbn [map fst In t_query].
    intros [[Hq | [Hq | []]] | [Hq | Hq]]; auto.
    + apply in_map_iff in Hq. destruct Hq as (t & <- & Ht).
      apply filter_In in Ht. left. left. apply in_map. tauto.
    + apply in_map_iff in Hq. destruct Hq as (t & <- & Ht).
      apply filter_In in Ht. left. left. apply in_map. tauto.
  - cbn [Cached.suspended Cached.settled].
    rewrite map_app, !in_app_iff. cbn. intuition auto.
Qed.

Lemma queries_rejected (err : js_error) (t : task) (rt : Cached.runtime)
    (q : jsstring) :
  In t (Cached.suspended rt) ->
  In q (queries (Cached.reject err t (Cached.drop t rt))) ->
  In q (queries rt).
Proof.
  intros Ht. unfold queries.
  cbn [Cached.reject Cached.drop Cached.suspended Cached.settled].
  rewrite map_app, !in_app_iff. cbn [map fst In].
  intros [Hq | [Hq | [<- | []]]]; auto.
  - apply in_map_iff in Hq. destruct Hq as (t' & <- & Ht').
    apply without_In in Ht'. left. apply in_map. tauto.
  - left. apply in_map. assumption.
Qed.

Lemma queries_step `{CaseMapping} (cfg : config) (e : io)
    (rt : Cached.runtime) (q : jsstring) :
  In q (queries (Cached.step cfg e rt)) ->
  In q (queries rt) \/ e = Query q.
Proof.
  destruct e as [query | s status | s | s json]; cbn [Cached.step].
  - intros Hq. apply queries_fetchResults in Hq.
    destruct Hq as [Hq | ->]; auto.
  - destruct (find _ _) as [t|] eqn:Ef; [|auto].
    apply awaits_found in Ef. destruct Ef as (Hin & _ & _).
    destruct (response_ok status).
    + unfold queries. cbn [Cached.suspended Cached.settled].
      rewrite map_map.
      assert (map (fun x => t_query (await_json s x)) (Cached.suspended rt)
              = map t_query (Cached.suspended rt)) as ->; [|auto].
      apply map_ext. intros x. unfold await_json.
      destruct (Nat.eqb (t_signal x) s); reflexivity.
    + intros Hq. left. eapply queries_rejected; eassumption.
  - destruct (find _ _) as [t|] eqn:Ef; [|auto].
    apply awaits_found in Ef. destruct Ef as (Hin & _ & _).
    intros Hq. left. eapply queries_rejected; eassumption.
  - destruct (find _ _) as [t|] eqn:Ef; [|auto].
    apply awaits_found in Ef. destruct Ef as (Hin & _ & _).
    destruct json as [data|];
      [|intros Hq; left; eapply queries_rejected; eassumption].
    unfold queries.
    cbn [Cached.drop Cached.suspended Cached.settled].
    rewrite map_app, !in_app_iff. cbn [map fst In].
    intros [Hq | [Hq | [<- | []]]]; auto.
    + apply in_map_iff in Hq. destruct Hq as (t' & <- & Ht').
      apply without_In in Ht'. left. left. apply in_map. tauto.
    + left. left. apply in_map. assumption.
Qed.

Lemma queries_handle `{CaseMapping} (st : settings) (cfg : config) (u : ui)
    (p : page) (q : jsstring) :
  from_the_page u ->
  In q (queries (controller (handle st cfg u p))) ->
  In q (queries (controller p)) \/ acceptable st q.
Proof.
  intros Hu.
  destruct u as [k | | | | target | value | e]; cbn [handle].
  - destruct k; cbn [onKeydown fst]; auto.
    + unfold onTabKeydown. destruct (selectedOption (results p)); auto.
      rewrite queries_commit. auto.
    + unfold onEnterKeydown. destruct (selectedOption (results p));
        [destruct (resultsShown (results p))|]; cbn [fst]; auto.
      rewrite queries_commit. auto.
  - unfold onInputBlur. destruct (mouseDown p); auto.
  - auto.
  - unfold mouseup. destruct (mouseup_listeners p); auto.
  - unfold onResultsClick. destruct (closest_option target (results p)); auto.
    rewrite queries_commit. auto.
  - unfold onInputChange. cbn [input_value minLengthValue].
    destruct (ToBoolean (@VString unit (trim value))) eqn:Et;
      cbn [andb]; [|auto].
    destruct (long_enough (trim value) (minLengthValue st)) eqn:El; [|auto].
    cbn [with_controller controller]. intros Hq.
    apply queries_fetchResults in Hq. destruct Hq as [Hq | ->]; [auto|].
    right. destruct (trim_spec value) as (_ & Hhd & Hlast).
    repeat split; try assumption.
    intros E. rewrite E in Et. discriminate.
  - cbn [with_controller controller]. intros Hq.
    apply queries_step in Hq. destruct Hq as [Hq | ->]; [auto|].
    contradiction.
Qed.

(** Whatever the user does and the network delivers, every query
    [fetchResults] is called with is one that [onInputChange] let through:
    not empty, without white space at either end, and at least as long as
    [min-length] asks.  With [NaN] for [min-length] no query passes. *)
Theorem queries_are_trimmed `{CaseMapping} (st : settings) (cfg : config)
    (l : list ui) (p : page) :
  Forall from_the_page l ->
  (forall q, In q (queries (controller p)) -> acceptable st q) ->
  let p' := handle_all st cfg l p in
  (forall q, In q (queries (controller p')) ->
     q <> []
     /\ (forall c, hd_error q = Some c -> is_white_space c = false)
     /\ (forall c, hd_error (rev q) = Some c -> is_white_space c = false)
     /\ exists m, minLengthValue st = Some m
                  /\ (m <= Z.of_nat (List.length q))%Z).
Proof.
  intros Hl Hp p' q Hq. unfold p' in Hq. clear p'.
  assert (acceptable st q) as (H1 & H2 & H3 & H4).
  { revert p Hp Hq.
    induction Hl as [|u l Hu Hl IH]; intros p Hp Hq;
      cbn [handle_all fold_left] in Hq; [auto|].
    apply (IH (handle st cfg u p)); [|exact Hq].
    intros q' Hq'. apply (queries_handle st cfg u p q' Hu) in Hq'.
    destruct Hq'; auto. }
  repeat split; try assumption.
  unfold long_enough in H4. destruct (minLengthValue st) as [m|];
    [|discriminate].
  exists m. split; [reflexivity|]. apply Z.leb_le. assumption.
Qed.

Lemma queries_are_trimmed_witness :
  let l :=
    [Typed (str "  "); Typed (str " jo "); Network (Response 0 200);
     Network (Body 0 (Some answer_jo)); Typed (str "Jo")] in
  queries (controller (handle_all default_settings default_config l connected))
  = [str "jo"; str "Jo"]
  /\ forall q,
       In q (queries (controller
               (handle_all default_settings default_config l connected))) ->
       q <> [].
Proof.
  intros l. split; [reflexivity|].
  assert (Forall from_the_page l) as Hl by (repeat constructor).
  intros q Hq.
  exact (proj1 (queries_are_trimmed default_settings default_config l
                  connected Hl (fun q (F : In q []) => match F with end)
                  q Hq)).
Defined.

(** ** [debounce] *)





